(** * portainer-stack-deploy: a shallow embedding of [src/deployStack.ts]
      (the environment-variable parser and merger, the stack definition
      generator, the reconciler [deployStack] and the entry point [run])
      and of [src/api.ts] (the remote API client), with the properties of
      the specification.

    Layout: the definitions come first (JavaScript strings, the parser
    and the merger, the regular-expression matcher behind the image
    rewrite, the client and the reconciler, the entry point, then the
    vocabulary of the statements); the theorems follow. Logging
    ([core.info], [core.debug]) has no effect on what is computed and is
    left out. *)

From Stdlib Require Import List NArith ZArith Bool Lia String Ascii.
Import ListNotations.

(* ===================================================================== *)
(** * JavaScript strings *)
(* ===================================================================== *)

(** A JavaScript string is a sequence of UTF-16 code units; every string
    operation of the source ([trim], [split], [indexOf], [substring],
    [replace], regular expressions without the [u] flag) works on code
    units. *)
Module JS.

Definition char := N.
Definition jsstring := list char.

(** ASCII literals, for the examples. *)
Definition lit (s : string) : jsstring :=
  map N_of_ascii (list_ascii_of_string s).

Definition LF : char := 10%N.
Definition BACKSLASH : char := 92%N.
Definition EQUALS : char := 61%N.
Definition COLON : char := 58%N.
Definition DOLLAR : char := 36%N.
Definition QUOTE : char := 39%N.
Definition DQUOTE : char := 34%N.

(** ECMAScript LineTerminator: LF, CR, LS, PS. *)
Definition isLineTerminator (c : char) : bool :=
  (c =? 10)%N || (c =? 13)%N || (c =? 8232)%N || (c =? 8233)%N.

(** What [\s] matches and what [trim] strips: WhiteSpace and
    LineTerminator code points (all in the basic plane). *)
Definition isWhiteSpace (c : char) : bool :=
  (c =? 9)%N || (c =? 11)%N || (c =? 12)%N || (c =? 32)%N || (c =? 160)%N
  || (c =? 5760)%N || ((8192 <=? c)%N && (c <=? 8202)%N)
  || (c =? 8239)%N || (c =? 8287)%N || (c =? 12288)%N || (c =? 65279)%N
  || isLineTerminator c.

Fixpoint str_eqb (a b : jsstring) : bool :=
  match a, b with
  | [], [] => true
  | x :: a', y :: b' => (x =? y)%N && str_eqb a' b'
  | _, _ => false
  end.

(** [String.prototype.trimStart], [trimEnd] and [trim]. *)
Fixpoint trimStart (s : jsstring) : jsstring :=
  match s with
  | c :: s' => if isWhiteSpace c then trimStart s' else s
  | [] => []
  end.

Definition trimEnd (s : jsstring) : jsstring := rev (trimStart (rev s)).

Definition trim (s : jsstring) : jsstring := trimEnd (trimStart s).

(** [s.split(sep)] for a one-character separator: the pieces between the
    occurrences of [sep]; never the empty array. *)
Fixpoint split (sep : char) (s : jsstring) : list jsstring :=
  match s with
  | [] => [[]]
  | c :: s' =>
      if (c =? sep)%N then [] :: split sep s'
      else match split sep s' with
           | p :: ps => (c :: p) :: ps
           | [] => [[c]]
           end
  end.

(** [parts.join(sep)]. *)
Fixpoint join (sep : jsstring) (parts : list jsstring) : jsstring :=
  match parts with
  | [] => []
  | [p] => p
  | p :: ps => p ++ sep ++ join sep ps
  end.

(** [s.indexOf(c)] for a one-character needle: the index of the first
    occurrence, or -1. *)
Fixpoint indexOf (c : char) (s : jsstring) : Z :=
  match s with
  | [] => (-1)%Z
  | x :: s' =>
      if (x =? c)%N then 0%Z
      else let i := indexOf c s' in
           if (i <? 0)%Z then (-1)%Z else (i + 1)%Z
  end.

(** [s.substring(a, b)]: both indices are clamped to [0, length], and
    swapped when [a > b]. *)
Definition substring (s : jsstring) (a b : Z) : jsstring :=
  let len := Z.of_nat (List.length s) in
  let a' := Z.min (Z.max a 0) len in
  let b' := Z.min (Z.max b 0) len in
  let from := Z.min a' b' in
  let to := Z.max a' b' in
  firstn (Z.to_nat (to - from)) (skipn (Z.to_nat from) s).

(** [s.replace(/\\n/g, '\n')]: every backslash followed by [n] becomes a
    line feed, left to right. *)
Fixpoint unescapeNewlines (s : jsstring) : jsstring :=
  match s with
  | c :: s' =>
      match s' with
      | d :: s'' =>
          if (c =? BACKSLASH)%N && (d =? 110)%N then LF :: unescapeNewlines s''
          else c :: unescapeNewlines s'
      | [] => [c]
      end
  | [] => []
  end.

End JS.
Import JS.

(* ===================================================================== *)
(** * Environment variables: [parseEnvVariables], [mergeEnvVariables] *)
(* ===================================================================== *)

(** [EnvVariables] of [api.ts]: an array of [{name, value}] objects. *)
Record EnvVariable := mkEnv { name : jsstring; value : jsstring }.

Definition EnvVariables := list EnvVariable.

(** The arrow function mapped over the lines in [parseEnvVariables]:
    [const [name, ...rest] = line.split('=')], then
    [rest.join('=').trim()] and [name.trim()]. *)
Definition parseLine (line : jsstring) : EnvVariable :=
  match split EQUALS line with
  | name :: rest =>
      let value := trim (join [EQUALS] rest) in
      {| name := trim name; value := value |}
  | [] => {| name := []; value := [] |}   (* split never returns [] *)
  end.

(** The [filter] predicate: [line.trim() !== '']. *)
Definition nonBlank (line : jsstring) : bool :=
  negb (str_eqb (trim line) []).

(** The lines [parseEnvVariables] maps over: the input with its escaped
    newlines expanded, trimmed, split at line feeds, blank lines dropped. *)
Definition envLines (envVariables : jsstring) : list jsstring :=
  let normalizedEnvVariables := trim (unescapeNewlines envVariables) in
  filter nonBlank (split LF normalizedEnvVariables).

Definition parseEnvVariables (envVariables : jsstring) : EnvVariables :=
  let normalizedEnvVariables := trim (unescapeNewlines envVariables) in
  map parseLine (filter nonBlank (split LF normalizedEnvVariables)).

(** A JavaScript [Map<string, string>]: its entries in insertion order.
    [set] on a present key overwrites the value where the key stands; on a
    new key it appends the entry. *)
Module JSMap.

Definition t := list (jsstring * jsstring).

Definition empty : t := [].

Fixpoint set (k v : jsstring) (m : t) : t :=
  match m with
  | [] => [(k, v)]
  | (k', v') :: m' =>
      if str_eqb k' k then (k', v) :: m' else (k', v') :: set k v m'
  end.

Fixpoint get (k : jsstring) (m : t) : option jsstring :=
  match m with
  | [] => None
  | (k', v') :: m' => if str_eqb k' k then Some v' else get k m'
  end.

Definition entries (m : t) : list (jsstring * jsstring) := m.

Definition keys (m : t) : list jsstring := map fst m.

End JSMap.

(** The two [for ... of] loops of [mergeEnvVariables]. *)
Definition setAll (vars : EnvVariables) (mergedMap : JSMap.t) : JSMap.t :=
  fold_left (fun m variable => JSMap.set (name variable) (value variable) m)
            vars mergedMap.

Definition mergeEnvVariables (original updates : EnvVariables) : EnvVariables :=
  let mergedMap := JSMap.empty in
  let mergedMap := setAll original mergedMap in
  let mergedMap := setAll updates mergedMap in
  map (fun '(name, value) => {| name := name; value := value |})
      (JSMap.entries mergedMap).

(** ** The merger and the parser as the specification words them *)

Definition mem (k : jsstring) (l : list jsstring) : bool :=
  existsb (str_eqb k) l.

(** The names of [l] not in [seen], each once, in the order of their first
    occurrence. *)
Fixpoint firstOccurrences (seen l : list jsstring) : list jsstring :=
  match l with
  | [] => []
  | k :: l' =>
      if mem k seen then firstOccurrences seen l'
      else k :: firstOccurrences (k :: seen) l'
  end.

(** The value of the last entry of [vars] named [k]. *)
Fixpoint lastValue (k : jsstring) (vars : EnvVariables) : option jsstring :=
  match vars with
  | [] => None
  | x :: vars' =>
      match lastValue k vars' with
      | Some v => Some v
      | None => if str_eqb (name x) k then Some (value x) else None
      end
  end.

(** The specification's merge: the names of [original] in the order of
    their first occurrence, then the names only in [updates] in the order
    of theirs; each with the value of its last occurrence in [updates] if
    it has one there, and of its last occurrence in [original] otherwise. *)
Definition mergedValue (original updates : EnvVariables) (k : jsstring) : jsstring :=
  match lastValue k updates with
  | Some v => v
  | None => match lastValue k original with Some v => v | None => [] end
  end.

Definition mergeSpec (original updates : EnvVariables) : EnvVariables :=
  let originalNames := firstOccurrences [] (map name original) in
  let addedNames := firstOccurrences (map name original) (map name updates) in
  map (fun k => {| name := k; value := mergedValue original updates k |})
      (originalNames ++ addedNames).

(** The specification's line parser: the text before the first [=] and
    the text after it, both trimmed; the whole line and the empty value
    when there is no [=]. *)
Definition parseLineSpec (line : jsstring) : EnvVariable :=
  let i := indexOf EQUALS line in
  if (i <? 0)%Z then {| name := trim line; value := [] |}
  else {| name := trim (firstn (Z.to_nat i) line);
          value := trim (skipn (Z.to_nat i + 1) line) |}.

(* ===================================================================== *)
(** * Regular expressions: the backtracking matcher of ECMAScript *)
(* ===================================================================== *)

(** The fragment of the pattern language the source uses, matched the way
    ECMA-262 defines it: a matcher takes a state and a continuation, and a
    greedy quantifier tries one more iteration before it tries the
    continuation. *)
Module RegExp.

Inductive re : Type :=
| Chr (p : char -> bool)       (* a literal, an escape or a class: one code unit *)
| Empty
| Seq (r1 r2 : re)
| Star (r : re)                (* r*  (greedy) *)
| Opt (r : re)                 (* r?  (greedy) *)
| Group (n : nat) (r : re)     (* the n-th capturing parenthesis, n >= 1 *)
| LineStart.                   (* ^ under the m flag *)

(** A match state: the end index, the captures, and (so that the matcher
    recurses on the text) the code unit before the end index and the text
    from it on. *)
Record State := mkState {
  endIndex : nat;
  prev : option char;
  rest : jsstring;
  captures : list (option jsstring)
}.

Definition Continuation := State -> option State.

Fixpoint setNth {A} (n : nat) (v : A) (l : list A) : list A :=
  match l, n with
  | [], _ => []
  | _ :: l', O => v :: l'
  | x :: l', S n' => x :: setNth n' v l'
  end.

(** Capture [n] is stored at index [n - 1]. *)
Definition setCapture (n : nat) (v : option jsstring) (x : State) : State :=
  mkState (endIndex x) (prev x) (rest x) (setNth (n - 1) v (captures x)).

Fixpoint groupsOf (r : re) : list nat :=
  match r with
  | Seq r1 r2 => groupsOf r1 ++ groupsOf r2
  | Star r | Opt r => groupsOf r
  | Group n r => n :: groupsOf r
  | _ => []
  end.

Definition resetCaptures (groups : list nat) (x : State) : State :=
  fold_left (fun y n => setCapture n None y) groups x.

(** RepeatMatcher with min = 0 and at most [max] iterations: the captures
    of the body are reset, the body is tried with a continuation that
    rejects an empty iteration and repeats; if that fails the continuation
    of the quantifier is tried on the state it was entered with. *)
Fixpoint repeatMatcher (m : State -> Continuation -> option State)
    (groups : list nat) (max : nat) (x : State) (c : Continuation) : option State :=
  match max with
  | O => c x
  | S max2 =>
      let d := fun y =>
        if (endIndex y =? endIndex x)%nat then None
        else repeatMatcher m groups max2 y c in
      match m (resetCaptures groups x) d with
      | Some z => Some z
      | None => c x
      end
  end.

Fixpoint matcher (r : re) (x : State) (c : Continuation) : option State :=
  match r with
  | Chr p =>
      match rest x with
      | ch :: s' =>
          if p ch then c (mkState (S (endIndex x)) (Some ch) s' (captures x))
          else None
      | [] => None
      end
  | Empty => c x
  | Seq r1 r2 => matcher r1 x (fun y => matcher r2 y c)
  | Star r1 =>
      (* no bound in the pattern; an iteration consumes at least one code
         unit, so the text left bounds the iterations *)
      repeatMatcher (matcher r1) (groupsOf r1) (List.length (rest x)) x c
  | Opt r1 => repeatMatcher (matcher r1) (groupsOf r1) 1 x c
  | Group n r1 =>
      matcher r1 x (fun y =>
        c (setCapture n (Some (firstn (endIndex y - endIndex x) (rest x))) y))
  | LineStart =>
      match prev x with
      | None => c x
      | Some ch => if isLineTerminator ch then c x else None
      end
  end.

(** What one successful [exec] reports. *)
Record MatchResult := mkMatch {
  index : nat;
  matched : jsstring;
  groups : list (option jsstring)
}.

(** The matcher run at one index: [before] is the code unit in front of
    it, [s] the text from it on; every capture starts undefined. *)
Definition matchAt (r : re) (nGroups : nat) (before : option char) (i : nat)
    (s : jsstring) : option MatchResult :=
  match matcher r (mkState i before s (repeat None nGroups)) Some with
  | Some y => Some (mkMatch i (firstn (endIndex y - i) s) (captures y))
  | None => None
  end.

(** The walk of a global, non-sticky [replace] over the text: at each
    index outside the previous match the matcher is tried; a match is
    recorded and the code units it covers are passed over ([skip] counts
    those still to pass), any other code unit is copied. An empty match is
    recorded and the walk moves one code unit on. *)
Inductive Piece :=
| Copy (c : char)
| Matched (m : MatchResult).

Fixpoint scan (r : re) (nGroups : nat) (before : option char) (skip i : nat)
    (s : jsstring) : list Piece :=
  match s with
  | [] =>
      match skip with
      | O => match matchAt r nGroups before i [] with
             | Some m => [Matched m]
             | None => []
             end
      | S _ => []
      end
  | c :: s' =>
      match skip with
      | S k => scan r nGroups (Some c) k (S i) s'
      | O =>
          match matchAt r nGroups before i s with
          | Some m =>
              match List.length (matched m) with
              | O => Matched m :: Copy c :: scan r nGroups (Some c) 0 (S i) s'
              | S k => Matched m :: scan r nGroups (Some c) k (S i) s'
              end
          | None => Copy c :: scan r nGroups (Some c) 0 (S i) s'
          end
      end
  end.

Definition isDigit (c : char) : bool := (48 <=? c)%N && (c <=? 57)%N.

Definition digitValue (c : char) : nat := N.to_nat (c - 48).

Definition captureText (caps : list (option jsstring)) (n : nat) : jsstring :=
  match nth_error caps (n - 1) with
  | Some (Some t) => t
  | _ => []                       (* an undefined capture is the empty string *)
  end.

(** GetSubstitution, without named captures: [$$], [$`], [$&], [$'], [$n]
    and [$nn]; a two-digit reference beyond the number of groups is a
    one-digit reference followed by a digit; a reference to no group, and
    a [$] before anything else, stand for themselves. *)
Fixpoint getSubstitution (matched : jsstring) (str : jsstring) (position : nat)
    (caps : list (option jsstring)) (template : jsstring) : jsstring :=
  let go := getSubstitution matched str position caps in
  let m := List.length caps in
  match template with
  | [] => []
  | c :: t1 =>
      if negb (c =? DOLLAR)%N then c :: go t1
      else
        match t1 with
        | [] => [c]
        | d :: t2 =>
            if (d =? DOLLAR)%N then DOLLAR :: go t2
            else if (d =? 96)%N then firstn position str ++ go t2
            else if (d =? 38)%N then matched ++ go t2
            else if (d =? 39)%N then skipn (position + List.length matched) str ++ go t2
            else if isDigit d then
              let one :=
                if (1 <=? digitValue d)%nat && (digitValue d <=? m)%nat
                then captureText caps (digitValue d) ++ go t2
                else c :: d :: go t2 in
              match t2 with
              | e :: t3 =>
                  if isDigit e then
                    let index2 := (10 * digitValue d + digitValue e)%nat in
                    if (m <? index2)%nat then one
                    else if (1 <=? index2)%nat
                         then captureText caps index2 ++ go t3
                         else c :: d :: e :: go t3
                  else one
              | [] => one
              end
            else c :: go t1
        end
  end.

(** [str.replace(regexp, template)] for a regular expression with the
    [g] flag. *)
Definition replace (r : re) (nGroups : nat) (str template : jsstring) : jsstring :=
  flat_map (fun piece =>
              match piece with
              | Copy c => [c]
              | Matched m => getSubstitution (matched m) str (index m) (groups m) template
              end)
           (scan r nGroups None 0 0 str).

(** The pattern of a literal text. *)
Definition literal (s : jsstring) : re :=
  fold_right (fun ch r => Seq (Chr (N.eqb ch)) r) Empty s.

End RegExp.
Import RegExp.

(* ===================================================================== *)
(** * [generateNewStackDefinition] *)
(* ===================================================================== *)

(** What the program throws: its own two errors, and whatever a
    collaborator (the file system, Handlebars, axios) throws. *)
Inductive Error :=
| CouldNotFindStackDefinition (stackDefFilePath : jsstring)
| StackDoesNotExist (stackName : jsstring)
| Thrown (what : jsstring).

Inductive Result (A : Type) :=
| Ok (a : A)
| Throw (e : Error).
Arguments Ok {A} a.
Arguments Throw {A} e.

(** [!s] is false exactly for a string that is present and not empty. *)
Definition truthy (s : option jsstring) : bool :=
  match s with
  | Some (_ :: _) => true
  | _ => false
  end.

(** The class [[.*+?^${}()|[\]\\]] of the escaping step. *)
Definition isRegExpSpecial (c : char) : bool :=
  existsb (N.eqb c) [46; 42; 43; 63; 94; 36; 123; 125; 40; 41; 124; 91; 93; 92]%N.

Definition isQuote (c : char) : bool := (c =? QUOTE)%N || (c =? DQUOTE)%N.

Definition IMAGE_COLON : jsstring := lit "image:".

(** The pattern text that the escaping step produces holds pattern
    characters and identity escapes only: a backslash makes the code unit
    after it literal, any other code unit is literal. *)
Fixpoint escapedAtoms (pattern : jsstring) : re :=
  match pattern with
  | [] => Empty
  | c :: t =>
      if (c =? BACKSLASH)%N then
        match t with
        | d :: t' => Seq (Chr (N.eqb d)) (escapedAtoms t')
        | [] => Seq (Chr (N.eqb c)) Empty
        end
      else Seq (Chr (N.eqb c)) (escapedAtoms t)
  end.

(** The [RegExp] built with the flags [gm] from the pattern text: at the
    start of a line, group 1 (white space, [image:], white space, an
    optional quote), the escaped repository, an optional group 2 (a colon
    and any run of code units that are not quotes), and group 3 (an
    optional quote). A quote is a single or a double quote. *)
Definition imageRegExp (imageWithoutTagEscaped : jsstring) : re :=
  Seq LineStart
 (Seq (Group 1 (Seq (Star (Chr isWhiteSpace))
               (Seq (literal IMAGE_COLON)
               (Seq (Star (Chr isWhiteSpace))
                    (Opt (Chr isQuote))))))
 (Seq (escapedAtoms imageWithoutTagEscaped)
 (Seq (Opt (Group 2 (Seq (Chr (N.eqb COLON))
                         (Star (Chr (fun c => negb (isQuote c)))))))
      (Group 3 (Opt (Chr isQuote)))))).

(** [image.substring(0, image.indexOf(':'))] *)
Definition imageWithoutTag (image : jsstring) : jsstring :=
  substring image 0 (indexOf COLON image).

(** [imageWithoutTag.replace(/[.*+?^${}()|[\]\\]/g, '\\$&')] *)
Definition escapeRegExp (s : jsstring) : jsstring :=
  replace (Chr isRegExpSpecial) 0 s [BACKSLASH; DOLLAR; 38%N].

(** Lines 89-93 of [deployStack.ts]: the image rewrite proper. *)
Definition insertImage (image stackDefinition : jsstring) : jsstring :=
  let imageWithoutTag := imageWithoutTag image in
  let imageWithoutTagEscaped := escapeRegExp imageWithoutTag in
  let regex := imageRegExp imageWithoutTagEscaped in
  replace regex 3 stackDefinition ([DOLLAR; 49%N] ++ image ++ [DOLLAR; 51%N]).

Section GenerateNewStackDefinition.

(** The collaborators: [path.join] on the workspace directory (it throws
    when the environment names none), [fs.readFileSync], and
    [Handlebars.compile(text)(variables)]. *)
Variable TemplateVariables : Type.
Variable workspacePath : jsstring -> Result jsstring.
Variable readFileSync : jsstring -> Result jsstring.
Variable handlebars : jsstring -> TemplateVariables -> Result jsstring.

Definition generateNewStackDefinition
    (stackDefinitionFile : option jsstring)
    (templateVariables : option TemplateVariables)
    (image : option jsstring) : Result (option jsstring) :=
  if negb (truthy stackDefinitionFile) then Ok None
  else
    match workspacePath
            (match stackDefinitionFile with Some f => f | None => [] end) with
    | Throw e => Throw e
    | Ok stackDefFilePath =>
        match readFileSync stackDefFilePath with
        | Throw e => Throw e
        | Ok stackDefinition =>
            if negb (truthy (Some stackDefinition))
            then Throw (CouldNotFindStackDefinition stackDefFilePath)
            else
              let rendered :=
                match templateVariables with
                | Some vars => handlebars stackDefinition vars
                | None => Ok stackDefinition
                end in
              match rendered with
              | Throw e => Throw e
              | Ok stackDefinition =>
                  if negb (truthy image) then Ok (Some stackDefinition)
                  else
                    match image with
                    | Some image => Ok (Some (insertImage image stackDefinition))
                    | None => Ok (Some stackDefinition)
                    end
              end
        end
    end.

End GenerateNewStackDefinition.
Arguments generateNewStackDefinition {TemplateVariables}.

(* ===================================================================== *)
(** * The remote API client ([api.ts]) *)
(* ===================================================================== *)

Inductive StackType := SWARM | COMPOSE.

(** [StackType.SWARM = 1], [StackType.COMPOSE = 2]. *)
Definition stackTypeNumber (t : StackType) : Z :=
  match t with SWARM => 1 | COMPOSE => 2 end.

(** [StackData]. The declared type gives every stack an [Env]; the
    reconciler guards against a response without one, hence the option. *)
Record StackData := mkStack {
  Id : Z;
  Name : jsstring;
  EndpointId : Z;
  Env : option EnvVariables
}.

Record CreateStackParams := mkCreateParams {
  create_type : StackType;
  create_method : jsstring;
  create_endpointId : Z
}.

Record CreateStackBody := mkCreateBody {
  create_name : jsstring;
  create_stackFileContent : jsstring;
  create_swarmID : option jsstring;
  create_Env : option EnvVariables
}.

Record UpdateStackParams := mkUpdateParams { update_endpointId : Z }.

Record UpdateStackBody := mkUpdateBody {
  update_env : option EnvVariables;
  update_stackFileContent : option jsstring;
  update_prune : bool;
  update_pullImage : bool
}.

(** The methods of [PortainerApi], as invoked. *)
Inductive Call :=
| Login (username password : jsstring)
| Logout
| GetStacks
| CreateStack (params : CreateStackParams) (body : CreateStackBody)
| UpdateStack (id : Z) (params : UpdateStackParams) (body : UpdateStackBody).

(** The remote system: what it answers to each request. *)
Record Remote := mkRemote {
  auth : jsstring -> jsstring -> Result jsstring;          (* POST /auth: the jwt *)
  stacks : Result (list StackData);                         (* GET /stacks *)
  create : CreateStackParams -> CreateStackBody -> Result unit;
  update : Z -> UpdateStackParams -> UpdateStackBody -> Result unit
}.

(** The state of one [PortainerApi] object: the [Authorization] default
    header of its axios instance, and the method calls made so far, the
    latest last. *)
Record Client := mkClient {
  authorization : option jsstring;
  calls : list Call
}.

(** Asynchronous code that may throw and that changes the client: the
    awaits of a run are sequential, so a computation is a function of the
    client state. *)
Definition Async (A : Type) : Type := Client -> Result A * Client.

Definition ret {A} (a : A) : Async A := fun s => (Ok a, s).

Definition throw {A} (e : Error) : Async A := fun s => (Throw e, s).

Definition bind {A B} (m : Async A) (k : A -> Async B) : Async B :=
  fun s =>
    match m s with
    | (Ok a, s') => k a s'
    | (Throw e, s') => (Throw e, s')
    end.

Notation "x <- m ;; k" := (bind m (fun x => k))
  (at level 61, m at next level, right associativity).
Notation "m ;;; k" := (bind m (fun _ => k))
  (at level 61, right associativity).

(** [try { body } catch (error) { throw error } finally { cleanup }]: the
    cleanup runs after the body whether it threw or not; the outcome is
    the body's unless the cleanup throws. *)
Definition tryFinally {A} (body : Async A) (cleanup : Async unit) : Async A :=
  fun s =>
    match body s with
    | (r, s') =>
        match cleanup s' with
        | (Ok _, s'') => (r, s'')
        | (Throw e, s'') => (Throw e, s'')
        end
    end.

Definition record (c : Call) : Async unit :=
  fun s => (Ok tt, mkClient (authorization s) (calls s ++ [c])).

Definition setAuthorization (v : jsstring) : Async unit :=
  fun s => (Ok tt, mkClient (Some v) (calls s)).

Definition lift {A} (r : Result A) : Async A := fun s => (r, s).

Module PortainerApi.
Section Methods.
Variable remote : Remote.

Definition login (username password : jsstring) : Async unit :=
  record (Login username password) ;;;
  jwt <- lift (auth remote username password) ;;
  setAuthorization (lit "Bearer " ++ jwt).

(** The request to [/auth/logout] is commented out in the source: only
    the header is cleared. *)
Definition logout : Async unit :=
  record Logout ;;;
  setAuthorization [].

Definition getStacks : Async (list StackData) :=
  record GetStacks ;;;
  lift (stacks remote).

Definition createStack (params : CreateStackParams) (body : CreateStackBody) : Async unit :=
  record (CreateStack params body) ;;;
  lift (create remote params body).

Definition updateStack (id : Z) (params : UpdateStackParams) (body : UpdateStackBody)
  : Async unit :=
  record (UpdateStack id params body) ;;;
  lift (update remote id params body).

End Methods.
End PortainerApi.

(* ===================================================================== *)
(** * The reconciler: [deployStack] *)
(* ===================================================================== *)

Section DeployStack.

Variable TemplateVariables : Type.
Variable workspacePath : jsstring -> Result jsstring.
Variable readFileSync : jsstring -> Result jsstring.
Variable handlebars : jsstring -> TemplateVariables -> Result jsstring.
Variable remote : Remote.

(** The argument object of [deployStack] ([portainerHost] only selects
    the remote). *)
Record DeployStack := mkDeployStack {
  username : jsstring;
  password : jsstring;
  swarmId : option jsstring;
  endpointId : Z;
  stackName : jsstring;
  stackDefinitionFile : option jsstring;
  templateVariables : option TemplateVariables;
  envVariables : option EnvVariables;
  image : option jsstring;
  pruneStack : option bool;
  pullImage : option bool
}.

(** The predicate of [allStacks.find]. *)
Definition isTarget (stackName : jsstring) (endpointId : Z) (s : StackData) : bool :=
  str_eqb (Name s) stackName && (EndpointId s =? endpointId)%Z.

(** The update branch: the environment of the stack found, merged with
    the supplied variables if there are any, and the update call. *)
Definition updateExisting (args : DeployStack) (stackDefinitionToDeploy : option jsstring)
    (existingStack : StackData) : Async unit :=
  let Env' :=
    match envVariables args with
    | Some envVariables =>
        let old := match Env existingStack with Some e => e | None => [] end in
        Some (mergeEnvVariables old envVariables)
    | None => Env existingStack
    end in
  PortainerApi.updateStack remote (Id existingStack)
    (mkUpdateParams (EndpointId existingStack))
    (mkUpdateBody Env' stackDefinitionToDeploy
       (match pruneStack args with Some b => b | None => false end)
       (match pullImage args with Some b => b | None => false end)).

(** The create branch: no document, no stack. *)
Definition createNew (args : DeployStack) (stackDefinitionToDeploy : option jsstring)
  : Async unit :=
  if negb (truthy stackDefinitionToDeploy)
  then throw (StackDoesNotExist (stackName args))
  else
    PortainerApi.createStack remote
      (mkCreateParams (if truthy (swarmId args) then SWARM else COMPOSE)
                      (lit "string") (endpointId args))
      (mkCreateBody (stackName args)
                    (match stackDefinitionToDeploy with Some text => text | None => [] end)
                    (if truthy (swarmId args) then swarmId args else None)
                    (envVariables args)).

(** The body of the [try] block. *)
Definition reconcile (args : DeployStack) (stackDefinitionToDeploy : option jsstring)
  : Async unit :=
  allStacks <- PortainerApi.getStacks remote ;;
  match find (isTarget (stackName args) (endpointId args)) allStacks with
  | Some existingStack => updateExisting args stackDefinitionToDeploy existingStack
  | None => createNew args stackDefinitionToDeploy
  end.

Definition deployStack (args : DeployStack) : Async unit :=
  stackDefinitionToDeploy <-
    lift (generateNewStackDefinition workspacePath readFileSync handlebars
            (stackDefinitionFile args) (templateVariables args) (image args)) ;;
  PortainerApi.login remote (username args) (password args) ;;;
  tryFinally (reconcile args stackDefinitionToDeploy) (PortainerApi.logout).

(** A fresh [PortainerApi] object. *)
Definition newClient : Client := mkClient None [].

End DeployStack.

Arguments mkDeployStack {TemplateVariables}.
Arguments username {TemplateVariables}.
Arguments password {TemplateVariables}.
Arguments swarmId {TemplateVariables}.
Arguments endpointId {TemplateVariables}.
Arguments stackName {TemplateVariables}.
Arguments stackDefinitionFile {TemplateVariables}.
Arguments templateVariables {TemplateVariables}.
Arguments envVariables {TemplateVariables}.
Arguments image {TemplateVariables}.
Arguments pruneStack {TemplateVariables}.
Arguments pullImage {TemplateVariables}.
Arguments deployStack {TemplateVariables}.
Arguments reconcile {TemplateVariables}.
Arguments updateExisting {TemplateVariables}.
Arguments createNew {TemplateVariables}.

(* ===================================================================== *)
(** * The entry point: [run] *)
(* ===================================================================== *)

(** A JavaScript number that is an integer or [NaN]. [parseInt] yields
    nothing else but, for a digit string of a value beyond 2^53 (up to
    which a double holds every integer exactly), the nearest double or an
    infinity; those are not represented, and like the exact value they
    are neither zero nor [NaN]. *)
Inductive Number :=
| NaN
| Int (z : Z).

(** The value of a code unit as a digit: [0-9], [a-z], [A-Z]. *)
Definition digitOf (c : char) : option Z :=
  if (48 <=? c)%N && (c <=? 57)%N then Some (Z.of_N c - 48)%Z
  else if (97 <=? c)%N && (c <=? 122)%N then Some (Z.of_N c - 87)%Z
  else if (65 <=? c)%N && (c <=? 90)%N then Some (Z.of_N c - 55)%Z
  else None.

(** The value of the longest prefix of [s] made of digits of radix [R],
    read after the digits of value [acc]; [None] when [s] starts with no
    digit and [seen] is false. *)
Fixpoint readDigits (R : Z) (seen : bool) (acc : Z) (s : jsstring) : option Z :=
  match s with
  | c :: s' =>
      match digitOf c with
      | Some d =>
          if (d <? R)%Z then readDigits R true (acc * R + d)%Z s'
          else if seen then Some acc else None
      | None => if seen then Some acc else None
      end
  | [] => if seen then Some acc else None
  end.

(** [parseInt(string)], no radix given: leading white space is skipped,
    a sign is read, [0x] or [0X] selects radix 16, the digits are read up
    to the first code unit that is not one; without a digit the result is
    [NaN]. *)
Definition parseInt (string : jsstring) : Number :=
  let trimmed := trimStart string in
  let '(sign, unsigned) :=
    match trimmed with
    | c :: t =>
        if (c =? 45)%N then ((-1)%Z, t)
        else if (c =? 43)%N then (1%Z, t)
        else (1%Z, trimmed)
    | [] => (1%Z, trimmed)
    end in
  let '(R, digits) :=
    match unsigned with
    | c :: d :: t =>
        if (c =? 48)%N && ((d =? 120)%N || (d =? 88)%N) then (16%Z, t)
        else (10%Z, unsigned)
    | _ => (10%Z, unsigned)
    end in
  match readDigits R false 0 digits with
  | Some mathInt => Int (sign * mathInt)
  | None => NaN
  end.

(** [n || 1]: zero and [NaN] are falsy. *)
Definition orOne (n : Number) : Z :=
  match n with
  | NaN => 1%Z
  | Int z => if (z =? 0)%Z then 1%Z else z
  end.

Section Run.

(** [JSON.parse]: it throws on a malformed text; [None] stands for the
    values that are falsy ([null], [false], [0], the empty string), which
    [generateNewStackDefinition] treats like absent variables. *)
Variable TemplateVariables : Type.
Variable jsonParse : jsstring -> Result (option TemplateVariables).

(** What [core.getInput] and [core.getBooleanInput] returned; an input
    that is not set reads as the empty string. *)
Record Inputs := mkInputs {
  input_username : jsstring;
  input_password : jsstring;
  input_swarmId : jsstring;
  input_endpointId : jsstring;
  input_stackName : jsstring;
  input_stackDefinitionFile : jsstring;
  input_templateVariables : jsstring;
  input_envVariables : jsstring;
  input_image : jsstring;
  input_pruneStack : bool;
  input_pullImage : bool
}.

(** The object literal passed to [deployStack]; [JSON.parse] may throw. *)
Definition deployStackArguments (i : Inputs) : Result (DeployStack TemplateVariables) :=
  let endpointId := orOne (parseInt (input_endpointId i)) in
  let parsed :=
    if truthy (Some (input_templateVariables i))
    then jsonParse (input_templateVariables i)
    else Ok None in
  match parsed with
  | Throw e => Throw e
  | Ok templateVariables =>
      Ok (mkDeployStack
            (input_username i) (input_password i)
            (Some (input_swarmId i))
            endpointId
            (input_stackName i)
            (Some (input_stackDefinitionFile i))
            templateVariables
            (if truthy (Some (input_envVariables i))
             then Some (parseEnvVariables (input_envVariables i)) else None)
            (Some (input_image i))
            (Some (input_pruneStack i || false))
            (Some (input_pullImage i || false)))
  end.

End Run.
Arguments deployStackArguments {TemplateVariables}.

(* ===================================================================== *)
(** * Vocabulary of the statements *)
(* ===================================================================== *)

Definition isLogout (c : Call) : bool :=
  match c with Logout => true | _ => false end.

Definition isCreate (c : Call) : bool :=
  match c with CreateStack _ _ => true | _ => false end.

(** The client once [login] has succeeded with token [jwt]. *)
Definition loggedIn {TemplateVariables} (args : DeployStack TemplateVariables)
    (jwt : jsstring) : Client :=
  mkClient (Some (lit "Bearer " ++ jwt)) [Login (username args) (password args)].

(** A remote with three stacks, two of them named [web] on endpoint 1,
    and two argument objects, for the worked instances. *)
Definition exampleRemote : Remote :=
  mkRemote
    (fun _ _ => Ok (lit "token"))
    (Ok [mkStack 7 (lit "web") 2 None;
         mkStack 8 (lit "web") 1 (Some [mkEnv (lit "A") (lit "1")]);
         mkStack 9 (lit "web") 1 None])
    (fun _ _ => Ok tt)
    (fun _ _ _ => Ok tt).

Definition exampleUpdate : DeployStack unit :=
  mkDeployStack (lit "ci") (lit "secret") None 1 (lit "web") None None
                (Some [mkEnv (lit "B") (lit "2")]) None None None.

Definition exampleCreate : DeployStack unit :=
  mkDeployStack (lit "ci") (lit "secret") None 1 (lit "db") None None
                None None None None.

Definition noFile (path : jsstring) : Result jsstring := Throw (Thrown (lit "ENOENT")).

Definition noTemplate (text : jsstring) (vars : unit) : Result jsstring := Ok text.

Definition oneFile (path : jsstring) : Result jsstring := Ok (lit "image: app:1").

Definition noJson (text : jsstring) : Result (option unit) := Ok (Some tt).

Definition inWorkspace (file : jsstring) : Result jsstring :=
  Ok (lit "/github/workspace/" ++ file).

Definition exampleInputs (endpointId : jsstring) : Inputs :=
  mkInputs (lit "ci") (lit "secret") [] endpointId (lit "web") [] [] [] [] false false.

(** The digit string of a list of decimal digits. *)
Definition digitChars (ds : list Z) : jsstring :=
  map (fun d => Z.to_N (d + 48)) ds.

(** The integer a list of decimal digits denotes, read after [acc]. *)
Definition digitsValue (acc : Z) (ds : list Z) : Z :=
  fold_left (fun a d => (a * 10 + d)%Z) ds acc.

(* ===================================================================== *)
(** * The image rewrite, read off the pattern *)
(* ===================================================================== *)

(** What the image pattern does on a text, written as plain list
    functions; the theorems connect them to the matcher. *)

Definition lineStart (before : option char) : bool :=
  match before with
  | None => true
  | Some ch => isLineTerminator ch
  end.

(** The code unit in front of the position reached after reading [t]. *)
Definition lastChar (t : jsstring) (before : option char) : option char :=
  fold_left (fun _ ch => Some ch) t before.

Fixpoint stripPrefix (t s : jsstring) : option jsstring :=
  match t, s with
  | [], _ => Some s
  | a :: t', b :: s' => if (a =? b)%N then stripPrefix t' s' else None
  | _ :: _, [] => None
  end.

(** The longest prefix of code units that satisfy [p], and the rest. *)
Fixpoint span (p : char -> bool) (s : jsstring) : jsstring * jsstring :=
  match s with
  | ch :: s' =>
      if p ch then let (w, r) := span p s' in (ch :: w, r)
      else ([], s)
  | [] => ([], [])
  end.

(** A quote at the head of the text, if there is one. *)
Definition optQuote (s : jsstring) : jsstring * jsstring :=
  match s with
  | ch :: s' => if isQuote ch then ([ch], s') else ([], s)
  | [] => ([], [])
  end.

(** Group 1 and the repository: white space, [image:], white space, an
    optional quote, then [R]. Gives the text of group 1 and what follows
    the repository. *)
Definition headMatch (R s : jsstring) : option (jsstring * jsstring) :=
  let (w1, s1) := span isWhiteSpace s in
  match stripPrefix IMAGE_COLON s1 with
  | None => None
  | Some s2 =>
      let (w2, s3) := span isWhiteSpace s2 in
      let (q, s4) := optQuote s3 in
      match stripPrefix R s4 with
      | Some s5 => Some (w1 ++ IMAGE_COLON ++ w2 ++ q, s5)
      | None => None
      end
  end.

(** Groups 2 and 3: a colon with the run of non-quotes after it, if there
    is a colon, then a quote, if there is one. *)
Definition tagMatch (s : jsstring) : option jsstring * jsstring :=
  match s with
  | ch :: s' =>
      if (COLON =? ch)%N
      then let (t, r) := span (fun c => negb (isQuote c)) s' in (Some (ch :: t), r)
      else (None, s)
  | [] => (None, [])
  end.

Definition optText (g : option jsstring) : jsstring :=
  match g with Some t => t | None => [] end.

(** One match of the image pattern at the head of [s]: the three groups
    and the text after the match. *)
Definition tryMatch (R s : jsstring)
  : option (jsstring * option jsstring * jsstring * jsstring) :=
  match headMatch R s with
  | Some (P, s5) =>
      let (G, s6) := tagMatch s5 in
      let (Q, s7) := optQuote s6 in
      Some (P, G, Q, s7)
  | None => None
  end.

(** The greedy star of a one-character class, with its backtracking. *)
Fixpoint starChr (p : char -> bool) (c : Continuation) (i : nat)
    (b : option char) (s : jsstring) (caps : list (option jsstring)) : option State :=
  match s with
  | ch :: s' =>
      if p ch then
        match starChr p c (S i) (Some ch) s' caps with
        | Some z => Some z
        | None => c (mkState i b s caps)
        end
      else c (mkState i b s caps)
  | [] => c (mkState i b [] caps)
  end.

(** What the escaping step does to one code unit. *)
Definition escapeChar (c : char) : jsstring :=
  if isRegExpSpecial c then [BACKSLASH; c] else [c].

(** A repository the pattern reads without backtracking: not empty, and
    its first code unit neither white space nor a quote. *)
Definition goodRepo (R : jsstring) : bool :=
  match R with
  | r0 :: _ => negb (isWhiteSpace r0) && negb (isQuote r0)
  | [] => false
  end.

(** The pattern after the repository: groups 2 and 3. *)
Definition tagAndQuote : re :=
  Seq (Opt (Group 2 (Seq (Chr (N.eqb COLON))
                         (Star (Chr (fun c => negb (isQuote c)))))))
      (Group 3 (Opt (Chr isQuote))).

(** The rewrite of lines 89-93 as a walk over the text: [skip] code units
    of the previous match are still to pass; elsewhere, at a line start
    where the pattern matches, groups 1 and 3 are kept and the image is
    put between them; any other code unit is copied. *)
Fixpoint rewriteFrom (image R : jsstring) (b : option char) (skip : nat)
    (s : jsstring) : jsstring :=
  match s with
  | [] => []
  | c :: s' =>
      match skip with
      | S k => rewriteFrom image R (Some c) k s'
      | O =>
          match (if lineStart b then tryMatch R s else None) with
          | Some (P, G, Q, _) =>
              P ++ image ++ Q
              ++ rewriteFrom image R (Some c)
                   (List.length (P ++ R ++ optText G ++ Q) - 1) s'
          | None => c :: rewriteFrom image R (Some c) 0 s'
          end
      end
  end.

Definition isNil (s : jsstring) : bool :=
  match s with [] => true | _ :: _ => false end.

(** Every match of the walk is closed: it ends with a quote (group 3 is
    not empty) or with the text. *)
Fixpoint closedFrom (R : jsstring) (b : option char) (skip : nat)
    (s : jsstring) : bool :=
  match s with
  | [] => true
  | c :: s' =>
      match skip with
      | S k => closedFrom R (Some c) k s'
      | O =>
          match (if lineStart b then tryMatch R s else None) with
          | Some (P, G, Q, s7) =>
              (negb (isNil Q) || isNil s7)
              && closedFrom R (Some c) (List.length (P ++ R ++ optText G ++ Q) - 1) s'
          | None => closedFrom R (Some c) 0 s'
          end
      end
  end.

(** The matches [replace] finds for the image pattern in a document. *)
Definition matchesOf (pieces : list Piece) : list MatchResult :=
  flat_map (fun piece => match piece with Matched m => [m] | Copy _ => [] end) pieces.

Definition imageMatches (image stackDefinition : jsstring) : list MatchResult :=
  matchesOf (scan (imageRegExp (escapeRegExp (imageWithoutTag image))) 3
                  None 0 0 stackDefinition).

(** A match is closed when its group 3 holds a quote or when it ends
    where the document ends. *)
Definition closedMatch (documentLength : nat) (m : MatchResult) : bool :=
  negb (isNil (captureText (groups m) 3))
  || (index m + List.length (matched m) =? documentLength)%nat.

(** An image reference of the form repository:tag that the pattern and
    the template read literally: a colon after a repository that is not
    empty, a first code unit that is neither white space nor a quote, no
    quote after the first colon, and no dollar sign. *)
Definition taggedImage (image : jsstring) : bool :=
  (0 <? indexOf COLON image)%Z
  && goodRepo image
  && forallb (fun c => negb (isQuote c))
             (skipn (Z.to_nat (indexOf COLON image)) image)
  && forallb (fun c => negb (c =? DOLLAR)%N) image.

(** The head of the pattern as a test: white space, [image:], white
    space, an optional quote, the repository. *)
Definition isSome {A} (o : option A) : bool :=
  match o with Some _ => true | None => false end.

Definition afterImageColon (R s : jsstring) : bool :=
  isSome (stripPrefix R (snd (optQuote (snd (span isWhiteSpace s))))).

Definition stripThen (R L s : jsstring) : bool :=
  match stripPrefix L s with
  | Some s2 => afterImageColon R s2
  | None => false
  end.

Definition headOK (R s : jsstring) : bool :=
  stripThen R IMAGE_COLON (snd (span isWhiteSpace s)).

(** A stack definition with three services, two of them on the image
    [app]. *)
Definition exampleDocument : jsstring :=
  lit "services:
  web:
    image: 'app:1'
    ports: x
  db:
    image: 'postgres:15'
  worker:
    image: app:1".

(* ===================================================================== *)
(** * Vocabulary of the further properties *)
(* ===================================================================== *)

(** The text of a list of variables in the format of the [env-variables]
    input: one [NAME=VALUE] per line. *)
Definition formatEnvVariables (vars : EnvVariables) : jsstring :=
  join [LF] (map (fun x => name x ++ EQUALS :: value x) vars).

(** A text that the parser gives back as it is: no white space at either
    end, no line feed and no backslash. *)
Definition cleanText (t : jsstring) : bool :=
  str_eqb (trim t) t
  && forallb (fun c => negb (c =? LF)%N && negb (c =? BACKSLASH)%N) t.

Definition cleanVariable (x : EnvVariable) : bool :=
  cleanText (name x) && cleanText (value x)
  && forallb (fun c => negb (c =? EQUALS)%N) (name x).

(** One line of the format. *)
Definition formatLine (x : EnvVariable) : jsstring := name x ++ EQUALS :: value x.

(** A text that does not start with white space. *)
Definition headNotWs (s : jsstring) : Prop :=
  match s with c :: _ => isWhiteSpace c = false | [] => True end.

(** An opening quote that may be absent. *)
Definition optionalQuote (q : jsstring) : bool :=
  match q with
  | [] => true
  | [c] => isQuote c
  | _ => false
  end.

(** The tag a declaration carries, if it carries one: a colon and a
    text. *)
Definition oldTag (tag : option jsstring) : jsstring :=
  match tag with
  | Some old => COLON :: old
  | None => []
  end.

Definition quoteFree (s : jsstring) : bool :=
  forallb (fun c => negb (isQuote c)) s.

(** An image reference of the form repository:tag made of plain
    characters only: a colon after a repository that is not empty, and no
    white space, quote or dollar sign anywhere. *)
Definition plainChar (c : char) : bool :=
  negb (isWhiteSpace c) && negb (isQuote c) && negb (c =? DOLLAR)%N.

Definition plainImage (image : jsstring) : bool :=
  forallb plainChar image && (0 <? indexOf COLON image)%Z.

(** After the first quote of a text, every match of the walk is closed. *)
Definition closedAfterQuote (R o : jsstring) : bool :=
  match snd (span (fun c => negb (isQuote c)) o) with
  | q1 :: rest1 => closedFrom R (Some q1) 0 rest1
  | [] => true
  end.

(** The calls that change the remote. *)
Definition isMutating (c : Call) : bool :=
  match c with
  | CreateStack _ _ | UpdateStack _ _ _ => true
  | _ => false
  end.

(** The path [createStack] posts to: [body?.swarmID] selects it. *)
Definition createStackPath (body : CreateStackBody) : jsstring :=
  if truthy (create_swarmID body)
  then lit "/stacks/create/swarm/string"
  else lit "/stacks/create/standalone/string".

(** What [run] reports to the pipeline: [core.info] of the success, or
    [core.setFailed] with a message made from the error. *)
Inductive Outcome :=
| Done
| Failed (e : Error).

Section RunAction.

Variable TemplateVariables : Type.
Variable jsonParse : jsstring -> Result (option TemplateVariables).
Variable workspacePath : jsstring -> Result jsstring.
Variable readFileSync : jsstring -> Result jsstring.
Variable handlebars : jsstring -> TemplateVariables -> Result jsstring.
Variable remote : Remote.

(** [core.getInput(name, {required})] and [core.getBooleanInput(name)]:
    both may throw (a required input that is missing, a text that is not
    a boolean). *)
Variable getInput : jsstring -> bool -> Result jsstring.
Variable getBooleanInput : jsstring -> Result bool.

Definition andThen {A B} (r : Result A) (k : A -> Result B) : Result B :=
  match r with
  | Ok a => k a
  | Throw e => Throw e
  end.

(** The twelve reads at the head of [run], in their order. *)
Definition readInputs : Result Inputs :=
  andThen (getInput (lit "portainer-host") true) (fun portainerHost =>
  andThen (getInput (lit "username") true) (fun username =>
  andThen (getInput (lit "password") true) (fun password =>
  andThen (getInput (lit "swarm-id") false) (fun swarmId =>
  andThen (getInput (lit "endpoint-id") false) (fun endpointId =>
  andThen (getInput (lit "stack-name") true) (fun stackName =>
  andThen (getInput (lit "stack-definition") false) (fun stackDefinitionFile =>
  andThen (getInput (lit "template-variables") false) (fun templateVariables =>
  andThen (getInput (lit "env-variables") false) (fun envVariables =>
  andThen (getInput (lit "image") false) (fun image =>
  andThen (getBooleanInput (lit "prune-stack")) (fun pruneStack =>
  andThen (getBooleanInput (lit "pull-image")) (fun pullImage =>
  Ok (mkInputs username password swarmId endpointId stackName
               stackDefinitionFile templateVariables envVariables image
               pruneStack pullImage))))))))))))).

(** [run]: everything that is thrown is caught and reported. *)
Definition run : Outcome * Client :=
  match andThen readInputs (deployStackArguments jsonParse) with
  | Throw e => (Failed e, newClient)
  | Ok args =>
      match deployStack workspacePath readFileSync handlebars remote args newClient with
      | (Ok _, client) => (Done, client)
      | (Throw e, client) => (Failed e, client)
      end
  end.

End RunAction.
Arguments run {TemplateVariables}.

(** A remote that refuses the login, and inputs read from a table. *)
Definition refusingRemote : Remote :=
  mkRemote (fun _ _ => Throw (Thrown (lit "401")))
           (Ok []) (fun _ _ => Ok tt) (fun _ _ _ => Ok tt).

Definition failingRemote : Remote :=
  mkRemote (fun _ _ => Ok (lit "token"))
           (Throw (Thrown (lit "500"))) (fun _ _ => Ok tt) (fun _ _ _ => Ok tt).

Definition exampleNew : DeployStack unit :=
  mkDeployStack (lit "ci") (lit "secret") (Some (lit "swarm1")) 1 (lit "db")
                (Some (lit "stack.yml")) None None None None None.

Definition emptyFile (path : jsstring) : Result jsstring := Ok [].

Definition exampleGetInput (name : jsstring) (required : bool) : Result jsstring :=
  if str_eqb name (lit "portainer-host") then Ok (lit "https://portainer")
  else if str_eqb name (lit "username") then Ok (lit "ci")
  else if str_eqb name (lit "password") then Ok (lit "secret")
  else if str_eqb name (lit "stack-name") then Ok (lit "web")
  else if str_eqb name (lit "endpoint-id") then Ok (lit "2")
  else Ok [].

Definition exampleGetBooleanInput (name : jsstring) : Result bool := Ok false.

Definition badJson (text : jsstring) : Result (option unit) :=
  Throw (Thrown (lit "SyntaxError")).

Definition templatedGetInput (name : jsstring) (required : bool) : Result jsstring :=
  if str_eqb name (lit "template-variables") then Ok (lit "{")
  else exampleGetInput name required.

(** A text at which a run of decimal digits ends: the empty text, or one
    whose first code unit is not a decimal digit. *)
Definition stopsDecimal (t : jsstring) : bool :=
  match t with
  | [] => true
  | c :: _ => negb ((48 <=? c)%N && (c <=? 57)%N)
  end.

(** ** The input of [parseEnvVariables] as lines *)

(** What ends a line of the [env-variables] input: a line feed, or the
    two characters backslash and [n]. *)
Inductive LineBreak :=
| LineFeed
| EscapedLineFeed.

Definition lineBreak (b : LineBreak) : jsstring :=
  match b with
  | LineFeed => [LF]
  | EscapedLineFeed => [BACKSLASH; 110%N]
  end.

(** The text made of a first line and of further lines, each after the
    line break that is given with it. *)
Fixpoint joinLines (first : jsstring) (rest : list (LineBreak * jsstring)) : jsstring :=
  match rest with
  | [] => first
  | (b, line) :: rest' => first ++ lineBreak b ++ joinLines line rest'
  end.

(** A line proper: no line feed in it, and no backslash with an [n]
    after it. *)
Fixpoint noLineBreak (line : jsstring) : bool :=
  match line with
  | [] => true
  | c :: t =>
      negb (c =? LF)%N
      && negb ((c =? BACKSLASH)%N
               && match t with d :: _ => (d =? 110)%N | [] => false end)
      && noLineBreak t
  end.

(** A line of white space only, the empty line among them. *)
Definition blank (line : jsstring) : bool := forallb isWhiteSpace line.

(** A text after which a line starts: the empty text, or one that a line
    feed ends. *)
Definition endsLine (before : jsstring) : bool :=
  match rev before with
  | [] => true
  | c :: _ => (c =? LF)%N
  end.

(** The largest integer up to which every integer is a double. *)
Definition MAX_EXACT : Z := 9007199254740992%Z.


(* ===================================================================== *)
(** * The pattern text, as the [RegExp] constructor reads it *)
(* ===================================================================== *)

(** [new RegExp(source, 'gm')] on the part of the pattern language that
    the program's pattern text is written in: pattern characters, the dot,
    the assertion [^], identity escapes of syntax characters and of the
    slash, the class escape [\s], classes of plain characters with or
    without negation, capturing groups, and the greedy quantifiers [*]
    and [?]; outside a class a closing bracket and a closing brace are
    pattern characters, as they are without the [u] flag. A text that is
    no pattern (a quantifier with nothing to repeat, an unbalanced
    parenthesis, an open class or escape) and a text that uses the rest
    of the language ([+], [$], [|], an opening brace, lazy quantifiers,
    other escapes, ranges and escapes in classes, groups that start with
    [?]) are both answered with [None]. *)
Module RegExpSource.

(** A group that is open: its number, and the terms read before it. *)
Record Frame := mkFrame {
  frameGroup : nat;
  frameItems : list re
}.

Inductive Mode :=
| Normal
| Escape                                   (* after a backslash *)
| ClassStart                               (* after an opening bracket *)
| Class (negated : bool) (members : list char).

(** The reader's state: the terms of the alternative being read, the
    latest first; whether the latest term can take a quantifier; the open
    groups, the innermost first; the number of groups opened so far. *)
Record Parser := mkParser {
  mode : Mode;
  items : list re;
  quantifiable : bool;
  opened : list Frame;
  groupCount : nat
}.

Definition start : Parser := mkParser Normal [] false [] 0.

(** The terms of an alternative, in sequence. *)
Definition sequence (terms : list re) : re := fold_right Seq Empty terms.

(** SyntaxCharacter: one of [^ $ \ . * + ? ( ) [ ] { } |]. *)
Definition isSyntaxCharacter (c : char) : bool :=
  existsb (N.eqb c) [94; 36; 92; 46; 42; 43; 63; 40; 41; 91; 93; 123; 125; 124]%N.

Definition atom (a : re) (p : Parser) : option Parser :=
  Some (mkParser Normal (a :: items p) true (opened p) (groupCount p)).

Definition quantify (q : re -> re) (p : Parser) : option Parser :=
  if quantifiable p then
    match items p with
    | a :: before => Some (mkParser Normal (q a :: before) false (opened p) (groupCount p))
    | [] => None
    end
  else None.

Definition classChar (negated : bool) (members : list char) (c : char) (p : Parser)
  : option Parser :=
  if (c =? 93)%N then
    atom (Chr (fun ch => xorb negated (existsb (N.eqb ch) members))) p
  else if (c =? BACKSLASH)%N || (c =? 45)%N then None
  else Some (mkParser (Class negated (c :: members)) (items p) (quantifiable p)
                      (opened p) (groupCount p)).

Definition step (p : Parser) (c : char) : option Parser :=
  match mode p with
  | Escape =>
      if (c =? 115)%N then atom (Chr isWhiteSpace) p
      else if isSyntaxCharacter c || (c =? 47)%N then atom (Chr (N.eqb c)) p
      else None
  | ClassStart =>
      if (c =? 94)%N
      then Some (mkParser (Class true []) (items p) (quantifiable p)
                          (opened p) (groupCount p))
      else classChar false [] c p
  | Class negated members => classChar negated members c p
  | Normal =>
      if (c =? BACKSLASH)%N then
        Some (mkParser Escape (items p) (quantifiable p) (opened p) (groupCount p))
      else if (c =? 91)%N then
        Some (mkParser ClassStart (items p) (quantifiable p) (opened p) (groupCount p))
      else if (c =? 40)%N then
        Some (mkParser Normal [] false
                       (mkFrame (S (groupCount p)) (items p) :: opened p)
                       (S (groupCount p)))
      else if (c =? 41)%N then
        match opened p with
        | f :: outer =>
            Some (mkParser Normal
                           (Group (frameGroup f) (sequence (rev (items p)))
                            :: frameItems f)
                           true outer (groupCount p))
        | [] => None
        end
      else if (c =? 42)%N then quantify Star p
      else if (c =? 63)%N then quantify Opt p
      else if (c =? 94)%N then
        Some (mkParser Normal (LineStart :: items p) false (opened p) (groupCount p))
      else if (c =? 46)%N then atom (Chr (fun ch => negb (isLineTerminator ch))) p
      else if (c =? 43)%N || (c =? 36)%N || (c =? 124)%N || (c =? 123)%N then None
      else atom (Chr (N.eqb c)) p
  end.

Definition read (source : jsstring) (p : Parser) : option Parser :=
  fold_left (fun state c => match state with Some q => step q c | None => None end)
            source (Some p).

(** The pattern and the number of its capturing groups. *)
Definition compile (source : jsstring) : option (re * nat) :=
  match read source start with
  | Some p =>
      match mode p, opened p with
      | Normal, [] => Some (sequence (rev (items p)), groupCount p)
      | _, _ => None
      end
  | None => None
  end.

End RegExpSource.

(** The template literal of line 92 with the escaped repository put in:
    the text handed to [new RegExp]. *)
Definition imagePatternSource (imageWithoutTagEscaped : jsstring) : jsstring :=
  lit "^(" ++ [BACKSLASH] ++ lit "s*image:" ++ [BACKSLASH] ++ lit "s*['"
  ++ [DQUOTE] ++ lit "]?)"
  ++ imageWithoutTagEscaped
  ++ lit "(:[^'" ++ [DQUOTE] ++ lit "]*" ++ lit ")?(['" ++ [DQUOTE] ++ lit "]?)".

(** The image pattern in which the repository stands for itself, code
    unit by code unit. *)
Definition imagePattern (repository : jsstring) : re :=
  Seq LineStart
 (Seq (Group 1 (Seq (Star (Chr isWhiteSpace))
               (Seq (literal IMAGE_COLON)
               (Seq (Star (Chr isWhiteSpace))
                    (Opt (Chr isQuote))))))
 (Seq (literal repository)
 (Seq (Opt (Group 2 (Seq (Chr (N.eqb COLON))
                         (Star (Chr (fun c => negb (isQuote c)))))))
      (Group 3 (Opt (Chr isQuote)))))).

(** Two patterns that no matching tells apart: the same groups, and the
    same outcome on every state with every continuation. *)
Definition equivalent (r1 r2 : re) : Prop :=
  groupsOf r1 = groupsOf r2
  /\ forall (x : State) (c : Continuation), matcher r1 x c = matcher r2 x c.

(** The term of a pattern character. *)
Definition patternCharacter (c : char) : re := Chr (N.eqb c).

(* ===================================================================== *)
(** * Properties *)
(* ===================================================================== *)

Example parse_two_lines :
  parseEnvVariables (lit "A=1\nB=2")
  = [mkEnv (lit "A") (lit "1"); mkEnv (lit "B") (lit "2")].
Proof. vm_compute. reflexivity. Qed.

Example merge_spec_example :
  mergeEnvVariables
    [mkEnv (lit "A") (lit "1"); mkEnv (lit "B") (lit "2")]
    [mkEnv (lit "B") (lit "3"); mkEnv (lit "C") (lit "4")]
  = [mkEnv (lit "A") (lit "1"); mkEnv (lit "B") (lit "3"); mkEnv (lit "C") (lit "4")].
Proof. vm_compute. reflexivity. Qed.

(** ** Strings and insertion-ordered maps *)

Lemma str_eqb_eq (a b : jsstring) : str_eqb a b = true <-> a = b.
Proof.
  revert b; induction a as [|x a IH]; intros [|y b]; simpl;
    try (split; (discriminate || reflexivity)).
  rewrite andb_true_iff, N.eqb_eq, IH.
  split; [intros [-> ->]; reflexivity | intros E; inversion E; auto].
Qed.

Lemma str_eqb_refl (a : jsstring) : str_eqb a a = true.
Proof. apply str_eqb_eq; reflexivity. Qed.

Lemma str_eqb_neq (a b : jsstring) : str_eqb a b = false <-> a <> b.
Proof.
  rewrite <- str_eqb_eq. destruct (str_eqb a b); split; congruence.
Qed.

Lemma str_eqb_sym (a b : jsstring) : str_eqb a b = str_eqb b a.
Proof.
  destruct (str_eqb a b) eqn:E.
  - apply str_eqb_eq in E; subst; symmetry; apply str_eqb_refl.
  - symmetry; apply str_eqb_neq; apply str_eqb_neq in E; congruence.
Qed.

Lemma mem_In (k : jsstring) (l : list jsstring) : mem k l = true <-> In k l.
Proof.
  unfold mem. rewrite existsb_exists. split.
  - intros (y & Hy & E). apply str_eqb_eq in E. subst. exact Hy.
  - intros H. exists k. split; [exact H | apply str_eqb_refl].
Qed.

Lemma mem_false (k : jsstring) (l : list jsstring) : mem k l = false <-> ~ In k l.
Proof.
  rewrite <- mem_In. destruct (mem k l); split; congruence.
Qed.

Lemma mem_ext (k : jsstring) (s1 s2 : list jsstring) :
  (forall y, In y s1 <-> In y s2) -> mem k s1 = mem k s2.
Proof.
  intros H. destruct (mem k s2) eqn:E.
  - apply mem_In, H, mem_In, E.
  - apply mem_false. intros Hin. apply H, mem_In in Hin. congruence.
Qed.

Lemma firstOccurrences_ext (s1 s2 l : list jsstring) :
  (forall y, In y s1 <-> In y s2) ->
  firstOccurrences s1 l = firstOccurrences s2 l.
Proof.
  revert s1 s2; induction l as [|k l IH]; intros s1 s2 H; simpl; [reflexivity|].
  rewrite (mem_ext k s1 s2 H). destruct (mem k s2).
  - apply IH, H.
  - f_equal. apply IH. intros y; simpl. rewrite H. reflexivity.
Qed.

Lemma In_firstOccurrences (seen l : list jsstring) (y : jsstring) :
  In y (firstOccurrences seen l) <-> In y l /\ ~ In y seen.
Proof.
  revert seen; induction l as [|k l IH]; intros seen; simpl; [tauto|].
  destruct (mem k seen) eqn:E.
  - rewrite IH. apply mem_In in E. split; [tauto|].
    intros [[-> | H] Hn]; tauto.
  - apply mem_false in E. simpl. rewrite IH. simpl.
    destruct (list_eq_dec N.eq_dec k y) as [-> | Hne]; tauto.
Qed.

Lemma firstOccurrences_NoDup (seen l : list jsstring) :
  NoDup (firstOccurrences seen l).
Proof.
  revert seen; induction l as [|k l IH]; intros seen; simpl; [constructor|].
  destruct (mem k seen); [apply IH|].
  constructor; [|apply IH].
  rewrite In_firstOccurrences. simpl. tauto.
Qed.

Lemma firstOccurrences_id (seen l : list jsstring) :
  NoDup l -> (forall y, In y l -> ~ In y seen) ->
  firstOccurrences seen l = l.
Proof.
  revert seen; induction l as [|k l IH]; intros seen Hnd Hdisj; simpl; [reflexivity|].
  inversion Hnd as [|? ? Hk Hl]; subst.
  assert (E : mem k seen = false) by (apply mem_false, Hdisj; left; reflexivity).
  rewrite E. f_equal. apply IH; [exact Hl|].
  intros y Hy [<- | Hs]; [contradiction|].
  apply (Hdisj y); [right; exact Hy | exact Hs].
Qed.

Module JSMapFacts.
Import JSMap.

Lemma keys_set (k v : jsstring) (m : t) :
  keys (set k v m) = if mem k (keys m) then keys m else keys m ++ [k].
Proof.
  induction m as [|[k' v'] m IH]; [reflexivity|].
  change (keys ((k', v') :: m)) with (k' :: keys m).
  change (mem k (k' :: keys m)) with (str_eqb k k' || mem k (keys m)).
  rewrite (str_eqb_sym k k'). cbn [set].
  destruct (str_eqb k' k) eqn:E; [reflexivity|].
  change (keys ((k', v') :: set k v m)) with (k' :: keys (set k v m)).
  rewrite IH. cbn [orb]. destruct (mem k (keys m)); reflexivity.
Qed.

Lemma get_set (k v k0 : jsstring) (m : t) :
  get k0 (set k v m) = if str_eqb k k0 then Some v else get k0 m.
Proof.
  induction m as [|[k' v'] m IH]; simpl.
  - destruct (str_eqb k k0); reflexivity.
  - destruct (str_eqb k' k) eqn:E; simpl.
    + apply str_eqb_eq in E; subst k'.
      destruct (str_eqb k k0); reflexivity.
    + rewrite IH. destruct (str_eqb k' k0) eqn:E0; [|reflexivity].
      apply str_eqb_eq in E0; subst k'. rewrite (str_eqb_sym k k0), E. reflexivity.
Qed.

Lemma NoDup_keys_set (k v : jsstring) (m : t) :
  NoDup (keys m) -> NoDup (keys (set k v m)).
Proof.
  intros H. rewrite keys_set. destruct (mem k (keys m)) eqn:E; [exact H|].
  apply mem_false in E. apply NoDup_app; [exact H | repeat constructor; simpl; tauto |].
  intros y Hy [<- | []]. contradiction.
Qed.

(** A map without duplicate keys is its keys, each with its value. *)
Lemma entries_by_keys (m : t) :
  NoDup (keys m) ->
  m = map (fun k => (k, match get k m with Some v => v | None => [] end)) (keys m).
Proof.
  induction m as [|[k v] m IH]; simpl; intros H; [reflexivity|].
  inversion H as [|? ? Hk Hm]; subst.
  rewrite str_eqb_refl. f_equal.
  rewrite (IH Hm) at 1. apply map_ext_in.
  intros k0 Hk0. destruct (str_eqb k k0) eqn:E; [|reflexivity].
  apply str_eqb_eq in E; subst. contradiction.
Qed.

End JSMapFacts.

(** ** [mergeEnvVariables] *)

Section Merge.
Import JSMap JSMapFacts.

Lemma keys_setAll (vars : EnvVariables) (m : t) :
  keys (setAll vars m) = keys m ++ firstOccurrences (keys m) (map name vars).
Proof.
  revert m; induction vars as [|x vars IH]; intros m.
  - simpl. rewrite app_nil_r. reflexivity.
  - change (setAll (x :: vars) m) with (setAll vars (set (name x) (value x) m)).
    rewrite IH, keys_set. simpl.
    destruct (mem (name x) (keys m)) eqn:E; [reflexivity|].
    rewrite <- app_assoc. simpl. do 2 f_equal.
    apply firstOccurrences_ext. intros y. rewrite in_app_iff. simpl. tauto.
Qed.

Lemma get_setAll (vars : EnvVariables) (m : t) (k : jsstring) :
  get k (setAll vars m)
  = match lastValue k vars with Some v => Some v | None => get k m end.
Proof.
  revert m; induction vars as [|x vars IH]; intros m; [reflexivity|].
  change (setAll (x :: vars) m) with (setAll vars (set (name x) (value x) m)).
  rewrite IH, get_set. simpl.
  destruct (lastValue k vars); [reflexivity|].
  destruct (str_eqb (name x) k); reflexivity.
Qed.

Lemma NoDup_keys_setAll (vars : EnvVariables) (m : t) :
  NoDup (keys m) -> NoDup (keys (setAll vars m)).
Proof.
  revert m; induction vars as [|x vars IH]; intros m H; [exact H|].
  apply IH, NoDup_keys_set, H.
Qed.

(** The two loops build exactly the map the specification describes. *)
Lemma merge_refines_spec (original updates : EnvVariables) :
  mergeEnvVariables original updates = mergeSpec original updates.
Proof.
  unfold mergeEnvVariables, mergeSpec, entries.
  set (M := setAll updates (setAll original empty)).
  assert (Hnd : NoDup (keys M)).
  { apply NoDup_keys_setAll, NoDup_keys_setAll. constructor. }
  rewrite (entries_by_keys M Hnd) at 1. rewrite map_map.
  assert (Hk : keys M = firstOccurrences [] (map name original)
                        ++ firstOccurrences (map name original) (map name updates)).
  { unfold M. rewrite !keys_setAll. simpl. f_equal.
    apply firstOccurrences_ext. intros y.
    rewrite In_firstOccurrences. simpl. tauto. }
  rewrite Hk. apply map_ext. intros k. f_equal.
  unfold M, mergedValue. rewrite !get_setAll. simpl.
  destruct (lastValue k updates); [reflexivity|].
  destruct (lastValue k original); reflexivity.
Qed.

Lemma lastValue_Some_In (vars : EnvVariables) (k v : jsstring) :
  lastValue k vars = Some v -> In k (map name vars).
Proof.
  revert v; induction vars as [|z vars IH]; intros v; simpl; [discriminate|].
  destruct (lastValue k vars) as [j|] eqn:E; [intros _; right; apply (IH j eq_refl)|].
  destruct (str_eqb (name z) k) eqn:Ez; [|discriminate].
  intros _. left. apply str_eqb_eq, Ez.
Qed.

Lemma lastValue_NoDup (vars : EnvVariables) (x : EnvVariable) :
  NoDup (map name vars) -> In x vars -> lastValue (name x) vars = Some (value x).
Proof.
  induction vars as [|y vars IH]; simpl; intros Hnd Hin; [contradiction|].
  inversion Hnd as [|? ? Hy Hvars]; subst.
  destruct Hin as [-> | Hin].
  - destruct (lastValue (name x) vars) eqn:E.
    + exfalso. apply Hy. apply (lastValue_Some_In vars (name x) j E).
    + rewrite str_eqb_refl. reflexivity.
  - rewrite (IH Hvars Hin). reflexivity.
Qed.

End Merge.

(** C3. [mergeEnvVariables original updates] is the sequence the
    specification describes: the names of [original] stand first, in the
    order of their first occurrence there, followed by the names that
    occur only in [updates], in the order of their first occurrence in
    [updates]; a name that occurs in [updates] carries the value of its
    last occurrence there, any other name the value it has in
    [original]. *)
Theorem mergeEnvVariables_order_contract (original updates : EnvVariables) :
  mergeEnvVariables original updates
  = map (fun k => {| name := k; value := mergedValue original updates k |})
        (firstOccurrences [] (map name original)
         ++ firstOccurrences (map name original) (map name updates)).
Proof. apply merge_refines_spec. Qed.

(** C8, as the code has it. With no updates, an [original] whose names
    are pairwise distinct comes back unchanged, values and order. *)
Theorem mergeEnvVariables_empty_updates (original : EnvVariables) :
  NoDup (map name original) ->
  mergeEnvVariables original [] = original.
Proof.
  intros Hnd. rewrite merge_refines_spec. unfold mergeSpec. simpl.
  rewrite app_nil_r, firstOccurrences_id by (auto; intros y _ []).
  rewrite map_map. rewrite <- (map_id original) at 2.
  apply map_ext_in. intros x Hx. unfold mergedValue. simpl.
  rewrite (lastValue_NoDup original x Hnd Hx). destruct x; reflexivity.
Qed.

Lemma mergeEnvVariables_empty_updates_witness :
  mergeEnvVariables [mkEnv (lit "A") (lit "1"); mkEnv (lit "B") (lit "2")] []
  = [mkEnv (lit "A") (lit "1"); mkEnv (lit "B") (lit "2")].
Proof.
  apply mergeEnvVariables_empty_updates.
  repeat constructor; simpl; intuition discriminate.
Defined.

(** C8, as the specification words it, fails: a name that [original]
    holds twice comes back once, with its last value. *)
Lemma mergeEnvVariables_empty_updates_counterexample :
  mergeEnvVariables [mkEnv (lit "A") (lit "1"); mkEnv (lit "A") (lit "2")] []
  = [mkEnv (lit "A") (lit "2")]
  /\ mergeEnvVariables [mkEnv (lit "A") (lit "1"); mkEnv (lit "A") (lit "2")] []
     <> [mkEnv (lit "A") (lit "1"); mkEnv (lit "A") (lit "2")].
Proof. split; [vm_compute; reflexivity | vm_compute; discriminate]. Qed.

(** ** [parseEnvVariables] *)

Lemma indexOf_ge (c : char) (s : jsstring) : (-1 <= indexOf c s)%Z.
Proof.
  induction s as [|x s IH]; simpl; [lia|].
  destruct (x =? c)%N; [lia|].
  destruct (indexOf c s <? 0)%Z eqn:E; [lia|]. apply Z.ltb_ge in E. lia.
Qed.

Lemma split_not_nil (c : char) (s : jsstring) : split c s <> [].
Proof.
  destruct s as [|x s]; simpl; [discriminate|].
  destruct (x =? c)%N; [discriminate|].
  destruct (split c s); discriminate.
Qed.

(** Joining the pieces with the separator gives the string back. *)
Lemma join_split (c : char) (s : jsstring) : join [c] (split c s) = s.
Proof.
  induction s as [|x s IH]; [reflexivity|]. simpl.
  pose proof (split_not_nil c s) as Hne.
  destruct (x =? c)%N eqn:E.
  - apply N.eqb_eq in E; subst x.
    destruct (split c s) as [|p ps]; [contradiction|].
    change (join [c] ([] :: p :: ps)) with ([] ++ [c] ++ join [c] (p :: ps)).
    rewrite IH. reflexivity.
  - destruct (split c s) as [|p ps]; [contradiction|].
    destruct ps as [|q ps]; simpl in *; rewrite <- IH; reflexivity.
Qed.

(** Without the separator there is one piece, the string itself. *)
Lemma split_absent (c : char) (s : jsstring) :
  (indexOf c s < 0)%Z -> split c s = [s].
Proof.
  induction s as [|x s IH]; [reflexivity|]. simpl.
  destruct (x =? c)%N; [lia|].
  destruct (indexOf c s <? 0)%Z eqn:E; [|pose proof (indexOf_ge c s); lia].
  intros _. apply Z.ltb_lt in E. rewrite (IH E). reflexivity.
Qed.

(** With the separator, the first piece is the text before its first
    occurrence and the other pieces split the text after it. *)
Lemma split_present (c : char) (s : jsstring) :
  (0 <= indexOf c s)%Z ->
  split c s = firstn (Z.to_nat (indexOf c s)) s
              :: split c (skipn (Z.to_nat (indexOf c s) + 1) s).
Proof.
  induction s as [|x s IH]; simpl; [lia|].
  destruct (x =? c)%N; [reflexivity|].
  destruct (indexOf c s <? 0)%Z eqn:E; [lia|].
  apply Z.ltb_ge in E. intros _. rewrite (IH E).
  replace (Z.to_nat (indexOf c s + 1)) with (S (Z.to_nat (indexOf c s))) by lia.
  reflexivity.
Qed.

Lemma trim_nil : trim [] = [].
Proof. reflexivity. Qed.

Lemma parseLine_refines_spec (line : jsstring) : parseLine line = parseLineSpec line.
Proof.
  unfold parseLine, parseLineSpec.
  destruct (indexOf EQUALS line <? 0)%Z eqn:E.
  - apply Z.ltb_lt in E. rewrite (split_absent EQUALS line E). reflexivity.
  - apply Z.ltb_ge in E. rewrite (split_present EQUALS line E).
    rewrite join_split. reflexivity.
Qed.

(** The result is the image of the lines that [envLines] keeps, and
    none of them is blank. *)
Lemma parseEnvVariables_envLines (envVariables : jsstring) :
  parseEnvVariables envVariables
  = map (fun line =>
           if (indexOf EQUALS line <? 0)%Z
           then {| name := trim line; value := [] |}
           else {| name := trim (firstn (Z.to_nat (indexOf EQUALS line)) line);
                   value := trim (skipn (Z.to_nat (indexOf EQUALS line) + 1) line) |})
        (envLines envVariables)
  /\ Forall (fun line => trim line <> []) (envLines envVariables).
Proof.
  split.
  - unfold parseEnvVariables, envLines. apply map_ext. intros line.
    rewrite parseLine_refines_spec. reflexivity.
  - unfold envLines. apply Forall_forall. intros line Hin.
    apply filter_In in Hin. destruct Hin as [_ Hnb].
    unfold nonBlank in Hnb. apply negb_true_iff, str_eqb_neq in Hnb. exact Hnb.
Qed.

Example parse_no_equals :
  parseEnvVariables (lit " FOO ") = [mkEnv (lit "FOO") []].
Proof. vm_compute. reflexivity. Qed.

Example parse_value_with_equals :
  parseEnvVariables (lit "A = b=c \n\nA=2")
  = [mkEnv (lit "A") (lit "b=c"); mkEnv (lit "A") (lit "2")].
Proof. vm_compute. reflexivity. Qed.

(* ===================================================================== *)
(** ** The reconciler *)
(* ===================================================================== *)

Section Reconciler.

Variable TemplateVariables : Type.
Variable workspacePath : jsstring -> Result jsstring.
Variable readFileSync : jsstring -> Result jsstring.
Variable handlebars : jsstring -> TemplateVariables -> Result jsstring.
Variable remote : Remote.

Local Abbreviation deploy := (deployStack workspacePath readFileSync handlebars remote).
Local Abbreviation generate args :=
  (generateNewStackDefinition workspacePath readFileSync handlebars
     (stackDefinitionFile args) (templateVariables args) (image args)).

(** After the document is prepared and the login has succeeded, a run is
    the reconciliation followed by the logout. *)
Lemma deploy_after_login (args : DeployStack TemplateVariables)
    (doc : option jsstring) (jwt : jsstring) :
  generate args = Ok doc ->
  auth remote (username args) (password args) = Ok jwt ->
  deploy args newClient
  = tryFinally (reconcile remote args doc) (PortainerApi.logout) (loggedIn args jwt).
Proof.
  intros Hgen Hauth. unfold deployStack, bind, lift at 1. rewrite Hgen.
  unfold PortainerApi.login, bind, record, lift, setAuthorization, newClient. simpl.
  rewrite Hauth. reflexivity.
Qed.

(** [logout] cannot throw; it records itself and clears the header. *)
Lemma logout_total (c : Client) :
  PortainerApi.logout c = (Ok tt, mkClient (Some []) (calls c ++ [Logout])).
Proof. reflexivity. Qed.

Lemma tryFinally_logout (A : Type) (body : Async A) (c : Client) :
  tryFinally body PortainerApi.logout c
  = (fst (body c), mkClient (Some []) (calls (snd (body c)) ++ [Logout])).
Proof.
  unfold tryFinally. destruct (body c) as [r c']. rewrite logout_total. reflexivity.
Qed.

(** What the reconciliation does when the target stack exists. *)
Lemma reconcile_found (args : DeployStack TemplateVariables) (doc : option jsstring)
    (allStacks : list StackData) (existingStack : StackData) (c : Client) :
  stacks remote = Ok allStacks ->
  find (isTarget (stackName args) (endpointId args)) allStacks = Some existingStack ->
  reconcile remote args doc c
  = updateExisting remote args doc existingStack
      (mkClient (authorization c) (calls c ++ [GetStacks])).
Proof.
  intros Hs Hf. unfold reconcile, PortainerApi.getStacks, bind, record, lift.
  rewrite Hs, Hf. reflexivity.
Qed.

Lemma reconcile_not_found (args : DeployStack TemplateVariables) (doc : option jsstring)
    (allStacks : list StackData) (c : Client) :
  stacks remote = Ok allStacks ->
  find (isTarget (stackName args) (endpointId args)) allStacks = None ->
  reconcile remote args doc c
  = createNew remote args doc (mkClient (authorization c) (calls c ++ [GetStacks])).
Proof.
  intros Hs Hf. unfold reconcile, PortainerApi.getStacks, bind, record, lift.
  rewrite Hs, Hf. reflexivity.
Qed.

(** The reconciliation never logs out by itself. *)
Lemma reconcile_no_logout (args : DeployStack TemplateVariables) (doc : option jsstring)
    (c : Client) :
  filter isLogout (calls (snd (reconcile remote args doc c)))
  = filter isLogout (calls c).
Proof.
  unfold reconcile, PortainerApi.getStacks, bind, record, lift. simpl.
  destruct (stacks remote) as [allStacks|e]; simpl.
  2:{ rewrite filter_app. simpl. apply app_nil_r. }
  destruct (find _ allStacks) as [existingStack|].
  - unfold updateExisting, PortainerApi.updateStack, bind, record, lift. simpl.
    rewrite !filter_app; simpl; rewrite !app_nil_r; reflexivity.
  - unfold createNew. destruct (negb (truthy doc)).
    + unfold throw. simpl. rewrite filter_app. simpl. apply app_nil_r.
    + unfold PortainerApi.createStack, bind, record, lift. simpl.
      rewrite !filter_app; simpl; rewrite !app_nil_r; reflexivity.
Qed.

Lemma find_first (A : Type) (p : A -> bool) (l : list A) (x : A) :
  In x l -> p x = true ->
  exists pre y post,
    l = pre ++ y :: post /\ find p l = Some y /\ p y = true
    /\ Forall (fun z => p z = false) pre.
Proof.
  induction l as [|a l IH]; simpl; intros Hin Hp; [contradiction|].
  destruct (p a) eqn:Ea.
  - exists [], a, l. repeat split; auto.
  - destruct Hin as [-> | Hin]; [congruence|].
    destruct (IH Hin Hp) as (pre & y & post & -> & Hf & Hy & Hpre).
    exists (a :: pre), y, post. repeat split; auto.
Qed.

Lemma isTarget_spec (n : jsstring) (e : Z) (s : StackData) :
  isTarget n e s = true <-> Name s = n /\ EndpointId s = e.
Proof.
  unfold isTarget. rewrite andb_true_iff, str_eqb_eq, Z.eqb_eq. reflexivity.
Qed.

(** C1. When the list of remote stacks holds a stack with the target
    name and the target endpoint, the run selects the first such stack
    and calls [updateStack] for it, with its id and its endpoint; no
    [createStack] call is made, whatever document was prepared. *)
Theorem existing_stack_is_updated (args : DeployStack TemplateVariables)
    (doc : option jsstring) (jwt : jsstring) (allStacks : list StackData) :
  generate args = Ok doc ->
  auth remote (username args) (password args) = Ok jwt ->
  stacks remote = Ok allStacks ->
  (exists s, In s allStacks
             /\ Name s = stackName args /\ EndpointId s = endpointId args) ->
  exists pre existingStack post,
    allStacks = pre ++ existingStack :: post
    /\ Forall (fun s => ~ (Name s = stackName args
                           /\ EndpointId s = endpointId args)) pre
    /\ Name existingStack = stackName args
    /\ EndpointId existingStack = endpointId args
    /\ calls (snd (deploy args newClient))
       = [Login (username args) (password args);
          GetStacks;
          UpdateStack (Id existingStack)
            (mkUpdateParams (EndpointId existingStack))
            (mkUpdateBody
               match envVariables args with
               | Some updates =>
                   Some (mergeEnvVariables
                           match Env existingStack with Some e => e | None => [] end
                           updates)
               | None => Env existingStack
               end
               doc
               match pruneStack args with Some b => b | None => false end
               match pullImage args with Some b => b | None => false end);
          Logout]
    /\ filter isCreate (calls (snd (deploy args newClient))) = [].
Proof.
  intros Hgen Hauth Hstacks (s & Hin & Hname & Hep).
  destruct (find_first _ (isTarget (stackName args) (endpointId args)) allStacks s Hin)
    as (pre & y & post & Hsplit & Hfind & Hy & Hpre).
  { apply isTarget_spec. auto. }
  apply isTarget_spec in Hy. destruct Hy as [Hy1 Hy2].
  exists pre, y, post. split; [exact Hsplit|]. split.
  { eapply Forall_impl; [|exact Hpre]. intros z Hz Hc.
    apply isTarget_spec in Hc. congruence. }
  split; [exact Hy1|]. split; [exact Hy2|].
  rewrite (deploy_after_login args doc jwt Hgen Hauth), tryFinally_logout.
  rewrite (reconcile_found args doc allStacks y _ Hstacks Hfind).
  unfold updateExisting, PortainerApi.updateStack, bind, record, lift. simpl.
  split; reflexivity.
Qed.

(** C2. When no remote stack has the target name and endpoint and no
    definition file was supplied, the run fails with the error of the
    missing definition; the calls made are the login, the listing and the
    logout, and no [createStack] call. *)
Theorem missing_stack_without_document (args : DeployStack TemplateVariables)
    (jwt : jsstring) (allStacks : list StackData) :
  truthy (stackDefinitionFile args) = false ->
  auth remote (username args) (password args) = Ok jwt ->
  stacks remote = Ok allStacks ->
  Forall (fun s => ~ (Name s = stackName args
                      /\ EndpointId s = endpointId args)) allStacks ->
  fst (deploy args newClient) = Throw (StackDoesNotExist (stackName args))
  /\ calls (snd (deploy args newClient))
     = [Login (username args) (password args); GetStacks; Logout]
  /\ filter isCreate (calls (snd (deploy args newClient))) = [].
Proof.
  intros Hfile Hauth Hstacks Hnone.
  assert (Hgen : generate args = Ok None).
  { unfold generateNewStackDefinition. rewrite Hfile. reflexivity. }
  assert (Hfind : find (isTarget (stackName args) (endpointId args)) allStacks = None).
  { destruct (find _ allStacks) as [y|] eqn:E; [|reflexivity].
    apply find_some in E. destruct E as [Hin Hy].
    apply isTarget_spec in Hy. rewrite Forall_forall in Hnone.
    exfalso. exact (Hnone y Hin Hy). }
  rewrite (deploy_after_login args None jwt Hgen Hauth), tryFinally_logout.
  rewrite (reconcile_not_found args None allStacks _ Hstacks Hfind).
  unfold createNew, throw. simpl. repeat split; reflexivity.
Qed.

(** C6. Once the document is prepared and the login has succeeded, the
    run calls [logout] exactly once, as its last call, whatever the remote
    answers to the listing, the update or the creation and whether or not
    the reconciliation throws; the outcome of the run is the outcome of
    the reconciliation, so the logout does not fail it, and the
    authorization header is left cleared. *)
Theorem logout_exactly_once (args : DeployStack TemplateVariables)
    (doc : option jsstring) (jwt : jsstring) :
  generate args = Ok doc ->
  auth remote (username args) (password args) = Ok jwt ->
  List.length (filter isLogout (calls (snd (deploy args newClient)))) = 1%nat
  /\ (exists before, calls (snd (deploy args newClient)) = before ++ [Logout])
  /\ fst (deploy args newClient)
     = fst (reconcile remote args doc (loggedIn args jwt))
  /\ authorization (snd (deploy args newClient)) = Some [].
Proof.
  intros Hgen Hauth.
  rewrite (deploy_after_login args doc jwt Hgen Hauth), tryFinally_logout. simpl.
  repeat split.
  - rewrite filter_app, reconcile_no_logout. reflexivity.
  - eexists. reflexivity.
Qed.

End Reconciler.

Lemma existing_stack_is_updated_witness :
  exists pre existingStack post,
    [mkStack 7 (lit "web") 2 None;
     mkStack 8 (lit "web") 1 (Some [mkEnv (lit "A") (lit "1")]);
     mkStack 9 (lit "web") 1 None] = pre ++ existingStack :: post
    /\ Forall (fun s => ~ (Name s = lit "web" /\ EndpointId s = 1%Z)) pre
    /\ Name existingStack = lit "web"
    /\ EndpointId existingStack = 1%Z
    /\ calls (snd (deployStack inWorkspace noFile noTemplate exampleRemote
                     exampleUpdate newClient))
       = [Login (lit "ci") (lit "secret");
          GetStacks;
          UpdateStack (Id existingStack)
            (mkUpdateParams (EndpointId existingStack))
            (mkUpdateBody
               (Some (mergeEnvVariables
                        match Env existingStack with Some e => e | None => [] end
                        [mkEnv (lit "B") (lit "2")]))
               None false false);
          Logout]
    /\ filter isCreate
         (calls (snd (deployStack inWorkspace noFile noTemplate exampleRemote
                        exampleUpdate newClient))) = [].
Proof.
  apply (existing_stack_is_updated unit inWorkspace noFile noTemplate exampleRemote
           exampleUpdate None (lit "token")
           [mkStack 7 (lit "web") 2 None;
            mkStack 8 (lit "web") 1 (Some [mkEnv (lit "A") (lit "1")]);
            mkStack 9 (lit "web") 1 None]).
  - reflexivity.
  - reflexivity.
  - reflexivity.
  - exists (mkStack 8 (lit "web") 1 (Some [mkEnv (lit "A") (lit "1")])).
    simpl. auto.
Defined.

Lemma missing_stack_without_document_witness :
  fst (deployStack inWorkspace noFile noTemplate exampleRemote exampleCreate newClient)
  = Throw (StackDoesNotExist (lit "db"))
  /\ calls (snd (deployStack inWorkspace noFile noTemplate exampleRemote
                   exampleCreate newClient))
     = [Login (lit "ci") (lit "secret"); GetStacks; Logout]
  /\ filter isCreate
       (calls (snd (deployStack inWorkspace noFile noTemplate exampleRemote
                      exampleCreate newClient))) = [].
Proof.
  apply (missing_stack_without_document unit inWorkspace noFile noTemplate
           exampleRemote exampleCreate (lit "token")
           [mkStack 7 (lit "web") 2 None;
            mkStack 8 (lit "web") 1 (Some [mkEnv (lit "A") (lit "1")]);
            mkStack 9 (lit "web") 1 None]).
  - reflexivity.
  - reflexivity.
  - reflexivity.
  - repeat constructor; simpl; intros [H _]; vm_compute in H; discriminate.
Defined.

Lemma logout_exactly_once_witness :
  List.length
    (filter isLogout
       (calls (snd (deployStack inWorkspace noFile noTemplate exampleRemote
                      exampleCreate newClient)))) = 1%nat
  /\ (exists before,
        calls (snd (deployStack inWorkspace noFile noTemplate exampleRemote
                      exampleCreate newClient)) = before ++ [Logout])
  /\ fst (deployStack inWorkspace noFile noTemplate exampleRemote exampleCreate newClient)
     = fst (reconcile exampleRemote exampleCreate None
              (loggedIn exampleCreate (lit "token")))
  /\ authorization
       (snd (deployStack inWorkspace noFile noTemplate exampleRemote
               exampleCreate newClient)) = Some [].
Proof.
  apply (logout_exactly_once unit inWorkspace noFile noTemplate exampleRemote
           exampleCreate None (lit "token")).
  - reflexivity.
  - reflexivity.
Defined.

(* ===================================================================== *)
(** ** The endpoint id of [run] *)
(* ===================================================================== *)

Lemma readDigits_decimal (ds : list Z) (acc : Z) (seen : bool) :
  Forall (fun d => (0 <= d < 10)%Z) ds ->
  readDigits 10 seen acc (digitChars ds)
  = if seen || negb (Nat.eqb (List.length ds) 0)
    then Some (digitsValue acc ds) else None.
Proof.
  revert acc seen; induction ds as [|d ds IH]; intros acc seen H; simpl.
  - rewrite orb_false_r. reflexivity.
  - inversion H as [|? ? Hd Hds]; subst.
    assert (E : digitOf (Z.to_N (d + 48)) = Some d).
    { unfold digitOf.
      assert (d = 0 \/ d = 1 \/ d = 2 \/ d = 3 \/ d = 4 \/ d = 5 \/ d = 6
              \/ d = 7 \/ d = 8 \/ d = 9)%Z as Hc by lia.
      repeat (destruct Hc as [-> | Hc]; [reflexivity|]). subst; reflexivity. }
    rewrite E. destruct (d <? 10)%Z eqn:Hlt; [|apply Z.ltb_ge in Hlt; lia].
    rewrite (IH _ true Hds). simpl. rewrite orb_true_r. reflexivity.
Qed.

(** [parseInt] reads a string of decimal digits as the integer it
    denotes. *)
Lemma parseInt_decimal (d : Z) (ds : list Z) :
  Forall (fun d => (0 <= d < 10)%Z) (d :: ds) ->
  parseInt (digitChars (d :: ds)) = Int (digitsValue 0 (d :: ds)).
Proof.
  intros H. pose proof (readDigits_decimal (d :: ds) 0 false H) as HR.
  inversion H as [|? ? Hd Hds]; subst.
  assert (d = 0 \/ d = 1 \/ d = 2 \/ d = 3 \/ d = 4 \/ d = 5 \/ d = 6
          \/ d = 7 \/ d = 8 \/ d = 9)%Z as Hc by lia.
  unfold parseInt.
  assert (Htrim : trimStart (digitChars (d :: ds)) = digitChars (d :: ds)).
  { repeat (destruct Hc as [-> | Hc]; [reflexivity|]). subst; reflexivity. }
  rewrite Htrim.
  destruct ds as [|e ds].
  - repeat (destruct Hc as [-> | Hc]; [reflexivity|]). subst; reflexivity.
  - assert (Hx : (Z.to_N (e + 48) =? 120)%N || (Z.to_N (e + 48) =? 88)%N = false).
    { inversion Hds as [|? ? He _]; subst.
      apply orb_false_iff; split; apply N.eqb_neq; lia. }
    change (digitChars (d :: e :: ds))
      with (Z.to_N (d + 48) :: Z.to_N (e + 48) :: digitChars ds) in *.
    assert (Hsign : (Z.to_N (d + 48) =? 45)%N = false /\ (Z.to_N (d + 48) =? 43)%N = false).
    { split; apply N.eqb_neq; lia. }
    destruct Hsign as [H45 H43]. rewrite H45, H43, Hx, andb_false_r.
    rewrite HR. simpl. f_equal. destruct (digitsValue (d * 10 + e) ds); reflexivity.
Qed.

Section RunFacts.

Variable TemplateVariables : Type.
Variable jsonParse : jsstring -> Result (option TemplateVariables).

(** C9, as the code has it. The endpoint id passed to [deployStack] is
    the integer [parseInt] reads from the input when there is one and it
    is not zero, and 1 otherwise: when the input is unset or has no
    integer to read, and also when the integer read is zero. *)
Theorem endpoint_id_default (i : Inputs) (args : DeployStack TemplateVariables) :
  deployStackArguments jsonParse i = Ok args ->
  endpointId args
  = match parseInt (input_endpointId i) with
    | Int z => if (z =? 0)%Z then 1%Z else z
    | NaN => 1%Z
    end.
Proof.
  unfold deployStackArguments. intros H.
  destruct (if truthy (Some (input_templateVariables i)) then _ else _) as [tv|e];
    [|discriminate].
  inversion H; subst. reflexivity.
Qed.

End RunFacts.

Lemma endpoint_id_default_witness :
  endpointId (mkDeployStack (TemplateVariables := unit)
                (lit "ci") (lit "secret") (Some []) 12 (lit "web") (Some [])
                None None (Some []) (Some false) (Some false))
  = match parseInt (lit "12") with
    | Int z => if (z =? 0)%Z then 1%Z else z
    | NaN => 1%Z
    end.
Proof.
  apply (endpoint_id_default unit noJson (exampleInputs (lit "12"))).
  reflexivity.
Defined.

(** C9, as the specification words it, fails: the input [0] parses, to
    zero, and the endpoint id passed is 1. *)
Lemma endpoint_id_default_counterexample :
  parseInt (lit "0") = Int 0
  /\ match deployStackArguments noJson (exampleInputs (lit "0")) with
     | Ok args => endpointId args = 1%Z /\ endpointId args <> 0%Z
     | Throw _ => False
     end.
Proof. split; [reflexivity | split; [reflexivity | discriminate]]. Qed.

Example endpoint_id_unset :
  parseInt [] = NaN /\ orOne (parseInt []) = 1%Z.
Proof. split; reflexivity. Qed.

Example endpoint_id_examples :
  map (fun s => orOne (parseInt (lit s))) ["7"; " 42abc"; "abc"; "0x1F"; "-3"]%string
  = [7; 42; 1; 31; -3]%Z.
Proof. reflexivity. Qed.

(* ===================================================================== *)
(** ** [generateNewStackDefinition]: the image argument *)
(* ===================================================================== *)

Section GenerateFacts.

Variable TemplateVariables : Type.
Variable workspacePath : jsstring -> Result jsstring.
Variable readFileSync : jsstring -> Result jsstring.
Variable handlebars : jsstring -> TemplateVariables -> Result jsstring.

(** C10. With the empty string for image the rewrite is skipped: the
    document as read and rendered is returned unchanged, exactly as when
    no image is given. *)
Theorem empty_image_skips_rewrite (file path content rendered : jsstring)
    (vars : option TemplateVariables) :
  truthy (Some file) = true ->
  workspacePath file = Ok path ->
  readFileSync path = Ok content ->
  truthy (Some content) = true ->
  match vars with
  | Some v => handlebars content v
  | None => Ok content
  end = Ok rendered ->
  generateNewStackDefinition workspacePath readFileSync handlebars
    (Some file) vars (Some []) = Ok (Some rendered)
  /\ generateNewStackDefinition workspacePath readFileSync handlebars
       (Some file) vars (Some [])
     = generateNewStackDefinition workspacePath readFileSync handlebars
         (Some file) vars None.
Proof.
  intros Hfile Hpath Hread Hcontent Hrender.
  unfold generateNewStackDefinition. rewrite Hfile. cbn [negb].
  rewrite Hpath, Hread, Hcontent. simpl.
  rewrite Hrender. split; reflexivity.
Qed.

End GenerateFacts.

Lemma empty_image_skips_rewrite_witness :
  generateNewStackDefinition inWorkspace oneFile noTemplate
    (Some (lit "stack.yml")) (Some tt) (Some []) = Ok (Some (lit "image: app:1"))
  /\ generateNewStackDefinition inWorkspace oneFile noTemplate
       (Some (lit "stack.yml")) (Some tt) (Some [])
     = generateNewStackDefinition inWorkspace oneFile noTemplate
         (Some (lit "stack.yml")) (Some tt) None.
Proof.
  apply (empty_image_skips_rewrite unit inWorkspace oneFile noTemplate
           (lit "stack.yml") (lit "/github/workspace/stack.yml")
           (lit "image: app:1") (lit "image: app:1") (Some tt));
    reflexivity.
Defined.

(* ===================================================================== *)
(** ** The repository part of the image *)
(* ===================================================================== *)

Lemma indexOf_firstn (c : char) (s : jsstring) :
  (0 <= indexOf c s)%Z ->
  exists t, s = firstn (Z.to_nat (indexOf c s)) s ++ c :: t
            /\ ~ In c (firstn (Z.to_nat (indexOf c s)) s).
Proof.
  induction s as [|x s IH]; simpl; [lia|].
  destruct (x =? c)%N eqn:E.
  - apply N.eqb_eq in E; subst. intros _. exists s. simpl. auto.
  - destruct (indexOf c s <? 0)%Z eqn:El; [lia|]. apply Z.ltb_ge in El.
    intros _. destruct (IH El) as (t & Ht & Hn).
    replace (Z.to_nat (indexOf c s + 1)) with (S (Z.to_nat (indexOf c s))) by lia.
    exists t. simpl. split; [f_equal; exact Ht|].
    intros [-> | Hin]; [rewrite N.eqb_refl in E; discriminate | contradiction].
Qed.

Lemma indexOf_absent (c : char) (s : jsstring) :
  (indexOf c s < 0)%Z <-> ~ In c s.
Proof.
  induction s as [|x s IH]; simpl; [split; [tauto | lia]|].
  destruct (x =? c)%N eqn:E.
  - apply N.eqb_eq in E. split; [lia | tauto].
  - apply N.eqb_neq in E. destruct (indexOf c s <? 0)%Z eqn:El.
    + apply Z.ltb_lt in El. split; [|lia]. intros _ [H | H]; tauto.
    + apply Z.ltb_ge in El. split; [lia|]. intros H. exfalso.
      assert (~ In c s) by tauto. apply IH in H0. lia.
Qed.

(** With a colon in the image, the repository is what stands before the
    first colon. *)
Lemma imageWithoutTag_colon (image : jsstring) :
  (0 <= indexOf COLON image)%Z ->
  imageWithoutTag image = firstn (Z.to_nat (indexOf COLON image)) image.
Proof.
  intros H. unfold imageWithoutTag, substring.
  destruct (indexOf_firstn COLON image H) as (t & Ht & _).
  assert (Hlen : (indexOf COLON image < Z.of_nat (List.length image))%Z).
  { rewrite Ht at 2. rewrite length_app, length_firstn. simpl.
    assert (Z.to_nat (indexOf COLON image) <= List.length image)%nat.
    { destruct (Nat.le_gt_cases (Z.to_nat (indexOf COLON image)) (List.length image));
        [assumption|].
      exfalso. rewrite firstn_all2 in Ht by lia.
      apply (f_equal (@List.length _)) in Ht. rewrite length_app in Ht. simpl in Ht. lia. }
    lia. }
  replace (Z.min (Z.max 0 0) (Z.of_nat (List.length image))) with 0%Z by lia.
  replace (Z.min (Z.max (indexOf COLON image) 0) (Z.of_nat (List.length image)))
    with (indexOf COLON image) by lia.
  replace (Z.max 0 (indexOf COLON image)) with (indexOf COLON image) by lia.
  replace (Z.min 0 (indexOf COLON image)) with 0%Z by lia.
  simpl. f_equal. lia.
Qed.

(** C5 at an image without a colon, here the example that the action's
    metadata gives for its [image] input: [indexOf] answers -1,
    [substring(0, -1)] is [substring(0, 0)], and the repository computed
    is the empty string, not the reference. *)
Theorem imageWithoutTag_no_colon :
  indexOf COLON (lit "docker.pkg.github.com/username/repo/master") = (-1)%Z
  /\ imageWithoutTag (lit "docker.pkg.github.com/username/repo/master") = []
  /\ imageWithoutTag (lit "docker.pkg.github.com/username/repo/master")
     <> lit "docker.pkg.github.com/username/repo/master".
Proof. split; [reflexivity | split; [reflexivity | discriminate]]. Qed.

(* ===================================================================== *)
(** ** The matcher on literals, classes and stars *)
(* ===================================================================== *)

Lemma lastChar_app (t u : jsstring) (b : option char) :
  lastChar (t ++ u) b = lastChar u (lastChar t b).
Proof. unfold lastChar. apply fold_left_app. Qed.

Lemma stripPrefix_app (t s r : jsstring) :
  stripPrefix t s = Some r <-> s = t ++ r.
Proof.
  revert s; induction t as [|a t IH]; intros s; simpl.
  - split; [intros [= ->]; reflexivity | intros ->; reflexivity].
  - destruct s as [|b s]; [split; discriminate|].
    destruct (a =? b)%N eqn:E.
    + apply N.eqb_eq in E; subst. rewrite IH. split; [intros ->; reflexivity|].
      intros [= ->]. reflexivity.
    + apply N.eqb_neq in E. split; [discriminate|]. intros [= -> _]. congruence.
Qed.

Lemma stripPrefix_refl (t r : jsstring) : stripPrefix t (t ++ r) = Some r.
Proof. apply stripPrefix_app. reflexivity. Qed.

Lemma span_app (p : char -> bool) (s : jsstring) :
  s = fst (span p s) ++ snd (span p s).
Proof.
  induction s as [|ch s IH]; simpl; [reflexivity|].
  destruct (p ch); [|reflexivity].
  destruct (span p s) as [w r]. simpl in *. f_equal. exact IH.
Qed.

Lemma span_all (p : char -> bool) (s : jsstring) :
  forallb p (fst (span p s)) = true.
Proof.
  induction s as [|ch s IH]; simpl; [reflexivity|].
  destruct (p ch) eqn:E; [|reflexivity].
  destruct (span p s) as [w r]. simpl in *. rewrite E. exact IH.
Qed.

Lemma span_stop (p : char -> bool) (s : jsstring) :
  match snd (span p s) with
  | ch :: _ => p ch = false
  | [] => True
  end.
Proof.
  induction s as [|ch s IH]; simpl; [exact I|].
  destruct (p ch) eqn:E; [|exact E].
  destruct (span p s) as [w r]. exact IH.
Qed.

(** A run of [p] followed by a text that does not start with [p]. *)
Lemma span_intro (p : char -> bool) (w r : jsstring) :
  forallb p w = true ->
  match r with ch :: _ => p ch = false | [] => True end ->
  span p (w ++ r) = (w, r).
Proof.
  intros Hw Hr. induction w as [|ch w IH]; simpl.
  - destruct r as [|ch r]; [reflexivity|]. simpl. rewrite Hr. reflexivity.
  - simpl in Hw. apply andb_true_iff in Hw. destruct Hw as [Hch Hw].
    rewrite Hch, (IH Hw). reflexivity.
Qed.

Lemma matcher_literal (t : jsstring) (x : State) (c : Continuation) :
  matcher (literal t) x c
  = match stripPrefix t (rest x) with
    | Some r => c (mkState (endIndex x + List.length t) (lastChar t (prev x)) r (captures x))
    | None => None
    end.
Proof.
  revert x; induction t as [|a t IH]; intros x.
  - simpl. rewrite Nat.add_0_r. destruct x; reflexivity.
  - change (literal (a :: t)) with (Seq (Chr (N.eqb a)) (literal t)).
    cbn [matcher stripPrefix]. destruct (rest x) as [|b s]; [reflexivity|].
    destruct (a =? b)%N eqn:E; [|reflexivity].
    rewrite IH. cbn [rest endIndex prev captures List.length lastChar fold_left].
    apply N.eqb_eq in E; subst b.
    replace (S (endIndex x) + List.length t)%nat
      with (endIndex x + S (List.length t))%nat by lia.
    reflexivity.
Qed.

Lemma repeat_star_chr (p : char -> bool) (c : Continuation) (n : nat) (x : State) :
  (List.length (rest x) <= n)%nat ->
  repeatMatcher (matcher (Chr p)) [] n x c
  = starChr p c (endIndex x) (prev x) (rest x) (captures x).
Proof.
  revert x; induction n as [|n IH]; intros x Hn.
  - destruct x as [i b s caps]. simpl in *. destruct s; [reflexivity | simpl in Hn; lia].
  - destruct x as [i b s caps]. cbn [repeatMatcher resetCaptures fold_left matcher rest].
    destruct s as [|ch s]; [reflexivity|].
    cbn [starChr endIndex prev rest captures]. destruct (p ch); [|reflexivity].
    replace (S i =? i)%nat with false by (symmetry; apply Nat.eqb_neq; lia).
    rewrite IH by (simpl in *; lia). reflexivity.
Qed.

Lemma matcher_star_chr (p : char -> bool) (x : State) (c : Continuation) :
  matcher (Star (Chr p)) x c
  = starChr p c (endIndex x) (prev x) (rest x) (captures x).
Proof. apply repeat_star_chr. constructor. Qed.

(** The star is greedy: when the continuation accepts the longest run,
    that is the match. *)
Lemma starChr_longest (p : char -> bool) (c : Continuation) (i : nat)
    (b : option char) (s : jsstring) (caps : list (option jsstring)) (z : State) :
  c (mkState (i + List.length (fst (span p s))) (lastChar (fst (span p s)) b)
             (snd (span p s)) caps) = Some z ->
  starChr p c i b s caps = Some z.
Proof.
  revert i b; induction s as [|ch s IH]; intros i b; simpl.
  - rewrite Nat.add_0_r. auto.
  - destruct (p ch).
    + destruct (span p s) as [w r] eqn:E. simpl in *. intros H.
      rewrite (IH (S i) (Some ch)); [reflexivity|].
      rewrite <- H. do 2 f_equal. lia.
    + simpl. rewrite Nat.add_0_r. auto.
Qed.

(** When the continuation rejects every text that starts inside the run,
    only the longest run is left to it. *)
Lemma starChr_run (p : char -> bool) (c : Continuation) (i : nat)
    (b : option char) (s : jsstring) (caps : list (option jsstring)) :
  (forall j b' ch s', p ch = true -> c (mkState j b' (ch :: s') caps) = None) ->
  starChr p c i b s caps
  = c (mkState (i + List.length (fst (span p s))) (lastChar (fst (span p s)) b)
               (snd (span p s)) caps).
Proof.
  intros Hc. revert i b; induction s as [|ch s IH]; intros i b; simpl.
  - rewrite Nat.add_0_r. reflexivity.
  - destruct (p ch) eqn:E.
    + rewrite IH. destruct (span p s) as [w r]. simpl.
      replace (i + S (List.length w))%nat with (S (i + List.length w))%nat by lia.
      match goal with
      | |- match ?y with Some _ => _ | None => _ end = _ => destruct y
      end; [reflexivity|]. apply Hc, E.
    + simpl. rewrite Nat.add_0_r. reflexivity.
Qed.

Lemma matcher_opt_chr (p : char -> bool) (x : State) (c : Continuation) :
  matcher (Opt (Chr p)) x c
  = match rest x with
    | ch :: s' =>
        if p ch then
          match c (mkState (S (endIndex x)) (Some ch) s' (captures x)) with
          | Some z => Some z
          | None => c x
          end
        else c x
    | [] => c x
    end.
Proof.
  destruct x as [i b s caps].
  cbn [matcher repeatMatcher groupsOf resetCaptures fold_left rest endIndex prev captures].
  destruct s as [|ch s]; [reflexivity|]. destruct (p ch); [|reflexivity].
  replace (S i =? i)%nat with false by (symmetry; apply Nat.eqb_neq; lia).
  reflexivity.
Qed.

(* ===================================================================== *)
(** ** The escaping step *)
(* ===================================================================== *)

Lemma sub_succ_self (i : nat) : (S i - i = 1)%nat.
Proof. lia. Qed.

Lemma escape_scan (p : char -> bool) (str s : jsstring) (b : option char) (i : nat)
    (f : char -> jsstring) :
  (forall c pos, p c = true ->
     getSubstitution [c] str pos [] [BACKSLASH; DOLLAR; 38%N] = f c) ->
  (forall c, p c = false -> f c = [c]) ->
  flat_map (fun piece =>
              match piece with
              | Copy c => [c]
              | Matched m =>
                  getSubstitution (matched m) str (index m) (groups m)
                                  [BACKSLASH; DOLLAR; 38%N]
              end)
           (scan (Chr p) 0 b 0 i s)
  = flat_map f s.
Proof.
  intros Hsub Hcopy. revert b i; induction s as [|c s IH]; intros b i.
  - reflexivity.
  - cbn [scan]. unfold matchAt. cbn [matcher rest repeat].
    destruct (p c) eqn:E.
    + cbn [endIndex captures]. rewrite sub_succ_self.
      cbn [firstn matched List.length flat_map index groups].
      rewrite IH. rewrite (Hsub c i E). reflexivity.
    + cbn [flat_map]. rewrite IH, (Hcopy c E). reflexivity.
Qed.

Lemma escapeRegExp_chars (s : jsstring) : escapeRegExp s = flat_map escapeChar s.
Proof.
  unfold escapeRegExp, replace. apply escape_scan.
  - intros c pos Hc. unfold escapeChar. rewrite Hc. reflexivity.
  - intros c Hc. unfold escapeChar. rewrite Hc. reflexivity.
Qed.

(** The pattern of the escaped repository is the repository as a literal. *)
Lemma escapedAtoms_escape (s : jsstring) :
  escapedAtoms (flat_map escapeChar s) = literal s.
Proof.
  induction s as [|c s IH]; [reflexivity|].
  cbn [flat_map]. unfold escapeChar at 1. destruct (isRegExpSpecial c) eqn:E.
  - cbn [app escapedAtoms]. rewrite N.eqb_refl. rewrite IH. reflexivity.
  - cbn [app escapedAtoms].
    destruct (c =? BACKSLASH)%N eqn:Eb.
    + apply N.eqb_eq in Eb; subst c. discriminate E.
    + rewrite IH. reflexivity.
Qed.

(* ===================================================================== *)
(** ** The image pattern, group by group *)
(* ===================================================================== *)

Lemma firstn_length_app (A : Type) (t r : list A) :
  firstn (List.length t) (t ++ r) = t.
Proof.
  rewrite firstn_app, Nat.sub_diag, firstn_all. simpl. apply app_nil_r.
Qed.

Lemma add_sub_self (i n : nat) : (i + n - i = n)%nat.
Proof. lia. Qed.

Lemma matcher_seq (r1 r2 : re) (x : State) (c : Continuation) :
  matcher (Seq r1 r2) x c = matcher r1 x (fun y => matcher r2 y c).
Proof. reflexivity. Qed.

Lemma matcher_group (n : nat) (r : re) (x : State) (c : Continuation) :
  matcher (Group n r) x c
  = matcher r x (fun y =>
      c (setCapture n (Some (firstn (endIndex y - endIndex x) (rest x))) y)).
Proof. reflexivity. Qed.

Lemma matcher_chr (p : char -> bool) (x : State) (c : Continuation) :
  matcher (Chr p) x c
  = match rest x with
    | ch :: s' =>
        if p ch then c (mkState (S (endIndex x)) (Some ch) s' (captures x)) else None
    | [] => None
    end.
Proof. reflexivity. Qed.

Lemma matcher_lineStart (x : State) (c : Continuation) :
  matcher LineStart x c = if lineStart (prev x) then c x else None.
Proof. simpl. unfold lineStart. destruct (prev x); reflexivity. Qed.

Lemma matcher_opt_group (n : nat) (r : re) (x : State) (c : Continuation) :
  matcher (Opt (Group n r)) x c
  = match matcher (Group n r) (resetCaptures (n :: groupsOf r) x)
            (fun y => if (endIndex y =? endIndex x)%nat then None else c y) with
    | Some z => Some z
    | None => c x
    end.
Proof. reflexivity. Qed.

(** Group 3: an optional quote; the match always succeeds. *)
Lemma matcher_group3 (i : nat) (b : option char) (s : jsstring)
    (c1 c2 c3 : option jsstring) :
  matcher (Group 3 (Opt (Chr isQuote))) (mkState i b s [c1; c2; c3]) Some
  = Some (mkState (i + List.length (fst (optQuote s)))
                  (lastChar (fst (optQuote s)) b)
                  (snd (optQuote s))
                  [c1; c2; Some (fst (optQuote s))]).
Proof.
  rewrite matcher_group, matcher_opt_chr.
  cbn [rest endIndex prev captures]. unfold optQuote.
  destruct s as [|ch s].
  - rewrite Nat.sub_diag. unfold setCapture. cbn. rewrite Nat.add_0_r. reflexivity.
  - destruct (isQuote ch).
    + rewrite sub_succ_self. unfold setCapture. cbn.
      replace (i + 1)%nat with (S i) by lia. reflexivity.
    + rewrite Nat.sub_diag. unfold setCapture. cbn. rewrite Nat.add_0_r. reflexivity.
Qed.

(** Groups 2 and 3 after the repository: they always match. *)
Lemma matcher_tail (i : nat) (b : option char) (s : jsstring) (c1 : option jsstring) :
  matcher (Seq (Opt (Group 2 (Seq (Chr (N.eqb COLON))
                                  (Star (Chr (fun c => negb (isQuote c)))))))
               (Group 3 (Opt (Chr isQuote))))
          (mkState i b s [c1; None; None]) Some
  = Some (mkState
            (i + List.length (optText (fst (tagMatch s)))
               + List.length (fst (optQuote (snd (tagMatch s)))))
            (lastChar (optText (fst (tagMatch s))
                       ++ fst (optQuote (snd (tagMatch s)))) b)
            (snd (optQuote (snd (tagMatch s))))
            [c1; fst (tagMatch s); Some (fst (optQuote (snd (tagMatch s))))]).
Proof.
  rewrite matcher_seq, matcher_opt_group, matcher_group, matcher_seq, matcher_chr.
  cbn [groupsOf app resetCaptures fold_left].
  unfold setCapture at 1. cbn [endIndex prev rest captures Nat.sub setNth].
  unfold tagMatch. destruct s as [|ch s].
  - rewrite matcher_group3. cbn. rewrite !Nat.add_0_r. reflexivity.
  - destruct (COLON =? ch)%N eqn:E.
    + rewrite matcher_star_chr. cbn [endIndex prev rest captures].
      pose proof (span_app (fun c => negb (isQuote c)) s) as Hs.
      destruct (span (fun c => negb (isQuote c)) s) as [t r] eqn:Esp.
      cbn [fst snd] in *.
      erewrite starChr_longest; [reflexivity|].
      rewrite Esp. cbn [fst snd endIndex prev rest captures].
      unfold setCapture. cbn [endIndex prev rest captures Nat.sub setNth].
      rewrite matcher_group3.
      replace (S i + List.length t =? i)%nat with false
        by (symmetry; apply Nat.eqb_neq; lia).
      replace (S i + List.length t - i)%nat with (List.length (ch :: t))
        by (cbn [List.length]; lia).
      rewrite Hs. change (ch :: t ++ r) with ((ch :: t) ++ r).
      rewrite firstn_length_app. cbn [optText List.length].
      rewrite lastChar_app. cbn [lastChar fold_left].
      replace (i + S (List.length t))%nat with (S i + List.length t)%nat by lia.
      reflexivity.
    + rewrite matcher_group3. cbn [optText fst snd List.length app].
      rewrite !Nat.add_0_r. reflexivity.
Qed.

Lemma whiteSpace_not_quote (ch : char) : isWhiteSpace ch = true -> isQuote ch = false.
Proof.
  intros H. unfold isQuote. destruct (ch =? QUOTE)%N eqn:E1.
  - apply N.eqb_eq in E1; subst. discriminate H.
  - destruct (ch =? DQUOTE)%N eqn:E2; [|reflexivity].
    apply N.eqb_eq in E2; subst. discriminate H.
Qed.

Lemma stripPrefix_image_ws (ch : char) (s : jsstring) :
  isWhiteSpace ch = true -> stripPrefix IMAGE_COLON (ch :: s) = None.
Proof.
  intros H. change IMAGE_COLON with (105%N :: lit "mage:"). cbn [stripPrefix].
  destruct (105 =? ch)%N eqn:E; [|reflexivity].
  apply N.eqb_eq in E; subst. discriminate H.
Qed.

Lemma stripPrefix_goodRepo (R : jsstring) (ch : char) (s : jsstring) :
  goodRepo R = true -> isWhiteSpace ch || isQuote ch = true ->
  stripPrefix R (ch :: s) = None.
Proof.
  destruct R as [|r0 R]; [discriminate|]. cbn [goodRepo stripPrefix].
  intros HR Hch. destruct (r0 =? ch)%N eqn:E; [|reflexivity].
  apply N.eqb_eq in E; subst.
  apply andb_true_iff in HR. destruct HR as [H1 H2].
  apply negb_true_iff in H1, H2. rewrite H1, H2 in Hch. discriminate.
Qed.

Lemma setCapture_1 (v : option jsstring) (e : nat) (p : option char) (r : jsstring)
    (c1 c2 c3 : option jsstring) :
  setCapture 1 v (mkState e p r [c1; c2; c3]) = mkState e p r [v; c2; c3].
Proof. reflexivity. Qed.

(** The whole pattern: a line start, the head, then groups 2 and 3. *)
Lemma matcher_image (R : jsstring) (i : nat) (b : option char) (s : jsstring) :
  goodRepo R = true ->
  matcher (imageRegExp (escapeRegExp R)) (mkState i b s [None; None; None]) Some
  = if lineStart b then
      match headMatch R s with
      | Some (P, s5) =>
          matcher tagAndQuote
            (mkState (i + List.length (P ++ R)) (lastChar (P ++ R) b) s5
                     [Some P; None; None]) Some
      | None => None
      end
    else None.
Proof.
  intros HR. unfold imageRegExp.
  rewrite escapeRegExp_chars, escapedAtoms_escape.
  fold tagAndQuote.
  rewrite matcher_seq, matcher_lineStart. cbn [prev].
  destruct (lineStart b); [|reflexivity].
  rewrite matcher_seq, matcher_group, !matcher_seq, matcher_star_chr.
  cbn [endIndex prev rest captures].
  unfold headMatch.
  pose proof (span_app isWhiteSpace s) as Hs1.
  destruct (span isWhiteSpace s) as [w1 s1] eqn:E1. cbn [fst snd] in Hs1.
  rewrite starChr_run.
  2:{ intros j b' ch s' Hch. cbv beta. rewrite ?matcher_seq, matcher_literal. cbn [rest].
      rewrite (stripPrefix_image_ws ch s' Hch). reflexivity. }
  rewrite E1. cbn [fst snd].
  rewrite ?matcher_seq, matcher_literal. cbn [rest endIndex prev captures].
  destruct (stripPrefix IMAGE_COLON s1) as [s2|] eqn:E2; [|reflexivity].
  apply stripPrefix_app in E2.
  rewrite matcher_seq, matcher_star_chr. cbn [endIndex prev rest captures].
  pose proof (span_app isWhiteSpace s2) as Hs2.
  destruct (span isWhiteSpace s2) as [w2 s3] eqn:E3. cbn [fst snd] in Hs2.
  rewrite starChr_run.
  2:{ intros j b' ch s' Hch. cbv beta. rewrite ?matcher_seq, matcher_opt_chr. cbn [rest].
      rewrite (whiteSpace_not_quote ch Hch).
      rewrite matcher_seq, matcher_literal, setCapture_1. cbn [rest].
      rewrite (stripPrefix_goodRepo R ch s' HR); [reflexivity|].
      rewrite Hch. reflexivity. }
  rewrite E3. cbn [fst snd].
  rewrite matcher_opt_chr. cbn [rest endIndex prev captures].
  assert (HP : forall q s4, s3 = q ++ s4 ->
             firstn (i + List.length w1 + List.length IMAGE_COLON + List.length w2
                     + List.length q - i) s = w1 ++ IMAGE_COLON ++ w2 ++ q).
  { intros q s4 Hq. rewrite Hs1, E2, Hs2, Hq.
    replace (i + List.length w1 + List.length IMAGE_COLON + List.length w2
             + List.length q - i)%nat
      with (List.length (w1 ++ IMAGE_COLON ++ w2 ++ q))
      by (rewrite !length_app; lia).
    rewrite !app_assoc. rewrite firstn_length_app. reflexivity. }
  unfold optQuote. destruct s3 as [|ch s'].
  - rewrite matcher_seq, matcher_literal. rewrite setCapture_1.
    cbn [rest endIndex prev captures].
    destruct (stripPrefix R []) as [s5|] eqn:E5; [|reflexivity].
    specialize (HP [] [] eq_refl). cbn [List.length] in HP.
    rewrite Nat.add_0_r in HP. rewrite HP.
    rewrite !lastChar_app, !length_app. cbn [List.length].
    rewrite !Nat.add_0_r, !Nat.add_assoc. reflexivity.
  - destruct (isQuote ch) eqn:Eq.
    + rewrite !matcher_seq, !matcher_literal. rewrite ?setCapture_1.
      cbn [rest endIndex prev captures].
      rewrite (stripPrefix_goodRepo R ch s' HR) by (rewrite Eq; apply orb_true_r).
      destruct (stripPrefix R s') as [s5|] eqn:E5; [|reflexivity].
      specialize (HP [ch] s' eq_refl). cbn [List.length] in HP.
      replace (S (i + List.length w1 + List.length IMAGE_COLON + List.length w2) - i)%nat
        with (i + List.length w1 + List.length IMAGE_COLON + List.length w2 + 1 - i)%nat
        by lia.
      rewrite HP.
      match goal with
      | |- match ?y with Some _ => _ | None => _ end = ?rhs =>
          assert (Hy : y = rhs); [|rewrite Hy; destruct rhs; reflexivity]
      end.
      rewrite !lastChar_app, !length_app. cbn [List.length lastChar fold_left].
      do 2 f_equal. lia.
    + rewrite matcher_seq, matcher_literal. rewrite ?setCapture_1.
      cbn [rest endIndex prev captures].
      destruct (stripPrefix R (ch :: s')) as [s5|] eqn:E5; [|reflexivity].
      specialize (HP [] (ch :: s') eq_refl). cbn [List.length] in HP.
      rewrite Nat.add_0_r in HP. rewrite HP.
      rewrite !lastChar_app, !length_app. cbn [List.length].
      rewrite !Nat.add_0_r, !Nat.add_assoc. reflexivity.
Qed.

Lemma optQuote_app (s : jsstring) : s = fst (optQuote s) ++ snd (optQuote s).
Proof.
  destruct s as [|ch s]; [reflexivity|]. unfold optQuote.
  destruct (isQuote ch); reflexivity.
Qed.

Lemma tagMatch_app (s : jsstring) :
  s = optText (fst (tagMatch s)) ++ snd (tagMatch s).
Proof.
  destruct s as [|ch s]; [reflexivity|]. unfold tagMatch.
  destruct (COLON =? ch)%N; [|reflexivity].
  pose proof (span_app (fun c => negb (isQuote c)) s) as H.
  destruct (span _ s) as [t r]. simpl in *. f_equal. exact H.
Qed.

Lemma headMatch_app (R s P s5 : jsstring) :
  headMatch R s = Some (P, s5) -> s = P ++ R ++ s5.
Proof.
  unfold headMatch.
  pose proof (span_app isWhiteSpace s) as H1.
  destruct (span isWhiteSpace s) as [w1 s1]. cbn [fst snd] in H1.
  destruct (stripPrefix IMAGE_COLON s1) as [s2|] eqn:E2; [|discriminate].
  apply stripPrefix_app in E2.
  pose proof (span_app isWhiteSpace s2) as H3.
  destruct (span isWhiteSpace s2) as [w2 s3]. cbn [fst snd] in H3.
  pose proof (optQuote_app s3) as H4.
  destruct (optQuote s3) as [q s4]. cbn [fst snd] in H4.
  destruct (stripPrefix R s4) as [s5'|] eqn:E5; [|discriminate].
  apply stripPrefix_app in E5. intros H. injection H as HP Hs5.
  rewrite <- HP, <- Hs5, H1, E2, H3, H4, E5.
  change (105%N :: 109%N :: 97%N :: 103%N :: 101%N :: 58%N :: w2 ++ q)
    with (IMAGE_COLON ++ w2 ++ q).
  rewrite <- !app_assoc. reflexivity.
Qed.

Lemma tryMatch_app (R s P Q s7 : jsstring) (G : option jsstring) :
  tryMatch R s = Some (P, G, Q, s7) -> s = P ++ R ++ optText G ++ Q ++ s7.
Proof.
  unfold tryMatch. destruct (headMatch R s) as [[P' s5]|] eqn:Eh; [|discriminate].
  apply headMatch_app in Eh.
  pose proof (tagMatch_app s5) as Ht.
  destruct (tagMatch s5) as [G' s6]. cbn [fst snd] in Ht.
  pose proof (optQuote_app s6) as Hq.
  destruct (optQuote s6) as [Q' s7']. cbn [fst snd] in Hq.
  intros [= <- <- <- <-]. rewrite Eh, Ht, Hq. reflexivity.
Qed.

(** One [exec] of the image pattern at index [i], in front of which
    stands [b]: a match needs a line start, and is then what [tryMatch]
    reads. *)
Lemma matchAt_image (R : jsstring) (b : option char) (i : nat) (s : jsstring) :
  goodRepo R = true ->
  matchAt (imageRegExp (escapeRegExp R)) 3 b i s
  = if lineStart b then
      match tryMatch R s with
      | Some (P, G, Q, s7) =>
          Some (mkMatch i (P ++ R ++ optText G ++ Q) [Some P; G; Some Q])
      | None => None
      end
    else None.
Proof.
  intros HR. unfold matchAt. cbn [repeat]. rewrite (matcher_image R i b s HR).
  destruct (lineStart b); [|reflexivity].
  destruct (tryMatch R s) as [[[[P G] Q] s7]|] eqn:Et.
  - pose proof (tryMatch_app R s P Q s7 G Et) as Hs.
    unfold tryMatch in Et.
    destruct (headMatch R s) as [[P' s5]|]; [|discriminate].
    unfold tagAndQuote. rewrite matcher_tail.
    destruct (tagMatch s5) as [G' s6]. cbn [fst snd].
    destruct (optQuote s6) as [Q' s7']. cbn [fst snd endIndex captures].
    injection Et as -> -> -> ->.
    f_equal. f_equal.
    replace (i + List.length (P ++ R) + List.length (optText G) + List.length Q - i)%nat
      with (List.length (P ++ R ++ optText G ++ Q))
      by (rewrite !length_app; lia).
    rewrite Hs at 1.
    replace (P ++ R ++ optText G ++ Q ++ s7)
      with ((P ++ R ++ optText G ++ Q) ++ s7)
      by (rewrite <- !app_assoc; reflexivity).
    apply firstn_length_app.
  - unfold tryMatch in Et.
    destruct (headMatch R s) as [[P' s5]|]; [|reflexivity].
    destruct (tagMatch s5) as [G' s6]. destruct (optQuote s6). discriminate.
Qed.

(* ===================================================================== *)
(** ** The replacement template *)
(* ===================================================================== *)

Lemma getSubstitution_plain (matched str : jsstring) (position : nat)
    (caps : list (option jsstring)) (t rest : jsstring) :
  forallb (fun c => negb (c =? DOLLAR)%N) t = true ->
  getSubstitution matched str position caps (t ++ rest)
  = t ++ getSubstitution matched str position caps rest.
Proof.
  induction t as [|c t IH]; intros H; [reflexivity|].
  cbn [forallb] in H. apply andb_true_iff in H. destruct H as [Hc Ht].
  cbn [app getSubstitution]. rewrite Hc. f_equal. apply IH, Ht.
Qed.

(** [`$1${image}$3`], for three groups and an image without a dollar
    sign: group 1, the image, group 3. *)
Lemma getSubstitution_image (matched str : jsstring) (position : nat)
    (c1 c2 c3 : option jsstring) (image : jsstring) :
  forallb (fun c => negb (c =? DOLLAR)%N) image = true ->
  getSubstitution matched str position [c1; c2; c3]
    ([DOLLAR; 49%N] ++ image ++ [DOLLAR; 51%N])
  = optText c1 ++ image ++ optText c3.
Proof.
  intros H.
  assert (Hrest : getSubstitution matched str position [c1; c2; c3]
                    (image ++ [DOLLAR; 51%N]) = image ++ optText c3).
  { rewrite getSubstitution_plain by exact H. f_equal.
    cbn. destruct c3; cbn; rewrite ?app_nil_r; reflexivity. }
  change ([DOLLAR; 49%N] ++ image ++ [DOLLAR; 51%N])
    with (DOLLAR :: 49%N :: (image ++ [DOLLAR; 51%N])).
  cbn [getSubstitution].
  change (negb (DOLLAR =? DOLLAR)%N) with false. cbv iota.
  change (49 =? DOLLAR)%N with false. change (49 =? 96)%N with false.
  change (49 =? 38)%N with false. change (49 =? 39)%N with false.
  change (isDigit 49%N) with true. cbv iota.
  change (digitValue 49%N) with 1%nat.
  change ((1 <=? 1)%nat && (1 <=? List.length [c1; c2; c3])%nat) with true. cbv iota.
  change (captureText [c1; c2; c3] 1) with (optText c1).
  fold (getSubstitution matched str position [c1; c2; c3]).
  rewrite Hrest.
  destruct (image ++ [DOLLAR; 51%N]) as [|e t3] eqn:E; [reflexivity|].
  destruct (isDigit e) eqn:Ed; [|reflexivity].
  assert (Hidx : (List.length [c1; c2; c3] <? 10 * 1 + digitValue e)%nat = true).
  { apply Nat.ltb_lt. cbn [List.length]. lia. }
  rewrite Hidx. reflexivity.
Qed.

(* ===================================================================== *)
(** ** The rewrite as a walk over the document *)
(* ===================================================================== *)

Lemma tryMatch_nil (R : jsstring) : tryMatch R [] = None.
Proof. reflexivity. Qed.

Lemma goodRepo_length (R : jsstring) : goodRepo R = true -> (0 < List.length R)%nat.
Proof. destruct R; [discriminate | simpl; lia]. Qed.

(** [replace] with the image pattern and the image template is the walk
    [rewriteFrom]. *)
Lemma scan_rewriteFrom (image R str : jsstring) :
  goodRepo R = true ->
  forallb (fun c => negb (c =? DOLLAR)%N) image = true ->
  forall (s : jsstring) (b : option char) (k i : nat),
    flat_map (fun piece =>
                match piece with
                | Copy c => [c]
                | Matched m =>
                    getSubstitution (matched m) str (index m) (groups m)
                      ([DOLLAR; 49%N] ++ image ++ [DOLLAR; 51%N])
                end)
             (scan (imageRegExp (escapeRegExp R)) 3 b k i s)
    = rewriteFrom image R b k s.
Proof.
  intros HR Himg. induction s as [|c s IH]; intros b k i.
  - cbn [scan rewriteFrom]. destruct k; [|reflexivity].
    rewrite (matchAt_image R b i [] HR), tryMatch_nil.
    destruct (lineStart b); reflexivity.
  - cbn [scan rewriteFrom]. destruct k as [|k]; [|apply IH].
    rewrite (matchAt_image R b i (c :: s) HR).
    destruct (lineStart b); [|cbn [flat_map app]; rewrite IH; reflexivity].
    destruct (tryMatch R (c :: s)) as [[[[P G] Q] s7]|] eqn:Et;
      [|cbn [flat_map app]; rewrite IH; reflexivity].
    cbn [matched].
    destruct (List.length (P ++ R ++ optText G ++ Q)) as [|n] eqn:El.
    + exfalso. pose proof (goodRepo_length R HR). rewrite !length_app in El. lia.
    + cbn [flat_map matched index groups]. rewrite IH.
      rewrite (getSubstitution_image _ _ _ (Some P) G (Some Q) image Himg).
      cbn [optText]. rewrite <- !app_assoc.
      replace (S n - 1)%nat with n by lia. reflexivity.
Qed.

Lemma isNil_length (s : jsstring) : isNil s = (List.length s =? 0)%nat.
Proof. destruct s; reflexivity. Qed.

(** The matches [replace] finds are closed exactly when the walk's are. *)
Lemma scan_closedFrom (R : jsstring) (len : nat) :
  goodRepo R = true ->
  forall (s : jsstring) (b : option char) (k i : nat),
    (i + List.length s = len)%nat ->
    forallb (closedMatch len)
            (matchesOf (scan (imageRegExp (escapeRegExp R)) 3 b k i s))
    = closedFrom R b k s.
Proof.
  intros HR. unfold matchesOf. induction s as [|c s IH]; intros b k i Hlen.
  - cbn [scan closedFrom]. destruct k; [|reflexivity].
    rewrite (matchAt_image R b i [] HR), tryMatch_nil.
    destruct (lineStart b); reflexivity.
  - cbn [List.length] in Hlen.
    cbn [scan closedFrom]. destruct k as [|k]; [|apply IH; lia].
    rewrite (matchAt_image R b i (c :: s) HR).
    destruct (lineStart b); [|cbn [flat_map app]; apply IH; lia].
    destruct (tryMatch R (c :: s)) as [[[[P G] Q] s7]|] eqn:Et;
      [|cbn [flat_map app]; apply IH; lia].
    cbn [matched].
    pose proof (tryMatch_app R (c :: s) P Q s7 G Et) as Hs.
    destruct (List.length (P ++ R ++ optText G ++ Q)) as [|n] eqn:El.
    + exfalso. pose proof (goodRepo_length R HR). rewrite !length_app in El. lia.
    + cbn [flat_map app forallb]. rewrite IH by lia.
      replace (S n - 1)%nat with n by lia. f_equal.
      unfold closedMatch. cbn [groups index matched].
      change (captureText [Some P; G; Some Q] 3) with Q. f_equal.
      rewrite isNil_length.
      apply (f_equal (@List.length _)) in Hs.
      rewrite !length_app in Hs. cbn [List.length] in Hs.
      rewrite !length_app in El.
      rewrite !length_app.
      destruct (List.length s7 =? 0)%nat eqn:E7.
      * apply Nat.eqb_eq in E7. apply Nat.eqb_eq. lia.
      * apply Nat.eqb_neq in E7. apply Nat.eqb_neq. lia.
Qed.

Lemma lastChar_cons (c : char) (t : jsstring) (b : option char) :
  lastChar (c :: t) b = lastChar t (Some c).
Proof. reflexivity. Qed.

(** Passing over the code units of a match. *)
Lemma rewriteFrom_skip (image R t s : jsstring) (b : option char) :
  rewriteFrom image R b (List.length t) (t ++ s)
  = rewriteFrom image R (lastChar t b) 0 s.
Proof.
  revert b; induction t as [|c t IH]; intros b; [reflexivity|].
  cbn [List.length app rewriteFrom]. rewrite IH. reflexivity.
Qed.

Lemma closedFrom_skip (R t s : jsstring) (b : option char) :
  closedFrom R b (List.length t) (t ++ s) = closedFrom R (lastChar t b) 0 s.
Proof.
  revert b; induction t as [|c t IH]; intros b; [reflexivity|].
  cbn [List.length app closedFrom]. rewrite IH. reflexivity.
Qed.

(** The three equations of the walk. *)
Lemma rewriteFrom_copy (image R : jsstring) (b : option char) (c : char) (s : jsstring) :
  (if lineStart b then tryMatch R (c :: s) else None) = None ->
  rewriteFrom image R b 0 (c :: s) = c :: rewriteFrom image R (Some c) 0 s.
Proof. intros H. cbn [rewriteFrom]. rewrite H. reflexivity. Qed.

Lemma rewriteFrom_match (image R : jsstring) (b : option char) (s P Q s7 : jsstring)
    (G : option jsstring) :
  goodRepo R = true ->
  lineStart b = true ->
  tryMatch R s = Some (P, G, Q, s7) ->
  rewriteFrom image R b 0 s
  = P ++ image ++ Q
    ++ rewriteFrom image R (lastChar (P ++ R ++ optText G ++ Q) b) 0 s7.
Proof.
  intros HR Hb Et. pose proof (tryMatch_app R s P Q s7 G Et) as Hs.
  destruct s as [|c s]; [rewrite tryMatch_nil in Et; discriminate|].
  cbn [rewriteFrom]. rewrite Hb, Et. do 3 f_equal.
  remember (P ++ R ++ optText G ++ Q) as M eqn:HM.
  assert (Hs' : c :: s = M ++ s7) by (rewrite Hs, HM, <- !app_assoc; reflexivity).
  destruct M as [|m M].
  - exfalso. pose proof (goodRepo_length R HR).
    apply (f_equal (@List.length _)) in HM. rewrite !length_app in HM.
    simpl in HM. lia.
  - injection Hs' as -> ->. cbn [List.length].
    replace (S (List.length M) - 1)%nat with (List.length M) by lia.
    rewrite lastChar_cons.
    apply rewriteFrom_skip.
Qed.

Lemma closedFrom_copy (R : jsstring) (b : option char) (c : char) (s : jsstring) :
  (if lineStart b then tryMatch R (c :: s) else None) = None ->
  closedFrom R b 0 (c :: s) = closedFrom R (Some c) 0 s.
Proof. intros H. cbn [closedFrom]. rewrite H. reflexivity. Qed.

Lemma closedFrom_match (R : jsstring) (b : option char) (s P Q s7 : jsstring)
    (G : option jsstring) :
  goodRepo R = true ->
  lineStart b = true ->
  tryMatch R s = Some (P, G, Q, s7) ->
  closedFrom R b 0 s
  = (negb (isNil Q) || isNil s7)
    && closedFrom R (lastChar (P ++ R ++ optText G ++ Q) b) 0 s7.
Proof.
  intros HR Hb Et. pose proof (tryMatch_app R s P Q s7 G Et) as Hs.
  destruct s as [|c s]; [rewrite tryMatch_nil in Et; discriminate|].
  cbn [closedFrom]. rewrite Hb, Et. f_equal.
  remember (P ++ R ++ optText G ++ Q) as M eqn:HM.
  assert (Hs' : c :: s = M ++ s7) by (rewrite Hs, HM, <- !app_assoc; reflexivity).
  destruct M as [|m M].
  - exfalso. pose proof (goodRepo_length R HR).
    apply (f_equal (@List.length _)) in HM. rewrite !length_app in HM.
    simpl in HM. lia.
  - injection Hs' as -> ->. cbn [List.length].
    replace (S (List.length M) - 1)%nat with (List.length M) by lia.
    rewrite lastChar_cons.
    apply closedFrom_skip.
Qed.

(* ===================================================================== *)
(** ** The head of the pattern reads the same before and after *)
(* ===================================================================== *)

Lemma quote_not_whiteSpace (ch : char) : isQuote ch = true -> isWhiteSpace ch = false.
Proof.
  intros H. destruct (isWhiteSpace ch) eqn:E; [|reflexivity].
  rewrite (whiteSpace_not_quote ch E) in H. discriminate.
Qed.

(** The shape of group 1. *)
Lemma headMatch_shape (R s P s5 : jsstring) :
  headMatch R s = Some (P, s5) ->
  exists w1 w2 q,
    P = w1 ++ IMAGE_COLON ++ w2 ++ q
    /\ forallb isWhiteSpace w1 = true
    /\ forallb isWhiteSpace w2 = true
    /\ (q = [] \/ exists ch, q = [ch] /\ isQuote ch = true).
Proof.
  unfold headMatch.
  pose proof (span_all isWhiteSpace s) as A1.
  destruct (span isWhiteSpace s) as [w1 s1]. cbn [fst] in A1.
  destruct (stripPrefix IMAGE_COLON s1) as [s2|]; [|discriminate].
  pose proof (span_all isWhiteSpace s2) as A2.
  destruct (span isWhiteSpace s2) as [w2 s3]. cbn [fst] in A2.
  assert (Hq : fst (optQuote s3) = []
               \/ exists ch, fst (optQuote s3) = [ch] /\ isQuote ch = true).
  { destruct s3 as [|ch s3]; [left; reflexivity|]. unfold optQuote.
    destruct (isQuote ch) eqn:E; [right; exists ch; auto | left; reflexivity]. }
  destruct (optQuote s3) as [q s4]. cbn [fst] in Hq.
  destruct (stripPrefix R s4); [|discriminate].
  intros H. injection H as HP _. exists w1, w2, q.
  change (105%N :: 109%N :: 97%N :: 103%N :: 101%N :: 58%N :: w2 ++ q)
    with (IMAGE_COLON ++ w2 ++ q) in HP.
  auto.
Qed.

(** Group 1 followed by the repository matches again, whatever follows. *)
Lemma headMatch_intro (R w1 w2 q t : jsstring) :
  goodRepo R = true ->
  forallb isWhiteSpace w1 = true ->
  forallb isWhiteSpace w2 = true ->
  (q = [] \/ exists ch, q = [ch] /\ isQuote ch = true) ->
  headMatch R ((w1 ++ IMAGE_COLON ++ w2 ++ q) ++ R ++ t)
  = Some (w1 ++ IMAGE_COLON ++ w2 ++ q, t).
Proof.
  intros HR H1 H2 Hq. unfold headMatch.
  destruct R as [|r0 R]; [discriminate|].
  cbn [goodRepo] in HR. apply andb_true_iff in HR. destruct HR as [Hr1 Hr2].
  apply negb_true_iff in Hr1, Hr2.
  rewrite <- !app_assoc.
  rewrite (span_intro isWhiteSpace w1 (IMAGE_COLON ++ w2 ++ q ++ (r0 :: R) ++ t) H1)
    by reflexivity.
  rewrite stripPrefix_refl.
  assert (Hnext : match q ++ (r0 :: R) ++ t with
                  | ch :: _ => isWhiteSpace ch = false
                  | [] => True
                  end).
  { destruct Hq as [-> | (ch & -> & Hch)]; [exact Hr1|].
    apply quote_not_whiteSpace, Hch. }
  rewrite (span_intro isWhiteSpace w2 (q ++ (r0 :: R) ++ t) H2 Hnext).
  assert (Hoq : optQuote (q ++ (r0 :: R) ++ t) = (q, (r0 :: R) ++ t)).
  { destruct Hq as [-> | (ch & -> & Hch)].
    - cbn [app optQuote]. rewrite Hr2. reflexivity.
    - cbn [app optQuote]. rewrite Hch. reflexivity. }
  rewrite Hoq, stripPrefix_refl. reflexivity.
Qed.

Lemma headMatch_stable (R s P s5 t : jsstring) :
  goodRepo R = true ->
  headMatch R s = Some (P, s5) ->
  headMatch R (P ++ R ++ t) = Some (P, t).
Proof.
  intros HR H. destruct (headMatch_shape R s P s5 H) as (w1 & w2 & q & -> & H1 & H2 & Hq).
  apply headMatch_intro; assumption.
Qed.

Lemma headMatch_headOK (R s : jsstring) : isSome (headMatch R s) = headOK R s.
Proof.
  unfold headMatch, headOK, stripThen, afterImageColon.
  destruct (span isWhiteSpace s) as [w1 s1]. cbn [snd].
  destruct (stripPrefix IMAGE_COLON s1) as [s2|]; [|reflexivity].
  destruct (span isWhiteSpace s2) as [w2 s3]. cbn [snd].
  destruct (optQuote s3) as [q s4]. cbn [snd].
  destruct (stripPrefix R s4); reflexivity.
Qed.

Lemma tryMatch_headOK (R s : jsstring) : isSome (tryMatch R s) = headOK R s.
Proof.
  rewrite <- headMatch_headOK. unfold tryMatch.
  destruct (headMatch R s) as [[P s5]|]; [|reflexivity].
  destruct (tagMatch s5) as [G s6]. destruct (optQuote s6). reflexivity.
Qed.

(** Whether a text starts with [L] is decided by any prefix as long as
    [L]. *)
Lemma stripPrefix_shared (L X t1 t2 : jsstring) :
  (List.length L <= List.length X)%nat ->
  isSome (stripPrefix L (X ++ t1)) = isSome (stripPrefix L (X ++ t2)).
Proof.
  revert X; induction L as [|l L IH]; intros X H; [reflexivity|].
  destruct X as [|x X]; [simpl in H; lia|].
  cbn [app stripPrefix]. destruct (l =? x)%N; [|reflexivity].
  apply IH. simpl in H. lia.
Qed.

Lemma stripPrefix_step (L : jsstring) (c : char) (t1 t2 : jsstring) :
  (forall L', (List.length L' <= List.length L)%nat ->
     isSome (stripPrefix L' t1) = isSome (stripPrefix L' t2)) ->
  isSome (stripPrefix L (c :: t1)) = isSome (stripPrefix L (c :: t2)).
Proof.
  intros H. destruct L as [|l L]; [reflexivity|]. cbn [stripPrefix].
  destruct (l =? c)%N; [|reflexivity]. apply H. simpl. lia.
Qed.

Section Idempotence.

Variables image R T : jsstring.
Hypothesis HR : goodRepo R = true.
Hypothesis Himage : image = R ++ COLON :: T.
Hypothesis HT : forallb (fun c => negb (isQuote c)) T = true.

Local Abbreviation rw := (rewriteFrom image R).

(** One step of the walk: a copy, or a match that keeps the text up to
    the end of the repository. *)
Lemma rewriteFrom_cases (b : option char) (c : char) (s : jsstring) :
  rw b 0 (c :: s) = c :: rw (Some c) 0 s
  \/ exists w1 w2 q t1 t2,
       forallb isWhiteSpace w1 = true
       /\ forallb isWhiteSpace w2 = true
       /\ (q = [] \/ exists ch, q = [ch] /\ isQuote ch = true)
       /\ c :: s = (w1 ++ IMAGE_COLON ++ w2 ++ q) ++ R ++ t2
       /\ rw b 0 (c :: s) = (w1 ++ IMAGE_COLON ++ w2 ++ q) ++ R ++ t1.
Proof.
  destruct (if lineStart b then tryMatch R (c :: s) else None)
    as [[[[P G] Q] s7]|] eqn:E.
  - right. destruct (lineStart b) eqn:Eb; [|discriminate].
    pose proof (tryMatch_app R (c :: s) P Q s7 G E) as Hs.
    rewrite (rewriteFrom_match image R b (c :: s) P Q s7 G HR Eb E).
    unfold tryMatch in E.
    destruct (headMatch R (c :: s)) as [[P' s5]|] eqn:Eh; [|discriminate].
    destruct (headMatch_shape R (c :: s) P' s5 Eh) as (w1 & w2 & q & HP & H1 & H2 & Hq).
    destruct (tagMatch s5) as [G' s6]. destruct (optQuote s6) as [Q' s7'].
    injection E as -> -> -> ->.
    exists w1, w2, q,
      ((COLON :: T) ++ Q ++ rw (lastChar (P ++ R ++ optText G ++ Q) b) 0 s7),
      (optText G ++ Q ++ s7).
    repeat split; try assumption.
    + rewrite Hs, HP. rewrite <- !app_assoc. reflexivity.
    + rewrite HP, Himage. rewrite <- !app_assoc. reflexivity.
  - left. apply rewriteFrom_copy, E.
Qed.

(** A literal no longer than the repository is found in the result
    exactly when it is found in the text. *)
Lemma startsWith_rewrite (L : jsstring) :
  (List.length L <= List.length R + 6)%nat ->
  forall (s : jsstring) (b : option char),
    isSome (stripPrefix L (rw b 0 s)) = isSome (stripPrefix L s).
Proof.
  induction L as [|l L IH]; intros HL s b; [reflexivity|].
  destruct s as [|c s]; [reflexivity|].
  destruct (rewriteFrom_cases b c s)
    as [-> | (w1 & w2 & q & t1 & t2 & _ & _ & _ & -> & ->)].
  - cbn [stripPrefix]. destruct (l =? c)%N; [|reflexivity].
    apply IH. simpl in HL. lia.
  - rewrite !app_assoc. apply stripPrefix_shared.
    rewrite !length_app. change (List.length IMAGE_COLON) with 6%nat. lia.
Qed.

Lemma span_ws_cons (c : char) (t : jsstring) :
  snd (span isWhiteSpace (c :: t))
  = if isWhiteSpace c then snd (span isWhiteSpace t) else c :: t.
Proof.
  cbn [span]. destruct (isWhiteSpace c); [|reflexivity].
  destruct (span isWhiteSpace t); reflexivity.
Qed.

Lemma afterImageColon_ws (w t : jsstring) :
  forallb isWhiteSpace w = true ->
  afterImageColon R (w ++ IMAGE_COLON ++ t) = isSome (stripPrefix R (IMAGE_COLON ++ t)).
Proof.
  intros Hw. unfold afterImageColon.
  rewrite (span_intro isWhiteSpace w (IMAGE_COLON ++ t) Hw) by reflexivity.
  reflexivity.
Qed.

(** What follows [image:] reads the same in the result and in the text. *)
Lemma afterImageColon_rewrite (s : jsstring) (b : option char) :
  afterImageColon R (rw b 0 s) = afterImageColon R s.
Proof.
  revert b; induction s as [|c s IH]; intros b; [reflexivity|].
  destruct (rewriteFrom_cases b c s)
    as [-> | (w1 & w2 & q & t1 & t2 & H1 & _ & _ & -> & ->)].
  - unfold afterImageColon. rewrite !span_ws_cons.
    destruct (isWhiteSpace c) eqn:Ews; [apply IH|].
    cbn [optQuote]. destruct (isQuote c) eqn:Eq; cbn [snd].
    + apply startsWith_rewrite. lia.
    + apply stripPrefix_step. intros L' HL'. apply startsWith_rewrite. lia.
  - rewrite <- !app_assoc. rewrite !(afterImageColon_ws w1 _ H1).
    rewrite !app_assoc. apply stripPrefix_shared.
    rewrite !length_app. lia.
Qed.

(** The rest of [image:], read where no line starts. *)
Lemma stripThen_rewrite (L : jsstring) :
  forallb (fun c => negb (isLineTerminator c)) L = true ->
  forall (s : jsstring) (b : option char),
    lineStart b = false ->
    stripThen R L (rw b 0 s) = stripThen R L s.
Proof.
  induction L as [|l L IH]; intros HL s b Hb.
  - unfold stripThen. cbn [stripPrefix]. apply afterImageColon_rewrite.
  - destruct s as [|c s]; [reflexivity|].
    rewrite rewriteFrom_copy by (rewrite Hb; reflexivity).
    unfold stripThen. cbn [stripPrefix].
    cbn [forallb] in HL. apply andb_true_iff in HL. destruct HL as [Hl HL].
    destruct (l =? c)%N eqn:E; [|reflexivity].
    apply N.eqb_eq in E; subst c.
    apply (IH HL s (Some l)). cbn [lineStart]. apply negb_true_iff, Hl.
Qed.

(** The walk creates no match and loses none: the head of the pattern is
    found in the result exactly where it is found in the text. *)
Lemma headOK_rewrite (s : jsstring) (b : option char) :
  headOK R (rw b 0 s) = headOK R s.
Proof.
  revert b; induction s as [|c s IH]; intros b; [reflexivity|].
  destruct (if lineStart b then tryMatch R (c :: s) else None)
    as [[[[P G] Q] s7]|] eqn:E.
  - destruct (lineStart b) eqn:Eb; [|discriminate].
    rewrite (rewriteFrom_match image R b (c :: s) P Q s7 G HR Eb E).
    assert (H1 : headOK R (c :: s) = true).
    { rewrite <- tryMatch_headOK, E. reflexivity. }
    rewrite H1. unfold tryMatch in E.
    destruct (headMatch R (c :: s)) as [[P' s5]|] eqn:Eh; [|discriminate].
    destruct (tagMatch s5) as [G' s6]. destruct (optQuote s6) as [Q' s7'].
    injection E as -> -> -> ->.
    rewrite <- headMatch_headOK, Himage, <- !app_assoc.
    rewrite (headMatch_stable R (c :: s) P s5 _ HR Eh). reflexivity.
  - rewrite (rewriteFrom_copy image R b c s E).
    unfold headOK. rewrite !span_ws_cons.
    destruct (isWhiteSpace c) eqn:Ews; [apply IH|].
    change IMAGE_COLON with (105%N :: lit "mage:").
    unfold stripThen. cbn [stripPrefix].
    destruct (105 =? c)%N eqn:Ei; [|reflexivity].
    apply N.eqb_eq in Ei; subst c.
    apply (stripThen_rewrite (lit "mage:")); reflexivity.
Qed.

Lemma optQuote_shape (s : jsstring) :
  fst (optQuote s) = [] \/ exists ch, fst (optQuote s) = [ch] /\ isQuote ch = true.
Proof.
  destruct s as [|ch s]; [left; reflexivity|]. unfold optQuote.
  destruct (isQuote ch) eqn:E; [right; exists ch; auto | left; reflexivity].
Qed.

(** A closed match, once rewritten, is matched again as a whole: the
    tag of the image runs up to the quote, or to the end of the text. *)
Lemma tryMatch_rewritten (s P s5 Q X : jsstring) :
  headMatch R s = Some (P, s5) ->
  (Q = [] /\ X = [] \/ exists ch, Q = [ch] /\ isQuote ch = true) ->
  tryMatch R (P ++ image ++ Q ++ X) = Some (P, Some (COLON :: T), Q, X).
Proof.
  intros Hh HQ. unfold tryMatch. rewrite Himage, <- !app_assoc.
  rewrite (headMatch_stable R s P s5 _ HR Hh).
  cbn [app tagMatch]. rewrite N.eqb_refl.
  assert (Hsp : span (fun c => negb (isQuote c)) (T ++ Q ++ X) = (T, Q ++ X)).
  { apply span_intro; [exact HT|].
    destruct HQ as [[-> ->] | (ch & -> & Hch)]; [exact I|].
    cbn [app]. rewrite Hch. reflexivity. }
  rewrite Hsp.
  destruct HQ as [[-> ->] | (ch & -> & Hch)].
  - reflexivity.
  - cbn [app optQuote]. rewrite Hch. reflexivity.
Qed.

(** On a text whose matches are closed, the walk leaves its own result
    unchanged. *)
Lemma rewriteFrom_fixed (n : nat) :
  forall (s : jsstring), (List.length s <= n)%nat ->
  forall (b : option char),
    closedFrom R b 0 s = true ->
    rw b 0 (rw b 0 s) = rw b 0 s.
Proof.
  induction n as [|n IH]; intros s Hn b Hc.
  - destruct s; [reflexivity | simpl in Hn; lia].
  - destruct s as [|c s]; [reflexivity|].
    destruct (if lineStart b then tryMatch R (c :: s) else None)
      as [[[[P G] Q] s7]|] eqn:E.
    + destruct (lineStart b) eqn:Eb; [|discriminate].
      rewrite (closedFrom_match R b (c :: s) P Q s7 G HR Eb E) in Hc.
      apply andb_true_iff in Hc. destruct Hc as [Hclosed Hc].
      pose proof (tryMatch_app R (c :: s) P Q s7 G E) as Hs.
      rewrite (rewriteFrom_match image R b (c :: s) P Q s7 G HR Eb E).
      set (b' := lastChar (P ++ R ++ optText G ++ Q) b) in *.
      assert (Hlen : (List.length s7 <= n)%nat).
      { apply (f_equal (@List.length _)) in Hs. rewrite !length_app in Hs.
        pose proof (goodRepo_length R HR). simpl in Hs, Hn. lia. }
      unfold tryMatch in E.
      destruct (headMatch R (c :: s)) as [[P' s5]|] eqn:Eh; [|discriminate].
      pose proof (optQuote_shape (snd (tagMatch s5))) as HQ.
      destruct (tagMatch s5) as [G' s6]. cbn [snd] in HQ.
      destruct (optQuote s6) as [Q' s7']. cbn [fst] in HQ.
      injection E as -> -> -> ->.
      destruct HQ as [-> | (ch & -> & Hch)].
      * cbn [isNil negb orb] in Hclosed.
        destruct s7 as [|x s7]; [|discriminate].
        assert (Ht : tryMatch R (P ++ image ++ [] ++ [])
                     = Some (P, Some (COLON :: T), [], [])).
        { apply (tryMatch_rewritten (c :: s) P s5 [] [] Eh). left. auto. }
        cbn [rewriteFrom].
        rewrite (rewriteFrom_match image R b _ P [] [] (Some (COLON :: T)) HR Eb Ht).
        reflexivity.
      * assert (Ht : tryMatch R (P ++ image ++ [ch] ++ rw b' 0 s7)
                     = Some (P, Some (COLON :: T), [ch], rw b' 0 s7)).
        { apply (tryMatch_rewritten (c :: s) P s5 [ch] _ Eh). right. eauto. }
        rewrite (rewriteFrom_match image R b _ P [ch] _ (Some (COLON :: T)) HR Eb Ht).
        do 3 f_equal.
        assert (Hb' : b' = Some ch).
        { unfold b'. rewrite !app_assoc, lastChar_app. reflexivity. }
        rewrite !app_assoc, lastChar_app. cbn [lastChar fold_left].
        rewrite Hb' in *. apply IH; assumption.
    + rewrite (closedFrom_copy R b c s E) in Hc.
      pose proof (headOK_rewrite (c :: s) b) as Hh.
      rewrite (rewriteFrom_copy image R b c s E) in *.
      assert (E' : (if lineStart b then tryMatch R (c :: rw (Some c) 0 s) else None)
                   = None).
      { destruct (lineStart b); [|reflexivity].
        pose proof (tryMatch_headOK R (c :: s)) as H1. rewrite E in H1.
        pose proof (tryMatch_headOK R (c :: rw (Some c) 0 s)) as H2.
        rewrite Hh, <- H1 in H2.
        destruct (tryMatch R (c :: rw (Some c) 0 s)); [discriminate | reflexivity]. }
      rewrite (rewriteFrom_copy image R b c _ E'). f_equal.
      apply IH; [simpl in Hn; lia | exact Hc].
Qed.

End Idempotence.

(** What [taggedImage] gives: the repository, the tag, and their
    characters. *)
Lemma taggedImage_parts (image : jsstring) :
  taggedImage image = true ->
  exists T,
    image = imageWithoutTag image ++ COLON :: T
    /\ goodRepo (imageWithoutTag image) = true
    /\ forallb (fun c => negb (isQuote c)) T = true
    /\ forallb (fun c => negb (c =? DOLLAR)%N) image = true.
Proof.
  unfold taggedImage. intros H.
  apply andb_true_iff in H. destruct H as [H Hd].
  apply andb_true_iff in H. destruct H as [H Hq].
  apply andb_true_iff in H. destruct H as [Hi Hg].
  apply Z.ltb_lt in Hi.
  assert (Hi0 : (0 <= indexOf COLON image)%Z) by lia.
  rewrite (imageWithoutTag_colon image Hi0).
  destruct (indexOf_firstn COLON image Hi0) as (T & HT & _).
  exists T. split; [exact HT|]. split; [|split; [|exact Hd]].
  - destruct image as [|c0 image']; [discriminate|].
    destruct (Z.to_nat (indexOf COLON (c0 :: image'))) as [|k] eqn:Ek; [lia|].
    exact Hg.
  - assert (Hskip : skipn (Z.to_nat (indexOf COLON image)) image = COLON :: T).
    { rewrite HT at 2. rewrite skipn_app, length_firstn.
      assert (Hle : (Z.to_nat (indexOf COLON image) <= List.length image)%nat).
      { destruct (Nat.le_gt_cases (Z.to_nat (indexOf COLON image)) (List.length image));
          [assumption|].
        exfalso. rewrite firstn_all2 in HT by lia.
        apply (f_equal (@List.length _)) in HT. rewrite length_app in HT.
        simpl in HT. lia. }
      rewrite Nat.min_l by exact Hle. rewrite Nat.sub_diag.
      rewrite skipn_firstn_comm, Nat.sub_diag. reflexivity. }
    rewrite Hskip in Hq. cbn [forallb] in Hq.
    apply andb_true_iff in Hq. apply Hq.
Qed.

(** The image rewrite is the walk. *)
Lemma insertImage_rewriteFrom (image stackDefinition : jsstring) :
  taggedImage image = true ->
  insertImage image stackDefinition
  = rewriteFrom image (imageWithoutTag image) None 0 stackDefinition.
Proof.
  intros H. destruct (taggedImage_parts image H) as (T & _ & HR & _ & Hd).
  unfold insertImage, replace. apply scan_rewriteFrom; assumption.
Qed.

(** C4, as the code has it. For an image reference of the form
    repository:tag (a colon after a repository that is not empty, a first
    code unit that is neither white space nor a quote, no quote after the
    first colon, no dollar sign) and a document in which every match of
    the image pattern is closed (it ends with the quote of group 3, or
    where the document ends), rewriting the rewritten document again
    changes nothing. *)
Theorem insertImage_idempotent (image stackDefinition : jsstring) :
  taggedImage image = true ->
  forallb (closedMatch (List.length stackDefinition))
          (imageMatches image stackDefinition) = true ->
  insertImage image (insertImage image stackDefinition)
  = insertImage image stackDefinition.
Proof.
  intros Himg Hclosed.
  destruct (taggedImage_parts image Himg) as (T & Hparts & HR & HT & Hd).
  rewrite !(insertImage_rewriteFrom image _ Himg).
  unfold imageMatches in Hclosed.
  rewrite (scan_closedFrom (imageWithoutTag image) (List.length stackDefinition) HR
             stackDefinition None 0 0 eq_refl) in Hclosed.
  apply (rewriteFrom_fixed image (imageWithoutTag image) T HR Hparts HT
           (List.length stackDefinition) stackDefinition (le_n _) None Hclosed).
Qed.

Lemma insertImage_idempotent_witness :
  insertImage (lit "app:2") (insertImage (lit "app:2") exampleDocument)
  = insertImage (lit "app:2") exampleDocument.
Proof.
  apply (insertImage_idempotent (lit "app:2") exampleDocument).
  - vm_compute. reflexivity.
  - vm_compute. reflexivity.
Defined.

(** C4, as the specification words it, fails: the pattern matches the
    repository [app] at the head of [app-db], the first rewrite puts the
    image in front of what is left of the name, and the second rewrite
    takes that for the tag and removes it. *)
Lemma insertImage_idempotent_counterexample :
  insertImage (lit "app:2") (lit "image: app-db:1") = lit "image: app:2-db:1"
  /\ insertImage (lit "app:2") (insertImage (lit "app:2") (lit "image: app-db:1"))
     = lit "image: app:2"
  /\ insertImage (lit "app:2") (insertImage (lit "app:2") (lit "image: app-db:1"))
     <> insertImage (lit "app:2") (lit "image: app-db:1").
Proof.
  split; [vm_compute; reflexivity|].
  split; [vm_compute; reflexivity|].
  vm_compute. discriminate.
Qed.

(** The conditions on the image are needed as well: a quote in the tag
    and a dollar sign that the template reads both break idempotence on a
    document whose only match is closed. *)
Example quote_in_tag_not_idempotent :
  insertImage (lit "app:1'x") (insertImage (lit "app:1'x") (lit "image: 'app:0'"))
  <> insertImage (lit "app:1'x") (lit "image: 'app:0'").
Proof. vm_compute. discriminate. Qed.

Example dollar_in_image_not_idempotent :
  insertImage (lit "app:$&") (insertImage (lit "app:$&") (lit "image: 'app:0'"))
  <> insertImage (lit "app:$&") (lit "image: 'app:0'").
Proof. vm_compute. discriminate. Qed.

(** Without a colon in the image the pattern has an empty repository and
    matches every [image:] line; the image is put in front of whatever
    the line held, again at each rewrite. *)
Example untagged_image_not_idempotent :
  insertImage (lit "myrepo/app") (lit "image: foo:1") = lit "image: myrepo/appfoo:1"
  /\ insertImage (lit "myrepo/app") (insertImage (lit "myrepo/app") (lit "image: foo:1"))
     = lit "image: myrepo/appmyrepo/appfoo:1".
Proof. split; vm_compute; reflexivity. Qed.

(** The tag group runs over line ends: an unquoted tag takes the rest
    of the document up to the next quote with it. *)
Example tag_runs_over_lines :
  insertImage (lit "app:2") (lit "image: app:1
ports: x") = lit "image: app:2".
Proof. vm_compute. reflexivity. Qed.

(** A document without a matching [image:] line is left as it is. *)
Example rewrite_without_match :
  insertImage (lit "app:2") (lit "services:
  db:
    image: postgres:15") = lit "services:
  db:
    image: postgres:15".
Proof. vm_compute. reflexivity. Qed.

(** The specification's own example: the quote style is kept. *)
Example rewrite_keeps_quotes :
  insertImage (lit "myrepo/app:new")
    (lit "image: " ++ [DQUOTE] ++ lit "myrepo/app:old" ++ [DQUOTE])
  = lit "image: " ++ [DQUOTE] ++ lit "myrepo/app:new" ++ [DQUOTE].
Proof. vm_compute. reflexivity. Qed.

(* ===================================================================== *)
(** * Further properties *)
(* ===================================================================== *)

(** ** The merger: names, composition *)

Section MergeMore.
Import JSMap JSMapFacts.

Lemma set_fresh (k v : jsstring) (m : t) :
  ~ In k (keys m) -> set k v m = m ++ [(k, v)].
Proof.
  induction m as [|[k' v'] m IH]; simpl; intros H; [reflexivity|].
  destruct (str_eqb k' k) eqn:E.
  - apply str_eqb_eq in E. tauto.
  - rewrite IH by tauto. reflexivity.
Qed.

Lemma keys_app (m1 m2 : t) : keys (m1 ++ m2) = keys m1 ++ keys m2.
Proof. unfold keys. apply map_app. Qed.

(** Writing the entries of a map without duplicate keys into a map that
    has none of its keys appends them. *)
Lemma setAll_entries (m m0 : t) :
  NoDup (keys m) ->
  (forall k, In k (keys m) -> ~ In k (keys m0)) ->
  setAll (map (fun '(n, v) => mkEnv n v) m) m0 = m0 ++ m.
Proof.
  revert m0; induction m as [|[k v] m IH]; intros m0 Hnd Hdisj.
  - simpl. rewrite app_nil_r. reflexivity.
  - inversion Hnd as [|? ? Hk Hm]; subst.
    change (setAll (map (fun '(n, v0) => mkEnv n v0) ((k, v) :: m)) m0)
      with (setAll (map (fun '(n, v0) => mkEnv n v0) m) (set k v m0)).
    rewrite set_fresh by (apply Hdisj; left; reflexivity).
    rewrite IH; [rewrite <- app_assoc; reflexivity | exact Hm |].
    intros k0 Hk0. rewrite keys_app, in_app_iff. simpl.
    intros [Hin | [<- | []]]; [|contradiction].
    apply (Hdisj k0); [right; exact Hk0 | exact Hin].
Qed.

(** The map that the two loops build. *)
Lemma merged_NoDup (original updates : EnvVariables) :
  NoDup (keys (setAll updates (setAll original empty))).
Proof. apply NoDup_keys_setAll, NoDup_keys_setAll. constructor. Qed.

Lemma setAll_app (a b : EnvVariables) (m : t) :
  setAll (a ++ b) m = setAll b (setAll a m).
Proof. unfold setAll. apply fold_left_app. Qed.

(** Merging in two steps is merging the concatenated updates. *)
Lemma merge_merge (a b c : EnvVariables) :
  mergeEnvVariables (mergeEnvVariables a b) c = mergeEnvVariables a (b ++ c).
Proof.
  unfold mergeEnvVariables, entries.
  rewrite setAll_app. f_equal. f_equal.
  rewrite setAll_entries; [reflexivity | apply merged_NoDup | intros k _ []].
Qed.

Lemma firstOccurrences_seen (seen l : list jsstring) :
  (forall k, In k l -> In k seen) -> firstOccurrences seen l = [].
Proof.
  induction l as [|k l IH]; intros H; [reflexivity|]. simpl.
  assert (E : mem k seen = true) by (apply mem_In, H; left; reflexivity).
  rewrite E. apply IH. intros k0 Hk0. apply H. right. exact Hk0.
Qed.

(** Two maps without duplicate keys, with the same keys in the same
    order and the same values, are the same map. *)
Lemma map_ext_keys (m1 m2 : t) :
  NoDup (keys m1) -> NoDup (keys m2) ->
  keys m1 = keys m2 -> (forall k, get k m1 = get k m2) -> m1 = m2.
Proof.
  intros H1 H2 Hk Hg.
  rewrite (entries_by_keys m1 H1), (entries_by_keys m2 H2), Hk.
  apply map_ext. intros k. rewrite Hg. reflexivity.
Qed.

Lemma setAll_twice (b : EnvVariables) (m : t) :
  NoDup (keys m) -> setAll b (setAll b m) = setAll b m.
Proof.
  intros Hm. apply map_ext_keys.
  - apply NoDup_keys_setAll, NoDup_keys_setAll, Hm.
  - apply NoDup_keys_setAll, Hm.
  - rewrite (keys_setAll b (setAll b m)).
    rewrite firstOccurrences_seen; [apply app_nil_r|].
    intros k Hk. rewrite keys_setAll, in_app_iff.
    destruct (in_dec (list_eq_dec N.eq_dec) k (keys m)) as [Hin | Hout];
      [left; exact Hin | right].
    apply In_firstOccurrences. auto.
  - intros k. rewrite !get_setAll. destruct (lastValue k b); reflexivity.
Qed.

End MergeMore.

(** X1. The names of a merge are pairwise distinct, and they are the
    names of the original together with the names of the updates: no
    variable is dropped and none is invented. *)
Theorem mergeEnvVariables_names (original updates : EnvVariables) :
  NoDup (map name (mergeEnvVariables original updates))
  /\ forall k, In k (map name (mergeEnvVariables original updates))
               <-> In k (map name original) \/ In k (map name updates).
Proof.
  rewrite merge_refines_spec. unfold mergeSpec. rewrite map_map. simpl.
  rewrite map_id. split.
  - apply NoDup_app; try apply firstOccurrences_NoDup.
    intros k H1 H2. apply In_firstOccurrences in H1, H2. tauto.
  - intros k. rewrite in_app_iff, !In_firstOccurrences. simpl.
    destruct (in_dec (list_eq_dec N.eq_dec) k (map name original)); tauto.
Qed.

(** X2. Merging one set of updates and then another is merging the two
    sets one after the other in a single step. *)
Theorem mergeEnvVariables_compose (original first second : EnvVariables) :
  mergeEnvVariables (mergeEnvVariables original first) second
  = mergeEnvVariables original (first ++ second).
Proof. apply merge_merge. Qed.

(** X3. Merging the same updates a second time changes nothing. *)
Theorem mergeEnvVariables_idempotent (original updates : EnvVariables) :
  mergeEnvVariables (mergeEnvVariables original updates) updates
  = mergeEnvVariables original updates.
Proof.
  rewrite merge_merge. unfold mergeEnvVariables, JSMap.entries.
  rewrite setAll_app, setAll_twice; [reflexivity|].
  apply NoDup_keys_setAll. constructor.
Qed.

(** ** The parser: trimming, blank input, escapes, round trip *)

Lemma trimStart_app (s : jsstring) :
  exists w, s = w ++ trimStart s /\ forallb isWhiteSpace w = true.
Proof.
  induction s as [|c s IH]; [exists []; auto|]. simpl.
  destruct (isWhiteSpace c) eqn:E; [|exists []; auto].
  destruct IH as (w & Hs & Hw). exists (c :: w). simpl. rewrite E.
  split; [f_equal; exact Hs | exact Hw].
Qed.

Lemma trimStart_head (s : jsstring) :
  match trimStart s with
  | c :: _ => isWhiteSpace c = false
  | [] => True
  end.
Proof.
  induction s as [|c s IH]; [exact I|]. simpl.
  destruct (isWhiteSpace c) eqn:E; [exact IH | exact E].
Qed.

Lemma trimStart_fixed (s : jsstring) :
  match s with c :: _ => isWhiteSpace c = false | [] => True end ->
  trimStart s = s.
Proof. destruct s as [|c s]; [reflexivity|]. simpl. intros ->. reflexivity. Qed.

Lemma trimStart_idem (s : jsstring) : trimStart (trimStart s) = trimStart s.
Proof. apply trimStart_fixed, trimStart_head. Qed.

Lemma trimStart_all (w : jsstring) :
  forallb isWhiteSpace w = true -> trimStart w = [].
Proof.
  induction w as [|c w IH]; [reflexivity|]. simpl. intros H.
  apply andb_true_iff in H. destruct H as [-> H]. apply IH, H.
Qed.

Lemma trimEnd_app (s : jsstring) :
  exists w, s = trimEnd s ++ w /\ forallb isWhiteSpace w = true.
Proof.
  unfold trimEnd. destruct (trimStart_app (rev s)) as (w & Hs & Hw).
  exists (rev w). split.
  - rewrite <- (rev_involutive s), Hs at 1. rewrite rev_app_distr. reflexivity.
  - rewrite forallb_forall in *. intros c Hc. apply Hw, in_rev, Hc.
Qed.

Lemma trimEnd_idem (s : jsstring) : trimEnd (trimEnd s) = trimEnd s.
Proof. unfold trimEnd. rewrite rev_involutive, trimStart_idem. reflexivity. Qed.

(** Trimming the end keeps a head that is not white space. *)
Lemma trimEnd_head (s : jsstring) :
  match s with c :: _ => isWhiteSpace c = false | [] => True end ->
  match trimEnd s with c :: _ => isWhiteSpace c = false | [] => True end.
Proof.
  intros H. destruct (trimEnd_app s) as (w & Hs & Hw).
  destruct (trimEnd s) as [|c t]; [exact I|].
  rewrite Hs in H. exact H.
Qed.

Lemma trim_idem (s : jsstring) : trim (trim s) = trim s.
Proof.
  unfold trim.
  rewrite (trimStart_fixed (trimEnd (trimStart s)))
    by (apply trimEnd_head, trimStart_head).
  apply trimEnd_idem.
Qed.

Lemma trim_all (w : jsstring) : forallb isWhiteSpace w = true -> trim w = [].
Proof. intros H. unfold trim. rewrite (trimStart_all w H). reflexivity. Qed.

(** X4. No name and no value that the parser returns starts or ends with
    white space: trimming them again changes nothing. *)
Theorem parseEnvVariables_trimmed (envVariables : jsstring) :
  Forall (fun x => trim (name x) = name x /\ trim (value x) = value x)
         (parseEnvVariables envVariables).
Proof.
  unfold parseEnvVariables. apply Forall_forall. intros x Hx.
  apply in_map_iff in Hx. destruct Hx as (line & <- & _).
  unfold parseLine. destruct (split EQUALS line) as [|n rest]; [split; reflexivity|].
  simpl. split; apply trim_idem.
Qed.

Lemma unescape_plain (s : jsstring) :
  forallb (fun c => negb (c =? BACKSLASH)%N) s = true -> unescapeNewlines s = s.
Proof.
  induction s as [|c s IH]; [reflexivity|]. intros H.
  cbn [forallb] in H. apply andb_true_iff in H. destruct H as [Hc Hs].
  apply negb_true_iff in Hc. cbn [unescapeNewlines].
  destruct s as [|d s']; [reflexivity|]. rewrite Hc. cbn [andb].
  f_equal. apply IH, Hs.
Qed.

Lemma whiteSpace_not_backslash (s : jsstring) :
  forallb isWhiteSpace s = true ->
  forallb (fun c => negb (c =? BACKSLASH)%N) s = true.
Proof.
  intros H. rewrite forallb_forall in *. intros c Hc. specialize (H c Hc).
  destruct (c =? BACKSLASH)%N eqn:E; [|reflexivity].
  apply N.eqb_eq in E; subst. discriminate H.
Qed.

(** X5. An input of white space only (the empty input among them) holds
    no variable. *)
Theorem parseEnvVariables_blank (envVariables : jsstring) :
  forallb isWhiteSpace envVariables = true ->
  parseEnvVariables envVariables = [].
Proof.
  intros H. unfold parseEnvVariables.
  rewrite (unescape_plain envVariables (whiteSpace_not_backslash envVariables H)).
  rewrite (trim_all envVariables H). reflexivity.
Qed.

Lemma parseEnvVariables_blank_witness :
  parseEnvVariables (lit "  
 ") = [].
Proof. apply parseEnvVariables_blank. reflexivity. Defined.

Lemma unescape_escape (n : nat) (a b : jsstring) :
  (List.length a <= n)%nat ->
  unescapeNewlines (a ++ BACKSLASH :: 110%N :: b)
  = unescapeNewlines (a ++ LF :: b).
Proof.
  revert a; induction n as [|n IH]; intros a Hn.
  - destruct a; [|simpl in Hn; lia]. simpl. destruct b; reflexivity.
  - destruct a as [|c [|d a]].
    + simpl. destruct b; reflexivity.
    + cbn [app unescapeNewlines].
      change (110 =? 110)%N with true. change (BACKSLASH =? BACKSLASH)%N with true.
      change (BACKSLASH =? 110)%N with false. change (LF =? 110)%N with false.
      rewrite !andb_false_r. cbn [andb]. f_equal. destruct b; reflexivity.
    + cbn [app unescapeNewlines].
      destruct ((c =? BACKSLASH)%N && (d =? 110)%N).
      * f_equal. apply IH. simpl in Hn. lia.
      * f_equal. apply (IH (d :: a)). simpl in *. lia.
Qed.

(** X6. The two characters backslash and [n] in the input act exactly
    like a line break at that place. *)
Theorem parseEnvVariables_escaped_newline (a b : jsstring) :
  parseEnvVariables (a ++ BACKSLASH :: 110%N :: b)
  = parseEnvVariables (a ++ LF :: b).
Proof.
  unfold parseEnvVariables. rewrite (unescape_escape (List.length a) a b (le_n _)).
  reflexivity.
Qed.

(** *** The round trip through the input format *)

Lemma trim_fixed (s : jsstring) :
  headNotWs s -> headNotWs (rev s) -> trim s = s.
Proof.
  intros H1 H2. unfold trim, trimEnd.
  rewrite (trimStart_fixed s H1), (trimStart_fixed (rev s) H2).
  apply rev_involutive.
Qed.

Lemma trim_ends (t : jsstring) :
  trim t = t -> headNotWs t /\ headNotWs (rev t).
Proof.
  intros H. split.
  - rewrite <- H. unfold trim. apply trimEnd_head, trimStart_head.
  - rewrite <- H. unfold trim, trimEnd. rewrite rev_involutive.
    apply trimStart_head.
Qed.

Lemma trim_nil_all (s : jsstring) : trim s = [] -> forallb isWhiteSpace s = true.
Proof.
  intros H. destruct (trimStart_app s) as (w & Hs & Hw).
  destruct (trimEnd_app (trimStart s)) as (w' & Hs' & Hw').
  unfold trim in H. rewrite H in Hs'. simpl in Hs'.
  rewrite Hs, Hs', forallb_app, Hw, Hw'. reflexivity.
Qed.

Lemma split_app_sep (c : char) (l r : jsstring) :
  ~ In c l -> split c (l ++ c :: r) = l :: split c r.
Proof.
  induction l as [|x l IH]; intros H.
  - simpl. rewrite N.eqb_refl. reflexivity.
  - cbn [app split]. destruct (x =? c)%N eqn:E.
    + apply N.eqb_eq in E. subst. exfalso. apply H. left. reflexivity.
    + rewrite IH by (intros Hin; apply H; right; exact Hin). reflexivity.
Qed.

Lemma split_join (c : char) (l : jsstring) (ls : list jsstring) :
  Forall (fun l => ~ In c l) (l :: ls) ->
  split c (join [c] (l :: ls)) = l :: ls.
Proof.
  revert l; induction ls as [|l2 ls IH]; intros l H.
  - simpl. apply split_absent, indexOf_absent.
    inversion H; assumption.
  - inversion H as [|? ? Hl Hls]; subst.
    change (join [c] (l :: l2 :: ls)) with (l ++ c :: join [c] (l2 :: ls)).
    rewrite (split_app_sep c l _ Hl), (IH l2 Hls). reflexivity.
Qed.

Lemma cleanText_spec (t : jsstring) :
  cleanText t = true ->
  trim t = t /\ ~ In LF t /\ ~ In BACKSLASH t.
Proof.
  unfold cleanText. intros H. apply andb_true_iff in H. destruct H as [H1 H2].
  apply str_eqb_eq in H1. split; [exact H1|].
  rewrite forallb_forall in H2.
  split; intros Hin; specialize (H2 _ Hin); cbn in H2; discriminate.
Qed.

Lemma cleanVariable_spec (x : EnvVariable) :
  cleanVariable x = true ->
  trim (name x) = name x /\ trim (value x) = value x
  /\ ~ In EQUALS (name x)
  /\ ~ In LF (formatLine x) /\ ~ In BACKSLASH (formatLine x).
Proof.
  unfold cleanVariable. intros H.
  apply andb_true_iff in H. destruct H as [H H3].
  apply andb_true_iff in H. destruct H as [H1 H2].
  apply cleanText_spec in H1, H2.
  destruct H1 as (N1 & N2 & N3). destruct H2 as (V1 & V2 & V3).
  assert (NE : ~ In EQUALS (name x)).
  { rewrite forallb_forall in H3. intros Hin. specialize (H3 _ Hin).
    cbn in H3. discriminate. }
  repeat split; try assumption; unfold formatLine;
    rewrite in_app_iff; simpl; intros [Hin | [Hin | Hin]];
    try contradiction; discriminate.
Qed.

Lemma formatLine_ends (x : EnvVariable) :
  cleanVariable x = true ->
  headNotWs (formatLine x) /\ headNotWs (rev (formatLine x))
  /\ formatLine x <> [].
Proof.
  intros H. apply cleanVariable_spec in H. destruct H as (N1 & V1 & _).
  apply trim_ends in N1, V1. destruct N1 as [N1 _]. destruct V1 as [_ V1].
  unfold formatLine. repeat split.
  - destruct (name x); [reflexivity | exact N1].
  - rewrite rev_app_distr. simpl. rewrite <- app_assoc.
    destruct (rev (value x)); [reflexivity | exact V1].
  - destruct (name x); discriminate.
Qed.

Lemma parseLine_formatLine (x : EnvVariable) :
  cleanVariable x = true -> parseLine (formatLine x) = x.
Proof.
  intros H. apply cleanVariable_spec in H. destruct H as (N1 & V1 & NE & _).
  unfold parseLine, formatLine. rewrite (split_app_sep EQUALS _ _ NE).
  rewrite join_split, N1, V1. destruct x; reflexivity.
Qed.

Lemma nonBlank_formatLine (x : EnvVariable) : nonBlank (formatLine x) = true.
Proof.
  unfold nonBlank. apply negb_true_iff, str_eqb_neq. intros H.
  apply trim_nil_all in H. unfold formatLine in H.
  rewrite forallb_app in H. apply andb_true_iff in H. destruct H as [_ H].
  discriminate H.
Qed.

(** The ends of the joined lines are the head of the first line and the
    end of the last one. *)
Lemma join_ends (l : jsstring) (ls : list jsstring) :
  Forall (fun l => headNotWs l /\ headNotWs (rev l) /\ l <> []) (l :: ls) ->
  headNotWs (join [LF] (l :: ls)) /\ headNotWs (rev (join [LF] (l :: ls)))
  /\ join [LF] (l :: ls) <> [].
Proof.
  revert l; induction ls as [|l2 ls IH]; intros l H.
  - inversion H; subst. simpl. assumption.
  - inversion H as [|? ? (H1 & H2 & H3) Hls]; subst.
    destruct (IH l2 Hls) as (J1 & J2 & J3).
    change (join [LF] (l :: l2 :: ls)) with (l ++ LF :: join [LF] (l2 :: ls)).
    repeat split.
    + destruct l; [contradiction | exact H1].
    + rewrite rev_app_distr. cbn [rev]. rewrite <- app_assoc.
      destruct (rev (join [LF] (l2 :: ls))) eqn:E; [|exact J2].
      exfalso. apply J3. rewrite <- (rev_involutive (join _ _)), E. reflexivity.
    + destruct l; discriminate.
Qed.

(** X7. Variables whose names and values are trimmed, hold no line feed
    and no backslash, and whose names hold no [=], come back from the
    parser as they were written in the input format. *)
Theorem parseEnvVariables_roundtrip (vars : EnvVariables) :
  forallb cleanVariable vars = true ->
  parseEnvVariables (formatEnvVariables vars) = vars.
Proof.
  intros H. destruct vars as [|x vars]; [reflexivity|].
  rewrite forallb_forall in H.
  unfold parseEnvVariables, formatEnvVariables.
  change (map (fun x0 => name x0 ++ EQUALS :: value x0) (x :: vars))
    with (formatLine x :: map formatLine vars).
  assert (Hlines : Forall (fun l => exists y, cleanVariable y = true /\ l = formatLine y)
                          (formatLine x :: map formatLine vars)).
  { apply Forall_forall. intros l Hl.
    change (formatLine x :: map formatLine vars)
      with (map formatLine (x :: vars)) in Hl.
    apply in_map_iff in Hl. destruct Hl as (y & <- & Hy). exists y. auto. }
  set (text := join [LF] (formatLine x :: map formatLine vars)).
  assert (Hplain : unescapeNewlines text = text).
  { apply unescape_plain. apply forallb_forall. intros c Hc.
    apply negb_true_iff, N.eqb_neq. intros ->.
    assert (Hsplit : In BACKSLASH (List.concat (split LF text))).
    { clear -Hc. revert Hc. generalize text. intros s.
      induction s as [|d s IH]; [intros []|]. simpl.
      destruct (d =? LF)%N eqn:E.
      - intros [-> | Hin]; [discriminate E | simpl; apply IH, Hin].
      - pose proof (split_not_nil LF s) as Hne.
        destruct (split LF s) as [|p ps]; [contradiction|]. simpl in *.
        intros [-> | Hin]; [left; reflexivity | right; apply IH, Hin]. }
    unfold text in Hsplit. rewrite split_join in Hsplit.
    - apply in_concat in Hsplit. destruct Hsplit as (l & Hl & Hin).
      rewrite Forall_forall in Hlines. destruct (Hlines l Hl) as (y & Hy & ->).
      apply cleanVariable_spec in Hy. tauto.
    - eapply Forall_impl; [|exact Hlines]. intros l (y & Hy & ->).
      apply cleanVariable_spec in Hy. tauto. }
  rewrite Hplain.
  assert (Hends : headNotWs text /\ headNotWs (rev text) /\ text <> []).
  { apply join_ends. eapply Forall_impl; [|exact Hlines].
    intros l (y & Hy & ->). apply formatLine_ends, Hy. }
  rewrite (trim_fixed text) by tauto.
  unfold text. rewrite split_join.
  2:{ eapply Forall_impl; [|exact Hlines]. intros l (y & Hy & ->).
      apply cleanVariable_spec in Hy. tauto. }
  change (formatLine x :: map formatLine vars) with (map formatLine (x :: vars)).
  assert (Hfilter : filter nonBlank (map formatLine (x :: vars))
                    = map formatLine (x :: vars)).
  { apply forallb_filter_id. apply forallb_forall. intros l Hl.
    apply in_map_iff in Hl. destruct Hl as (y & <- & _).
    apply nonBlank_formatLine. }
  rewrite Hfilter, map_map. rewrite <- (map_id (x :: vars)) at 2.
  apply map_ext_in. intros y Hy. apply parseLine_formatLine, H, Hy.
Qed.

Lemma parseEnvVariables_roundtrip_witness :
  parseEnvVariables
    (formatEnvVariables [mkEnv (lit "A") (lit "1"); mkEnv (lit "URL") (lit "a=b c")])
  = [mkEnv (lit "A") (lit "1"); mkEnv (lit "URL") (lit "a=b c")].
Proof. apply parseEnvVariables_roundtrip. reflexivity. Defined.

(** ** The image rewrite: literal repository, untouched text *)

(** In the model the pattern of the escaped repository matches exactly
    the texts that start with the repository. *)
Lemma escapedAtoms_prefix (R s : jsstring) (b : option char) (i : nat) :
  matchAt (escapedAtoms (escapeRegExp R)) 0 b i s
  = match stripPrefix R s with
    | Some _ => Some (mkMatch i R [])
    | None => None
    end.
Proof.
  unfold matchAt. rewrite escapeRegExp_chars, escapedAtoms_escape, matcher_literal.
  cbn [rest endIndex prev captures repeat].
  destruct (stripPrefix R s) as [r|] eqn:E; [|reflexivity].
  apply stripPrefix_app in E. subst s. cbn [endIndex captures].
  rewrite add_sub_self, firstn_length_app. reflexivity.
Qed.

Example dot_is_not_a_wildcard :
  matchAt (escapedAtoms (escapeRegExp (lit "a.b"))) 0 None 0 (lit "axb") = None
  /\ matchAt (escapedAtoms (escapeRegExp (lit "a.b"))) 0 None 0 (lit "a.b:1")
     = Some (mkMatch 0 (lit "a.b") []).
Proof. split; vm_compute; reflexivity. Qed.

(** A star whose continuation fails on every text fails. *)
Lemma starChr_none (p : char -> bool) (c : Continuation) (caps : list (option jsstring))
    (s : jsstring) (i : nat) (b : option char) :
  (forall j b' s', (exists u, s = u ++ s') -> c (mkState j b' s' caps) = None) ->
  starChr p c i b s caps = None.
Proof.
  revert i b; induction s as [|ch s IH]; intros i b Hc.
  - simpl. apply Hc. exists []. reflexivity.
  - simpl. destruct (p ch).
    + rewrite IH.
      * apply Hc. exists []. reflexivity.
      * intros j b' s' (u & ->). apply Hc. exists (ch :: u). reflexivity.
    + apply Hc. exists []. reflexivity.
Qed.

Lemma stripPrefix_image_colon (s : jsstring) :
  ~ In COLON s -> stripPrefix IMAGE_COLON s = None.
Proof.
  intros H. destruct (stripPrefix IMAGE_COLON s) as [r|] eqn:E; [|reflexivity].
  apply stripPrefix_app in E. exfalso. apply H. rewrite E.
  apply in_or_app. left. unfold IMAGE_COLON, COLON. simpl. tauto.
Qed.

(** Without a colon in the text the image pattern matches nowhere,
    whatever the repository. *)
Lemma matchAt_no_colon (escaped s : jsstring) (b : option char) (i : nat) :
  ~ In COLON s -> matchAt (imageRegExp escaped) 3 b i s = None.
Proof.
  intros H. unfold matchAt, imageRegExp.
  rewrite matcher_seq, matcher_lineStart. cbn [prev repeat].
  destruct (lineStart b); [|reflexivity].
  rewrite matcher_seq, matcher_group, matcher_seq, matcher_star_chr.
  cbn [endIndex prev rest captures].
  rewrite starChr_none; [reflexivity|].
  intros j b' s' (u & Hs). rewrite matcher_seq, matcher_literal. cbn [rest].
  rewrite stripPrefix_image_colon; [reflexivity|].
  intros Hin. apply H. rewrite Hs. apply in_or_app. right. exact Hin.
Qed.

(** Where the pattern matches nowhere, the walk copies the text. *)
Lemma scan_no_match (r : re) (n : nat) (s : jsstring) :
  (forall b i s', (exists u, s = u ++ s') -> matchAt r n b i s' = None) ->
  forall (b : option char) (i : nat), scan r n b 0 i s = map Copy s.
Proof.
  induction s as [|c s IH]; intros H b i.
  - cbn [scan]. rewrite H by (exists []; reflexivity). reflexivity.
  - cbn [scan map]. rewrite H by (exists []; reflexivity). f_equal.
    apply IH. intros b' i' s' (u & ->). apply H. exists (c :: u). reflexivity.
Qed.

Lemma flat_map_copy (f : Piece -> jsstring) (s : jsstring) :
  (forall c, f (Copy c) = [c]) -> flat_map f (map Copy s) = s.
Proof.
  intros Hf. induction s as [|c s IH]; [reflexivity|].
  cbn [map flat_map]. rewrite Hf, IH. reflexivity.
Qed.

(** X9. A document without a colon is left as it is, whatever the image
    (with or without a tag, whatever its characters). *)
Theorem insertImage_no_colon (image stackDefinition : jsstring) :
  ~ In COLON stackDefinition ->
  insertImage image stackDefinition = stackDefinition.
Proof.
  intros H. unfold insertImage, replace. rewrite scan_no_match.
  - apply flat_map_copy. reflexivity.
  - intros b i s' (u & Hs). apply matchAt_no_colon.
    intros Hin. apply H. rewrite Hs. apply in_or_app. right. exact Hin.
Qed.

Lemma insertImage_no_colon_witness :
  insertImage (lit "myrepo/app") (lit "version = 3
services") = lit "version = 3
services".
Proof. apply insertImage_no_colon. vm_compute. intuition discriminate. Defined.

(** ** The image rewrite on declarations and on the lines around them *)

Lemma rewriteFrom_lineStart (image R s : jsstring) (b1 b2 : option char) :
  lineStart b1 = lineStart b2 ->
  rewriteFrom image R b1 0 s = rewriteFrom image R b2 0 s.
Proof. intros H. destruct s as [|c s]; [reflexivity|]. cbn [rewriteFrom]. rewrite H. reflexivity. Qed.

Lemma lastChar_nonempty (t : jsstring) (b1 b2 : option char) :
  t <> [] -> lastChar t b1 = lastChar t b2.
Proof. destruct t as [|c t]; [contradiction | reflexivity]. Qed.

Lemma headMatch_ws_cons (R : jsstring) (c : char) (s : jsstring) :
  isWhiteSpace c = true ->
  headMatch R (c :: s)
  = match headMatch R s with
    | Some (P, s5) => Some (c :: P, s5)
    | None => None
    end.
Proof.
  intros Hc. unfold headMatch. cbn [span]. rewrite Hc.
  destruct (span isWhiteSpace s) as [w1 s1].
  destruct (stripPrefix IMAGE_COLON s1) as [s2|]; [|reflexivity].
  destruct (span isWhiteSpace s2) as [w2 s3].
  destruct (optQuote s3) as [q s4].
  destruct (stripPrefix R s4); reflexivity.
Qed.

Lemma headMatch_not_ws (R : jsstring) (c : char) (s : jsstring) :
  isWhiteSpace c = false ->
  headMatch R (c :: s) <> None ->
  exists r, c :: s = IMAGE_COLON ++ r.
Proof.
  intros Hc. unfold headMatch. cbn [span]. rewrite Hc.
  destruct (stripPrefix IMAGE_COLON (c :: s)) as [s2|] eqn:E; [|congruence].
  intros _. exists s2. apply stripPrefix_app, E.
Qed.

(** [image:] does not fit in a text without a colon that a line feed
    ends. *)
Lemma image_colon_not_in_line (u t r : jsstring) :
  ~ In COLON u -> u ++ LF :: t = IMAGE_COLON ++ r -> False.
Proof.
  intros H E. unfold IMAGE_COLON in E. simpl in E.
  do 6 (destruct u as [|? u]; [discriminate E|];
        injection E as ? E; subst).
  apply H. unfold COLON. simpl. tauto.
Qed.

Lemma headMatch_after_line (R t : jsstring) (u P s5 : jsstring) :
  ~ In COLON u ->
  headMatch R (u ++ LF :: t) = Some (P, s5) ->
  exists P0, P = u ++ LF :: P0 /\ headMatch R t = Some (P0, s5).
Proof.
  revert P; induction u as [|c u IH]; intros P Hu H.
  - cbn [app] in H. rewrite headMatch_ws_cons in H by reflexivity.
    destruct (headMatch R t) as [[P0 s5']|]; [|discriminate].
    injection H as <- <-. exists P0. auto.
  - cbn [app] in H. destruct (isWhiteSpace c) eqn:Ec.
    + rewrite headMatch_ws_cons in H by exact Ec.
      destruct (headMatch R (u ++ LF :: t)) as [[P1 s5']|] eqn:E1; [|discriminate].
      injection H as <- <-.
      destruct (IH P1) as (P0 & -> & H0); [intros Hin; apply Hu; right; exact Hin | reflexivity |].
      exists P0. auto.
    + exfalso. destruct (headMatch_not_ws R c (u ++ LF :: t) Ec) as (r & Hr);
        [congruence|].
      apply (image_colon_not_in_line (c :: u) t r Hu Hr).
Qed.

Lemma tryMatch_after_line (R t u P Q s7 : jsstring) (G : option jsstring) :
  ~ In COLON u ->
  tryMatch R (u ++ LF :: t) = Some (P, G, Q, s7) ->
  exists P0, P = u ++ LF :: P0 /\ tryMatch R t = Some (P0, G, Q, s7).
Proof.
  intros Hu. unfold tryMatch.
  destruct (headMatch R (u ++ LF :: t)) as [[P' s5]|] eqn:Eh; [|discriminate].
  destruct (headMatch_after_line R t u P' s5 Hu Eh) as (P0 & -> & H0).
  rewrite H0. destruct (tagMatch s5) as [G' s6]. destruct (optQuote s6) as [Q' s7'].
  intros H. injection H as <- <- <- <-. exists P0. auto.
Qed.

Lemma rewriteFrom_match_after_line (image R t u P0 Q s7 : jsstring)
    (G : option jsstring) (b : option char) :
  goodRepo R = true ->
  lineStart b = true ->
  tryMatch R (u ++ LF :: t) = Some (u ++ LF :: P0, G, Q, s7) ->
  tryMatch R t = Some (P0, G, Q, s7) ->
  rewriteFrom image R b 0 (u ++ LF :: t)
  = u ++ LF :: rewriteFrom image R None 0 t.
Proof.
  intros HR Eb E E0.
  rewrite (rewriteFrom_match image R b _ _ Q s7 G HR Eb E).
  rewrite (rewriteFrom_match image R None t P0 Q s7 G HR eq_refl E0).
  assert (Hl : lastChar ((u ++ LF :: P0) ++ R ++ optText G ++ Q) b
               = lastChar (P0 ++ R ++ optText G ++ Q) None).
  { replace ((u ++ LF :: P0) ++ R ++ optText G ++ Q)
      with ((u ++ [LF]) ++ (P0 ++ R ++ optText G ++ Q))
      by (rewrite <- !app_assoc; reflexivity).
    rewrite lastChar_app. apply lastChar_nonempty.
    pose proof (goodRepo_length R HR). intros H0.
    apply (f_equal (@List.length _)) in H0. rewrite !length_app in H0.
    simpl in H0. lia. }
  rewrite Hl, <- !app_assoc. reflexivity.
Qed.

(** Lines without a colon are copied, and the walk starts afresh after
    them. *)
Lemma rewriteFrom_after_line (image R t : jsstring) :
  goodRepo R = true ->
  forall (u : jsstring) (b : option char),
    ~ In COLON u ->
    rewriteFrom image R b 0 (u ++ LF :: t)
    = u ++ LF :: rewriteFrom image R None 0 t.
Proof.
  intros HR. induction u as [|c u IH]; intros b Hu.
  - destruct (if lineStart b then tryMatch R ([] ++ LF :: t) else None)
      as [[[[P G] Q] s7]|] eqn:E.
    + destruct (lineStart b) eqn:Eb; [|discriminate].
      destruct (tryMatch_after_line R t [] P Q s7 G Hu E) as (P0 & -> & E0).
      apply (rewriteFrom_match_after_line image R t [] P0 Q s7 G b HR Eb E E0).
    + cbn [app] in *. rewrite (rewriteFrom_copy image R b LF t E). f_equal.
      apply rewriteFrom_lineStart. reflexivity.
  - destruct (if lineStart b then tryMatch R ((c :: u) ++ LF :: t) else None)
      as [[[[P G] Q] s7]|] eqn:E.
    + destruct (lineStart b) eqn:Eb; [|discriminate].
      destruct (tryMatch_after_line R t (c :: u) P Q s7 G Hu E) as (P0 & -> & E0).
      apply (rewriteFrom_match_after_line image R t (c :: u) P0 Q s7 G b HR Eb E E0).
    + cbn [app] in *. rewrite (rewriteFrom_copy image R b c _ E). f_equal.
      apply IH. intros Hin. apply Hu. right. exact Hin.
Qed.

(** X10. Lines without a colon are kept as they are, and the document
    after them is rewritten on its own. *)
Theorem insertImage_after_plain_lines (image before after : jsstring) :
  taggedImage image = true ->
  ~ In COLON before ->
  insertImage image (before ++ LF :: after)
  = before ++ LF :: insertImage image after.
Proof.
  intros Himg Hb.
  destruct (taggedImage_parts image Himg) as (T & _ & HR & _ & _).
  rewrite !(insertImage_rewriteFrom image _ Himg).
  apply rewriteFrom_after_line; assumption.
Qed.

Lemma insertImage_after_plain_lines_witness :
  insertImage (lit "app:2") (lit "services" ++ LF :: lit "  image: app:1")
  = lit "services" ++ LF :: insertImage (lit "app:2") (lit "  image: app:1").
Proof.
  apply insertImage_after_plain_lines.
  - reflexivity.
  - vm_compute. intuition discriminate.
Defined.

Lemma optionalQuote_spec (q : jsstring) :
  optionalQuote q = true -> q = [] \/ exists ch, q = [ch] /\ isQuote ch = true.
Proof.
  destruct q as [|c [|d q]]; simpl; intros H; [left; reflexivity | | discriminate].
  right. exists c. auto.
Qed.

Lemma quote_not_colon (c : char) : isQuote c = true -> (COLON =? c)%N = false.
Proof.
  intros H. destruct (COLON =? c)%N eqn:E; [|reflexivity].
  apply N.eqb_eq in E. subst. discriminate H.
Qed.

(** A declaration closed by a quote: the match ends with that quote. *)
Lemma tryMatch_quoted (R w1 w2 q : jsstring) (tag : option jsstring) (qc : char)
    (rest : jsstring) :
  goodRepo R = true ->
  forallb isWhiteSpace w1 = true ->
  forallb isWhiteSpace w2 = true ->
  optionalQuote q = true ->
  quoteFree (oldTag tag) = true ->
  isQuote qc = true ->
  tryMatch R ((w1 ++ IMAGE_COLON ++ w2 ++ q) ++ R ++ oldTag tag ++ qc :: rest)
  = Some (w1 ++ IMAGE_COLON ++ w2 ++ q,
          match tag with Some old => Some (COLON :: old) | None => None end,
          [qc], rest).
Proof.
  intros HR H1 H2 Hq Ht Hqc. unfold tryMatch.
  rewrite (headMatch_intro R w1 w2 q _ HR H1 H2 (optionalQuote_spec q Hq)).
  destruct tag as [old|]; cbn [oldTag app tagMatch].
  - rewrite N.eqb_refl.
    unfold quoteFree in Ht. cbn [oldTag forallb] in Ht.
    apply andb_true_iff in Ht. destruct Ht as [_ Ht].
    rewrite (span_intro (fun c => negb (isQuote c)) old (qc :: rest) Ht)
      by (rewrite Hqc; reflexivity).
    cbn [optQuote]. rewrite Hqc. reflexivity.
  - rewrite (quote_not_colon qc Hqc). cbn [optQuote]. rewrite Hqc. reflexivity.
Qed.

(** A declaration with a tag and no quote after it: the match runs to
    the end of the text. *)
Lemma tryMatch_unquoted (R w1 w2 q old : jsstring) :
  goodRepo R = true ->
  forallb isWhiteSpace w1 = true ->
  forallb isWhiteSpace w2 = true ->
  optionalQuote q = true ->
  quoteFree old = true ->
  tryMatch R ((w1 ++ IMAGE_COLON ++ w2 ++ q) ++ R ++ COLON :: old)
  = Some (w1 ++ IMAGE_COLON ++ w2 ++ q, Some (COLON :: old), [], []).
Proof.
  intros HR H1 H2 Hq Ht. unfold tryMatch.
  rewrite (headMatch_intro R w1 w2 q _ HR H1 H2 (optionalQuote_spec q Hq)).
  cbn [tagMatch]. rewrite N.eqb_refl.
  rewrite <- (app_nil_r old) at 1.
  rewrite (span_intro (fun c => negb (isQuote c)) old [] Ht I).
  reflexivity.
Qed.

(** Text without a colon that ends where a line starts is copied, and
    the walk starts afresh after it. *)
Lemma rewriteFrom_after_lines (image R before t : jsstring) :
  goodRepo R = true ->
  ~ In COLON before ->
  endsLine before = true ->
  rewriteFrom image R None 0 (before ++ t)
  = before ++ rewriteFrom image R None 0 t.
Proof.
  intros HR Hc He. unfold endsLine in He.
  destruct (rev before) as [|c l] eqn:E.
  - apply (f_equal (@rev _)) in E. rewrite rev_involutive in E. subst before.
    reflexivity.
  - apply (f_equal (@rev _)) in E. rewrite rev_involutive in E. cbn [rev] in E.
    apply N.eqb_eq in He. subst c before.
    rewrite <- !app_assoc. cbn [app].
    apply rewriteFrom_after_line; [exact HR|].
    intros Hin. apply Hc. apply in_or_app. left. exact Hin.
Qed.

(** X11. For an image reference of the form repository:tag, take a
    declaration of its repository that starts the document or comes
    after text without a colon that a line feed ends: white space,
    [image:], white space, an optional quote, the repository, then
    nothing or a colon and an old tag without a quote, then a quote. It
    is rewritten in place: everything up to the repository and the quote
    after the old tag are kept, the repository and the old tag (which may
    run over line ends) give way to the image reference. The text after
    that quote up to a line feed, when it holds no colon, is kept, and
    the text after that line feed is rewritten on its own. *)
Theorem insertImage_quoted_declaration (image before w1 w2 q : jsstring)
    (tag : option jsstring) (qc : char) (u after : jsstring) :
  taggedImage image = true ->
  ~ In COLON before ->
  endsLine before = true ->
  forallb isWhiteSpace w1 = true ->
  forallb isWhiteSpace w2 = true ->
  optionalQuote q = true ->
  quoteFree (oldTag tag) = true ->
  isQuote qc = true ->
  ~ In COLON u ->
  insertImage image
    (before ++ (w1 ++ IMAGE_COLON ++ w2 ++ q) ++ imageWithoutTag image
     ++ oldTag tag ++ qc :: u ++ LF :: after)
  = before ++ (w1 ++ IMAGE_COLON ++ w2 ++ q) ++ image
    ++ qc :: u ++ LF :: insertImage image after.
Proof.
  intros Himg Hb He H1 H2 Hq Ht Hqc Hu.
  destruct (taggedImage_parts image Himg) as (T & _ & HR & _ & _).
  rewrite !(insertImage_rewriteFrom image _ Himg).
  rewrite (rewriteFrom_after_lines image _ before _ HR Hb He). f_equal.
  rewrite (rewriteFrom_match image (imageWithoutTag image) None _ _ [qc]
             (u ++ LF :: after) _ HR eq_refl
             (tryMatch_quoted _ w1 w2 q tag qc _ HR H1 H2 Hq Ht Hqc)).
  cbn [app]. do 3 f_equal.
  apply rewriteFrom_after_line; assumption.
Qed.

Lemma insertImage_quoted_declaration_witness :
  insertImage (lit "app:2")
    (lit "services
" ++ (lit "  " ++ IMAGE_COLON ++ lit " " ++ [QUOTE]) ++ imageWithoutTag (lit "app:2")
     ++ oldTag (Some (lit "1")) ++ QUOTE :: lit " # web" ++ LF :: lit "image: app")
  = lit "services
" ++ (lit "  " ++ IMAGE_COLON ++ lit " " ++ [QUOTE]) ++ lit "app:2"
    ++ QUOTE :: lit " # web" ++ LF :: insertImage (lit "app:2") (lit "image: app").
Proof.
  apply insertImage_quoted_declaration; try reflexivity.
  - vm_compute. intuition discriminate.
  - vm_compute. intuition discriminate.
Defined.

(** X12. For an image reference of the form repository:tag, take a
    declaration of its repository that starts the document or comes
    after text without a colon that a line feed ends, with a colon and an
    old tag after the repository, and let no quote stand anywhere after
    that colon up to the end of the document. The declaration is
    rewritten to the image reference and the whole rest of the document
    after the repository is dropped with the old tag, line ends and
    further lines included. *)
Theorem insertImage_unquoted_tag (image before w1 w2 q old : jsstring) :
  taggedImage image = true ->
  ~ In COLON before ->
  endsLine before = true ->
  forallb isWhiteSpace w1 = true ->
  forallb isWhiteSpace w2 = true ->
  optionalQuote q = true ->
  quoteFree old = true ->
  insertImage image
    (before ++ (w1 ++ IMAGE_COLON ++ w2 ++ q) ++ imageWithoutTag image
     ++ COLON :: old)
  = before ++ (w1 ++ IMAGE_COLON ++ w2 ++ q) ++ image.
Proof.
  intros Himg Hb He H1 H2 Hq Ht.
  destruct (taggedImage_parts image Himg) as (T & _ & HR & _ & _).
  rewrite !(insertImage_rewriteFrom image _ Himg).
  rewrite (rewriteFrom_after_lines image _ before _ HR Hb He). f_equal.
  rewrite (rewriteFrom_match image (imageWithoutTag image) None _ _ [] [] _
             HR eq_refl (tryMatch_unquoted _ w1 w2 q old HR H1 H2 Hq Ht)).
  cbn [app rewriteFrom]. rewrite app_nil_r. reflexivity.
Qed.

Lemma insertImage_unquoted_tag_witness :
  insertImage (lit "app:2")
    (lit "services
" ++ (lit "  " ++ IMAGE_COLON ++ lit " " ++ []) ++ imageWithoutTag (lit "app:2")
     ++ COLON :: lit "1
    ports: 80
  db: x")
  = lit "services
" ++ (lit "  " ++ IMAGE_COLON ++ lit " " ++ []) ++ lit "app:2".
Proof.
  apply insertImage_unquoted_tag; try reflexivity.
  vm_compute. intuition discriminate.
Defined.

(** ** The image rewrite settles after two applications *)

Lemma closedFrom_lineStart (R s : jsstring) (b1 b2 : option char) :
  lineStart b1 = lineStart b2 -> closedFrom R b1 0 s = closedFrom R b2 0 s.
Proof. intros H. destruct s as [|c s]; [reflexivity|]. cbn [closedFrom]. rewrite H. reflexivity. Qed.

(** The walk finds nothing in a text without line ends that starts where
    no line starts. *)
Lemma closedFrom_through (R u v : jsstring) (b : option char) :
  lineStart b = false ->
  forallb (fun c => negb (isLineTerminator c)) u = true ->
  closedFrom R b 0 (u ++ v) = closedFrom R (lastChar u b) 0 v.
Proof.
  revert b; induction u as [|c u IH]; intros b Hb Hu; [reflexivity|].
  cbn [forallb] in Hu. apply andb_true_iff in Hu. destruct Hu as [Hc Hu].
  cbn [app]. rewrite closedFrom_copy by (rewrite Hb; reflexivity).
  rewrite lastChar_cons. apply IH; [|exact Hu].
  cbn [lineStart]. apply negb_true_iff, Hc.
Qed.

Lemma lineStart_lastChar (u : jsstring) (b : option char) :
  u <> [] ->
  forallb (fun c => negb (isLineTerminator c)) u = true ->
  lineStart (lastChar u b) = false.
Proof.
  revert b; induction u as [|c u IH]; intros b Hne Hu; [contradiction|].
  cbn [forallb] in Hu. apply andb_true_iff in Hu. destruct Hu as [Hc Hu].
  rewrite lastChar_cons. destruct u as [|d u].
  - cbn. apply negb_true_iff, Hc.
  - apply IH; [discriminate | exact Hu].
Qed.

Lemma span_app_run (p : char -> bool) (u v : jsstring) :
  forallb p u = true ->
  span p (u ++ v) = (u ++ fst (span p v), snd (span p v)).
Proof.
  intros Hu. induction u as [|c u IH]; [cbn [app]; destruct (span p v); reflexivity|].
  cbn [forallb] in Hu. apply andb_true_iff in Hu. destruct Hu as [Hc Hu].
  cbn [app span]. rewrite Hc, (IH Hu). reflexivity.
Qed.

Lemma span_quote (c : char) (s : jsstring) :
  isQuote c = true -> span (fun c => negb (isQuote c)) (c :: s) = ([], c :: s).
Proof. intros H. cbn [span]. rewrite H. reflexivity. Qed.

Lemma whiteSpace_quoteFree (w : jsstring) :
  forallb isWhiteSpace w = true -> quoteFree w = true.
Proof.
  intros H. unfold quoteFree. rewrite forallb_forall in *. intros c Hc.
  rewrite (whiteSpace_not_quote c (H c Hc)). reflexivity.
Qed.

(** With a tag, an unquoted match ends where the text ends. *)
Lemma tryMatch_open_shape (R s P s7 : jsstring) (G : option jsstring) :
  tryMatch R s = Some (P, G, [], s7) -> G = None \/ s7 = [].
Proof.
  unfold tryMatch. destruct (headMatch R s) as [[P' s5]|]; [|discriminate].
  unfold tagMatch. destruct s5 as [|ch s5].
  - cbn. intros H. inversion H. left. reflexivity.
  - destruct (COLON =? ch)%N.
    + pose proof (span_stop (fun c => negb (isQuote c)) s5) as Hstop.
      destruct (span (fun c => negb (isQuote c)) s5) as [t r]. cbn [snd] in Hstop.
      destruct r as [|q1 r].
      * cbn. intros H. inversion H. right. reflexivity.
      * apply negb_false_iff in Hstop. cbn [optQuote]. rewrite Hstop.
        intros H. discriminate H.
    + intros H. destruct (optQuote (ch :: s5)) as [Q' s7'].
      inversion H. left. reflexivity.
Qed.

Section Settles.

Variables image R T : jsstring.
Hypothesis HR : goodRepo R = true.
Hypothesis Himage : image = R ++ COLON :: T.
Hypothesis HT : forallb (fun c => negb (isQuote c)) T = true.
Hypothesis HRq : quoteFree R = true.
Hypothesis Hline : forallb (fun c => negb (isLineTerminator c)) image = true.

Local Abbreviation rw := (rewriteFrom image R).

Lemma image_quoteFree : quoteFree image = true.
Proof.
  rewrite Himage. unfold quoteFree in *. rewrite forallb_app, HRq.
  cbn [forallb]. rewrite HT. reflexivity.
Qed.

Lemma image_nonempty : image <> [].
Proof. rewrite Himage. destruct R; discriminate. Qed.

(** A position that the walk copies is copied again in the result. *)
Lemma copy_again (b : option char) (c : char) (s : jsstring) :
  (if lineStart b then tryMatch R (c :: s) else None) = None ->
  (if lineStart b then tryMatch R (c :: rw (Some c) 0 s) else None) = None.
Proof.
  intros E. pose proof (headOK_rewrite image R T HR Himage (c :: s) b) as Hh.
  rewrite (rewriteFrom_copy image R b c s E) in Hh.
  destruct (lineStart b); [|reflexivity].
  pose proof (tryMatch_headOK R (c :: s)) as H1. rewrite E in H1.
  pose proof (tryMatch_headOK R (c :: rw (Some c) 0 s)) as H2.
  rewrite Hh, <- H1 in H2.
  destruct (tryMatch R (c :: rw (Some c) 0 s)); [discriminate | reflexivity].
Qed.

(** In the result of the walk every match is closed, from the start and
    from behind its first quote. *)
Lemma rewritten_closed (n : nat) :
  forall (s : jsstring), (List.length s <= n)%nat ->
  forall (b : option char),
    closedFrom R b 0 (rw b 0 s) = true
    /\ closedAfterQuote R (rw b 0 s) = true.
Proof.
  induction n as [|n IH]; intros s Hn b.
  - destruct s; [split; reflexivity | simpl in Hn; lia].
  - destruct s as [|c s]; [split; reflexivity|].
    destruct (if lineStart b then tryMatch R (c :: s) else None)
      as [[[[P G] Q] s7]|] eqn:E.
    + (* a match *)
      destruct (lineStart b) eqn:Eb; [|discriminate].
      pose proof (tryMatch_app R (c :: s) P Q s7 G E) as Hs.
      assert (Hlen : (List.length s7 <= n)%nat).
      { apply (f_equal (@List.length _)) in Hs. rewrite !length_app in Hs.
        pose proof (goodRepo_length R HR). simpl in Hs, Hn. lia. }
      rewrite (rewriteFrom_match image R b (c :: s) P Q s7 G HR Eb E).
      set (b' := lastChar (P ++ R ++ optText G ++ Q) b) in *.
      destruct (IH s7 Hlen b') as [IHa IHb].
      pose proof E as E1. unfold tryMatch in E1.
      destruct (headMatch R (c :: s)) as [[P' s5]|] eqn:Eh; [|discriminate].
      pose proof (optQuote_shape (snd (tagMatch s5))) as HQ.
      destruct (tagMatch s5) as [G' s6]. cbn [snd] in HQ.
      destruct (optQuote s6) as [Q' s7']. cbn [fst] in HQ.
      injection E1 as -> -> -> ->.
      destruct (headMatch_shape R (c :: s) P s5 Eh)
        as (w1 & w2 & q & HP & Hw1 & Hw2 & Hq).
      split.
      * (* from the start *)
        destruct HQ as [-> | (qc & -> & Hqc)].
        -- (* no closing quote: the tag runs into what follows *)
           cbn [app].
           pose proof (span_stop (fun c => negb (isQuote c)) (rw b' 0 s7)) as Hstop.
           pose proof (span_app (fun c => negb (isQuote c)) (rw b' 0 s7)) as Hsp.
           unfold closedAfterQuote in IHb.
           destruct (span (fun c => negb (isQuote c)) (rw b' 0 s7)) as [t1 r] eqn:Espan.
           cbn [fst snd] in *.
           assert (Ht : tryMatch R (P ++ image ++ rw b' 0 s7)
                        = Some (P, Some (COLON :: T ++ t1),
                                fst (optQuote r), snd (optQuote r))).
           { unfold tryMatch. rewrite Himage at 1. rewrite <- !app_assoc.
             rewrite (headMatch_stable R (c :: s) P s5 _ HR Eh).
             cbn [app tagMatch]. rewrite N.eqb_refl.
             rewrite (span_app_run _ T (rw b' 0 s7) HT), Espan. cbn [fst snd].
             destruct (optQuote r). reflexivity. }
           rewrite (closedFrom_match R b _ P _ _ _ HR Eb Ht).
           destruct r as [|q1 rest1].
           ++ reflexivity.
           ++ apply negb_false_iff in Hstop. cbn [optQuote]. rewrite Hstop.
              cbn [fst snd isNil negb orb andb].
              rewrite !app_assoc, lastChar_app. exact IHb.
        -- (* a closing quote *)
           assert (Ht : tryMatch R (P ++ image ++ [qc] ++ rw b' 0 s7)
                        = Some (P, Some (COLON :: T), [qc], rw b' 0 s7)).
           { apply (tryMatch_rewritten image R T HR Himage HT (c :: s) P s5 [qc] _ Eh).
             right. eauto. }
           rewrite (closedFrom_match R b _ P _ _ _ HR Eb Ht).
           cbn [isNil negb orb andb].
           assert (Hb' : b' = Some qc).
           { unfold b'. rewrite !app_assoc, lastChar_app. reflexivity. }
           rewrite !app_assoc, lastChar_app. cbn [lastChar fold_left].
           rewrite Hb' in IHa |- *. exact IHa.
      * (* from behind the first quote *)
        unfold closedAfterQuote.
        assert (HPq : quoteFree (w1 ++ IMAGE_COLON ++ w2) = true).
        { unfold quoteFree. rewrite !forallb_app.
          fold (quoteFree w1). fold (quoteFree w2).
          rewrite (whiteSpace_quoteFree w1 Hw1), (whiteSpace_quoteFree w2 Hw2).
          reflexivity. }
        (* the walk behind a quote, through the image *)
        assert (Hthrough : forall q0, isQuote q0 = true ->
                  closedFrom R (Some q0) 0 (image ++ Q ++ rw b' 0 s7) = true).
        { intros q0 Hq0.
          assert (Hq0l : lineStart (Some q0) = false).
          { cbn. destruct (isLineTerminator q0) eqn:El; [|reflexivity].
            assert (isWhiteSpace q0 = true) as Hws.
            { unfold isWhiteSpace. rewrite El. apply orb_true_r. }
            rewrite (whiteSpace_not_quote q0 Hws) in Hq0. discriminate. }
          destruct HQ as [-> | (qc & -> & Hqc)].
          - cbn [app]. rewrite (closedFrom_through R image _ _ Hq0l Hline).
            destruct (tryMatch_open_shape R (c :: s) P s7 G E) as [-> | ->].
            + rewrite (closedFrom_lineStart R _ (lastChar image (Some q0)) b');
                [exact IHa|].
              rewrite (lineStart_lastChar image _ image_nonempty Hline).
              unfold b'. cbn [optText]. rewrite !app_nil_r, lastChar_app.
              symmetry. apply lineStart_lastChar.
              * destruct R; discriminate.
              * rewrite Himage, forallb_app in Hline.
                apply andb_true_iff in Hline. apply Hline.
            + reflexivity.
          - rewrite app_assoc.
            rewrite (closedFrom_through R (image ++ [qc]) _ _ Hq0l).
            + rewrite lastChar_app. cbn [lastChar fold_left].
              assert (Hb' : b' = Some qc).
              { unfold b'. rewrite !app_assoc, lastChar_app. reflexivity. }
              rewrite Hb' in IHa |- *. exact IHa.
            + rewrite forallb_app, Hline. cbn [forallb].
              destruct (isLineTerminator qc) eqn:El; [|reflexivity].
              assert (isWhiteSpace qc = true) as Hws.
              { unfold isWhiteSpace. rewrite El. apply orb_true_r. }
              rewrite (whiteSpace_not_quote qc Hws) in Hqc. discriminate. }
        destruct Hq as [-> | (q0 & -> & Hq0)].
        -- (* no opening quote *)
           rewrite HP, app_nil_r.
           destruct HQ as [-> | (qc & -> & Hqc)].
           ++ cbn [app].
              replace ((w1 ++ IMAGE_COLON ++ w2) ++ image ++ rw b' 0 s7)
                with (((w1 ++ IMAGE_COLON ++ w2) ++ image) ++ rw b' 0 s7)
                by (rewrite <- !app_assoc; reflexivity).
              rewrite span_app_run.
              ** cbn [snd]. exact IHb.
              ** fold (quoteFree ((w1 ++ IMAGE_COLON ++ w2) ++ image)).
                 unfold quoteFree. rewrite forallb_app.
                 fold (quoteFree (w1 ++ IMAGE_COLON ++ w2)). fold (quoteFree image).
                 rewrite HPq, image_quoteFree. reflexivity.
           ++ replace ((w1 ++ IMAGE_COLON ++ w2) ++ image ++ [qc] ++ rw b' 0 s7)
                with (((w1 ++ IMAGE_COLON ++ w2) ++ image) ++ qc :: rw b' 0 s7)
                by (rewrite <- !app_assoc; reflexivity).
              rewrite span_app_run.
              ** rewrite (span_quote qc _ Hqc). cbn [snd].
                 assert (Hb' : b' = Some qc).
                 { unfold b'. rewrite !app_assoc, lastChar_app. reflexivity. }
                 rewrite Hb' in IHa |- *. exact IHa.
              ** unfold quoteFree in *. rewrite forallb_app.
                 fold (quoteFree image). rewrite HPq, image_quoteFree. reflexivity.
        -- (* an opening quote: it is the first quote *)
           rewrite HP.
           replace ((w1 ++ IMAGE_COLON ++ w2 ++ [q0]) ++ image ++ Q ++ rw b' 0 s7)
             with ((w1 ++ IMAGE_COLON ++ w2) ++ q0 :: image ++ Q ++ rw b' 0 s7)
             by (rewrite <- !app_assoc; reflexivity).
           rewrite span_app_run by exact HPq.
           rewrite (span_quote q0 _ Hq0). cbn [snd].
           apply Hthrough, Hq0.
    + (* a copy *)
      rewrite (rewriteFrom_copy image R b c s E).
      assert (Hlen : (List.length s <= n)%nat) by (simpl in Hn; lia).
      destruct (IH s Hlen (Some c)) as [IHa IHb].
      split.
      * rewrite (closedFrom_copy R b c _ (copy_again b c s E)). exact IHa.
      * unfold closedAfterQuote in *. cbn [span].
        destruct (isQuote c) eqn:Ec; cbn [negb].
        -- cbn [snd]. exact IHa.
        -- destruct (span (fun c0 => negb (isQuote c0)) (rw (Some c) 0 s)) as [t1 r].
           cbn [snd] in *. exact IHb.
Qed.

End Settles.

Lemma in_skipn_in (A : Type) (k : nat) (l : list A) (x : A) :
  In x (skipn k l) -> In x l.
Proof. intros H. rewrite <- (firstn_skipn k l). apply in_or_app. right. exact H. Qed.

Lemma in_firstn_in (A : Type) (k : nat) (l : list A) (x : A) :
  In x (firstn k l) -> In x l.
Proof. intros H. rewrite <- (firstn_skipn k l). apply in_or_app. left. exact H. Qed.

Lemma plainImage_parts (image : jsstring) :
  plainImage image = true ->
  taggedImage image = true
  /\ quoteFree (imageWithoutTag image) = true
  /\ forallb (fun c => negb (isLineTerminator c)) image = true.
Proof.
  unfold plainImage. intros H. apply andb_true_iff in H. destruct H as [Hp Hi].
  assert (Hall : forall c, In c image ->
            isWhiteSpace c = false /\ isQuote c = false /\ (c =? DOLLAR)%N = false).
  { intros c Hc. rewrite forallb_forall in Hp. specialize (Hp c Hc).
    unfold plainChar in Hp. apply andb_true_iff in Hp. destruct Hp as [Hp H3].
    apply andb_true_iff in Hp. destruct Hp as [H1 H2].
    apply negb_true_iff in H1, H2, H3. auto. }
  assert (Hi0 : (0 <= indexOf COLON image)%Z) by (apply Z.ltb_lt in Hi; lia).
  split; [|split].
  - unfold taggedImage. rewrite Hi. cbn [andb].
    apply andb_true_iff. split; [apply andb_true_iff; split|].
    + destruct image as [|c0 image']; [discriminate Hi|].
      cbn [goodRepo]. destruct (Hall c0 (or_introl eq_refl)) as (H1 & H2 & _).
      rewrite H1, H2. reflexivity.
    + apply forallb_forall. intros c Hc. apply negb_true_iff.
      apply Hall. eapply in_skipn_in. exact Hc.
    + apply forallb_forall. intros c Hc. apply negb_true_iff. apply Hall, Hc.
  - rewrite (imageWithoutTag_colon image Hi0). unfold quoteFree.
    apply forallb_forall. intros c Hc. apply negb_true_iff.
    apply Hall. eapply in_firstn_in. exact Hc.
  - apply forallb_forall. intros c Hc. apply negb_true_iff.
    destruct (Hall c Hc) as (H1 & _).
    unfold isWhiteSpace in H1. apply orb_false_iff in H1. apply H1.
Qed.

(** X13. For an image reference of the form repository:tag made of plain
    characters, the rewrite settles after two applications on every
    document: a third application changes nothing. *)
Theorem insertImage_settles (image stackDefinition : jsstring) :
  plainImage image = true ->
  insertImage image (insertImage image (insertImage image stackDefinition))
  = insertImage image (insertImage image stackDefinition).
Proof.
  intros Hp. destruct (plainImage_parts image Hp) as (Himg & HRq & Hline).
  destruct (taggedImage_parts image Himg) as (T & Hparts & HR & HT & Hd).
  rewrite !(insertImage_rewriteFrom image _ Himg).
  apply (rewriteFrom_fixed image (imageWithoutTag image) T HR Hparts HT
           (List.length (rewriteFrom image (imageWithoutTag image) None 0 stackDefinition))
           _ (le_n _) None).
  apply (rewritten_closed image (imageWithoutTag image) T HR Hparts HT HRq Hline
           (List.length stackDefinition) stackDefinition (le_n _) None).
Qed.

Lemma insertImage_settles_witness :
  insertImage (lit "app:2")
    (insertImage (lit "app:2") (insertImage (lit "app:2") (lit "image: app-db:1")))
  = insertImage (lit "app:2") (insertImage (lit "app:2") (lit "image: app-db:1")).
Proof. apply insertImage_settles. reflexivity. Defined.

(* ===================================================================== *)
(** ** The reconciler: failures, the create branch, what is never done *)
(* ===================================================================== *)

Section ReconcilerMore.

Variable TemplateVariables : Type.
Variable workspacePath : jsstring -> Result jsstring.
Variable readFileSync : jsstring -> Result jsstring.
Variable handlebars : jsstring -> TemplateVariables -> Result jsstring.
Variable remote : Remote.

Local Abbreviation deploy := (deployStack workspacePath readFileSync handlebars remote).
Local Abbreviation generate args :=
  (generateNewStackDefinition workspacePath readFileSync handlebars
     (stackDefinitionFile args) (templateVariables args) (image args)).

Lemma deploy_generate_throws (args : DeployStack TemplateVariables) (e : Error) :
  generate args = Throw e -> deploy args newClient = (Throw e, newClient).
Proof.
  intros H. unfold deployStack, bind, lift at 1. rewrite H. reflexivity.
Qed.

(** X14. When the definition cannot be prepared (the file cannot be read,
    is empty, or the template fails), the run fails with that error
    before the login: no call is made. *)
Theorem deployStack_fails_before_login (args : DeployStack TemplateVariables)
    (e : Error) :
  generate args = Throw e ->
  deploy args newClient = (Throw e, newClient)
  /\ calls (snd (deploy args newClient)) = [].
Proof.
  intros H. rewrite (deploy_generate_throws args e H). split; reflexivity.
Qed.

(** X15. A definition file that is empty is reported as a file that could
    not be found, with its path, and nothing is sent to the remote. *)
Theorem deployStack_empty_file (args : DeployStack TemplateVariables)
    (file path : jsstring) :
  stackDefinitionFile args = Some file ->
  truthy (Some file) = true ->
  workspacePath file = Ok path ->
  readFileSync path = Ok [] ->
  deploy args newClient = (Throw (CouldNotFindStackDefinition path), newClient).
Proof.
  intros Hf Ht Hp Hr. apply deploy_generate_throws.
  unfold generateNewStackDefinition. rewrite Hf, Ht. cbn [negb].
  rewrite Hp, Hr. reflexivity.
Qed.

(** X16. When the login fails the run fails with its error after that one
    call: the stacks are not listed, nothing is created or updated, and
    [logout] is not called. *)
Theorem deployStack_login_fails (args : DeployStack TemplateVariables)
    (doc : option jsstring) (e : Error) :
  generate args = Ok doc ->
  auth remote (username args) (password args) = Throw e ->
  deploy args newClient
  = (Throw e, mkClient None [Login (username args) (password args)]).
Proof.
  intros Hgen Hauth. unfold deployStack, bind, lift at 1. rewrite Hgen.
  unfold PortainerApi.login, bind, record, lift, newClient. simpl.
  rewrite Hauth. reflexivity.
Qed.

(** X17. When the listing of the stacks fails the run fails with its
    error; nothing is created or updated, and [logout] is still called. *)
Theorem deployStack_listing_fails (args : DeployStack TemplateVariables)
    (doc : option jsstring) (jwt : jsstring) (e : Error) :
  generate args = Ok doc ->
  auth remote (username args) (password args) = Ok jwt ->
  stacks remote = Throw e ->
  deploy args newClient
  = (Throw e,
     mkClient (Some []) [Login (username args) (password args); GetStacks; Logout]).
Proof.
  intros Hgen Hauth Hs.
  rewrite (deploy_after_login _ workspacePath readFileSync handlebars remote
             args doc jwt Hgen Hauth), tryFinally_logout.
  unfold reconcile, PortainerApi.getStacks, bind, record, lift. simpl.
  rewrite Hs. reflexivity.
Qed.

(** X18. When no stack has the target name and endpoint and a document was
    prepared, the run creates the stack: one [createStack] call between
    the listing and the logout, of type SWARM with the swarm id when one
    is given and of type COMPOSE without it otherwise, with the document,
    the name, the endpoint and the supplied variables; the outcome is
    the remote's answer to that call. *)
Theorem deployStack_creates (args : DeployStack TemplateVariables)
    (text : jsstring) (jwt : jsstring) (allStacks : list StackData) :
  generate args = Ok (Some text) ->
  text <> [] ->
  auth remote (username args) (password args) = Ok jwt ->
  stacks remote = Ok allStacks ->
  Forall (fun s => ~ (Name s = stackName args
                      /\ EndpointId s = endpointId args)) allStacks ->
  deploy args newClient
  = (create remote
       (mkCreateParams (if truthy (swarmId args) then SWARM else COMPOSE)
                       (lit "string") (endpointId args))
       (mkCreateBody (stackName args) text
                     (if truthy (swarmId args) then swarmId args else None)
                     (envVariables args)),
     mkClient (Some [])
       [Login (username args) (password args);
        GetStacks;
        CreateStack
          (mkCreateParams (if truthy (swarmId args) then SWARM else COMPOSE)
                          (lit "string") (endpointId args))
          (mkCreateBody (stackName args) text
                        (if truthy (swarmId args) then swarmId args else None)
                        (envVariables args));
        Logout]).
Proof.
  intros Hgen Htext Hauth Hstacks Hnone.
  assert (Hfind : find (isTarget (stackName args) (endpointId args)) allStacks = None).
  { destruct (find _ allStacks) as [y|] eqn:E; [|reflexivity].
    apply find_some in E. destruct E as [Hin Hy].
    apply isTarget_spec in Hy. rewrite Forall_forall in Hnone.
    exfalso. exact (Hnone y Hin Hy). }
  rewrite (deploy_after_login _ workspacePath readFileSync handlebars remote
             args (Some text) jwt Hgen Hauth), tryFinally_logout.
  rewrite (reconcile_not_found _ remote args (Some text) allStacks _ Hstacks Hfind).
  unfold createNew. destruct text as [|c text]; [contradiction|].
  cbn [truthy negb].
  unfold PortainerApi.createStack, bind, record, lift. simpl.
  destruct (create remote _ _); reflexivity.
Qed.

(** Every run leaves one of five call sequences behind. *)
Lemma deploy_shape (args : DeployStack TemplateVariables) :
  let client := snd (deploy args newClient) in
  let login := Login (username args) (password args) in
  client = newClient
  \/ client = mkClient None [login]
  \/ client = mkClient (Some []) [login; GetStacks; Logout]
  \/ (exists allStacks existingStack body,
        stacks remote = Ok allStacks
        /\ find (isTarget (stackName args) (endpointId args)) allStacks
           = Some existingStack
        /\ client = mkClient (Some [])
             [login; GetStacks;
              UpdateStack (Id existingStack)
                          (mkUpdateParams (EndpointId existingStack)) body;
              Logout])
  \/ (exists text,
        text <> []
        /\ client = mkClient (Some [])
             [login; GetStacks;
              CreateStack
                (mkCreateParams (if truthy (swarmId args) then SWARM else COMPOSE)
                                (lit "string") (endpointId args))
                (mkCreateBody (stackName args) text
                              (if truthy (swarmId args) then swarmId args else None)
                              (envVariables args));
              Logout]).
Proof.
  cbv zeta.
  destruct (generate args) as [doc|e] eqn:Hgen.
  2:{ left. rewrite (deploy_generate_throws args e Hgen). reflexivity. }
  destruct (auth remote (username args) (password args)) as [jwt|e] eqn:Hauth.
  2:{ right; left. unfold deployStack, bind, lift at 1. rewrite Hgen.
      unfold PortainerApi.login, bind, record, lift, newClient. simpl.
      rewrite Hauth. reflexivity. }
  rewrite (deploy_after_login _ workspacePath readFileSync handlebars remote
             args doc jwt Hgen Hauth), tryFinally_logout.
  destruct (stacks remote) as [allStacks|e] eqn:Hs.
  2:{ right; right; left.
      unfold reconcile, PortainerApi.getStacks, bind, record, lift. simpl.
      rewrite Hs. reflexivity. }
  destruct (find (isTarget (stackName args) (endpointId args)) allStacks)
    as [existingStack|] eqn:Hfind.
  - right; right; right; left.
    rewrite (reconcile_found _ remote args doc allStacks existingStack _ Hs Hfind).
    exists allStacks, existingStack.
    unfold updateExisting, PortainerApi.updateStack, bind, record, lift. simpl.
    eexists. split; [reflexivity|]. split; [exact Hfind|]. reflexivity.
  - rewrite (reconcile_not_found _ remote args doc allStacks _ Hs Hfind).
    unfold createNew. destruct doc as [[|c text]|]; cbn [truthy negb].
    + right; right; left. reflexivity.
    + right; right; right; right. exists (c :: text). split; [discriminate|].
      unfold PortainerApi.createStack, bind, record, lift. simpl. reflexivity.
    + right; right; left. reflexivity.
Qed.

(** X19. Whatever the files hold and whatever the remote answers, a run
    makes at most one call that changes the remote: it never creates and
    updates, and never updates two stacks. *)
Theorem deployStack_mutates_at_most_once (args : DeployStack TemplateVariables) :
  (List.length (filter isMutating (calls (snd (deploy args newClient)))) <= 1)%nat.
Proof.
  destruct (deploy_shape args)
    as [H | [H | [H | [(a & s & b & _ & _ & H) | (t & _ & H)]]]];
    rewrite H; simpl; lia.
Qed.

(** X20. Every [createStack] call of a run carries a document that is not
    empty, the target name and the target endpoint, and the method
    [string]; its type is SWARM exactly when it is posted to the swarm path. *)
Theorem createStack_call_well_formed (args : DeployStack TemplateVariables)
    (params : CreateStackParams) (body : CreateStackBody) :
  In (CreateStack params body) (calls (snd (deploy args newClient))) ->
  create_stackFileContent body <> []
  /\ create_name body = stackName args
  /\ create_endpointId params = endpointId args
  /\ create_method params = lit "string"
  /\ create_Env body = envVariables args
  /\ (create_type params = SWARM
      <-> createStackPath body = lit "/stacks/create/swarm/string").
Proof.
  intros Hin.
  destruct (deploy_shape args)
    as [H | [H | [H | [(a & s & b & _ & _ & H) | (t & Ht & H)]]]];
    rewrite H in Hin; simpl in Hin;
    decompose [or] Hin; try discriminate; try contradiction.
  match goal with E : _ = _ |- _ => inversion E end; subst params body. cbn [create_stackFileContent create_name
    create_endpointId create_method create_Env create_type create_swarmID].
  repeat (split; [solve [auto]|]).
  unfold createStackPath. cbn [create_swarmID].
  destruct (truthy (swarmId args)) eqn:E.
  - rewrite E. split; reflexivity.
  - cbn [truthy]. split; intros D; discriminate D.
Qed.

(** X21. Every [updateStack] call of a run addresses a stack of the
    listing that has the target name and the target endpoint, by that
    stack's id and endpoint. *)
Theorem updateStack_call_targets_listed_stack (args : DeployStack TemplateVariables)
    (id : Z) (params : UpdateStackParams) (body : UpdateStackBody) :
  In (UpdateStack id params body) (calls (snd (deploy args newClient))) ->
  exists allStacks existingStack,
    stacks remote = Ok allStacks
    /\ In existingStack allStacks
    /\ Name existingStack = stackName args
    /\ EndpointId existingStack = endpointId args
    /\ id = Id existingStack
    /\ update_endpointId params = endpointId args.
Proof.
  intros Hin.
  destruct (deploy_shape args)
    as [H | [H | [H | [(a & s & b & Hs & Hf & H) | (t & Ht & H)]]]];
    rewrite H in Hin; simpl in Hin;
    decompose [or] Hin; try discriminate; try contradiction.
  match goal with E : _ = _ |- _ => inversion E end; subst id params body.
  apply find_some in Hf. destruct Hf as [Hmem Htarget].
  apply isTarget_spec in Htarget. destruct Htarget as [Hn He].
  exists a, s. repeat split; auto.
Qed.

(** X22. No run ends with the bearer token in the client's header: the
    header is the empty text after the logout, and it was never set when
    the run ended without one. *)
Theorem token_never_left (args : DeployStack TemplateVariables) :
  authorization (snd (deploy args newClient))
  = if existsb isLogout (calls (snd (deploy args newClient)))
    then Some [] else None.
Proof.
  destruct (deploy_shape args)
    as [H | [H | [H | [(a & s & b & _ & _ & H) | (t & _ & H)]]]];
    rewrite H; reflexivity.
Qed.

End ReconcilerMore.

Lemma deployStack_fails_before_login_witness :
  deployStack inWorkspace noFile noTemplate exampleRemote exampleNew newClient
  = (Throw (Thrown (lit "ENOENT")), newClient)
  /\ calls (snd (deployStack inWorkspace noFile noTemplate exampleRemote
                   exampleNew newClient)) = [].
Proof.
  apply (deployStack_fails_before_login unit inWorkspace noFile noTemplate
           exampleRemote exampleNew).
  reflexivity.
Defined.

Lemma deployStack_empty_file_witness :
  deployStack inWorkspace emptyFile noTemplate exampleRemote exampleNew newClient
  = (Throw (CouldNotFindStackDefinition (lit "/github/workspace/stack.yml")),
     newClient).
Proof.
  apply (deployStack_empty_file unit inWorkspace emptyFile noTemplate
           exampleRemote exampleNew (lit "stack.yml")); reflexivity.
Defined.

Lemma deployStack_login_fails_witness :
  deployStack inWorkspace oneFile noTemplate refusingRemote exampleNew newClient
  = (Throw (Thrown (lit "401")),
     mkClient None [Login (lit "ci") (lit "secret")]).
Proof.
  apply (deployStack_login_fails unit inWorkspace oneFile noTemplate
           refusingRemote exampleNew (Some (lit "image: app:1")));
    reflexivity.
Defined.

Lemma deployStack_listing_fails_witness :
  deployStack inWorkspace oneFile noTemplate failingRemote exampleNew newClient
  = (Throw (Thrown (lit "500")),
     mkClient (Some [])
       [Login (lit "ci") (lit "secret"); GetStacks; Logout]).
Proof.
  apply (deployStack_listing_fails unit inWorkspace oneFile noTemplate
           failingRemote exampleNew (Some (lit "image: app:1")) (lit "token"));
    reflexivity.
Defined.

Lemma deployStack_creates_witness :
  deployStack inWorkspace oneFile noTemplate exampleRemote exampleNew newClient
  = (Ok tt,
     mkClient (Some [])
       [Login (lit "ci") (lit "secret");
        GetStacks;
        CreateStack (mkCreateParams SWARM (lit "string") 1)
                    (mkCreateBody (lit "db") (lit "image: app:1")
                                  (Some (lit "swarm1")) None);
        Logout]).
Proof.
  apply (deployStack_creates unit inWorkspace oneFile noTemplate exampleRemote
           exampleNew (lit "image: app:1") (lit "token")
           [mkStack 7 (lit "web") 2 None;
            mkStack 8 (lit "web") 1 (Some [mkEnv (lit "A") (lit "1")]);
            mkStack 9 (lit "web") 1 None]).
  - reflexivity.
  - discriminate.
  - reflexivity.
  - reflexivity.
  - repeat constructor; intros [H _]; discriminate H.
Defined.

Lemma createStack_call_well_formed_witness :
  lit "image: app:1" <> []
  /\ lit "db" = lit "db"
  /\ 1%Z = 1%Z
  /\ lit "string" = lit "string"
  /\ @None EnvVariables = None
  /\ (SWARM = SWARM
      <-> createStackPath (mkCreateBody (lit "db") (lit "image: app:1")
                                        (Some (lit "swarm1")) None)
          = lit "/stacks/create/swarm/string").
Proof.
  apply (createStack_call_well_formed unit inWorkspace oneFile noTemplate
           exampleRemote exampleNew
           (mkCreateParams SWARM (lit "string") 1)
           (mkCreateBody (lit "db") (lit "image: app:1")
                         (Some (lit "swarm1")) None)).
  vm_compute. right; right; left. reflexivity.
Defined.

Lemma updateStack_call_targets_listed_stack_witness :
  exists allStacks existingStack,
    stacks exampleRemote = Ok allStacks
    /\ In existingStack allStacks
    /\ Name existingStack = lit "web"
    /\ EndpointId existingStack = 1%Z
    /\ 8%Z = Id existingStack
    /\ 1%Z = 1%Z.
Proof.
  apply (updateStack_call_targets_listed_stack unit inWorkspace noFile noTemplate
           exampleRemote exampleUpdate 8 (mkUpdateParams 1)
           (mkUpdateBody (Some [mkEnv (lit "A") (lit "1"); mkEnv (lit "B") (lit "2")])
                         None false false)).
  vm_compute. right; right; left. reflexivity.
Defined.

(* ===================================================================== *)
(** ** The entry point: what [run] reports and sends *)
(* ===================================================================== *)

Lemma digitsValue_lower (ds : list Z) (acc : Z) :
  Forall (fun d => (0 <= d < 10)%Z) ds -> (0 <= acc)%Z ->
  (acc <= digitsValue acc ds)%Z.
Proof.
  revert acc; induction ds as [|d ds IH]; intros acc H Hacc; [apply Z.le_refl|].
  inversion H as [|? ? Hd Hds]; subst.
  change (digitsValue acc (d :: ds)) with (digitsValue (acc * 10 + d) ds).
  specialize (IH (acc * 10 + d)%Z Hds). lia.
Qed.

Lemma digitOf_decimal (d : Z) :
  (0 <= d < 10)%Z -> digitOf (Z.to_N (d + 48)) = Some d.
Proof.
  intros Hd. unfold digitOf.
  assert (d = 0 \/ d = 1 \/ d = 2 \/ d = 3 \/ d = 4 \/ d = 5 \/ d = 6
          \/ d = 7 \/ d = 8 \/ d = 9)%Z as Hc by lia.
  repeat (destruct Hc as [-> | Hc]; [reflexivity|]). subst; reflexivity.
Qed.

(** The digits are read up to the first code unit that is not one. *)
Lemma readDigits_stop (seen : bool) (acc : Z) (t : jsstring) :
  stopsDecimal t = true ->
  readDigits 10 seen acc t = if seen then Some acc else None.
Proof.
  destruct t as [|c t]; [reflexivity|]. simpl. intros H.
  apply negb_true_iff in H. unfold digitOf. rewrite H.
  destruct ((97 <=? c)%N && (c <=? 122)%N) eqn:E1.
  - apply andb_true_iff in E1. destruct E1 as [E1 _]. apply N.leb_le in E1.
    destruct (Z.of_N c - 87 <? 10)%Z eqn:E; [apply Z.ltb_lt in E; lia|reflexivity].
  - destruct ((65 <=? c)%N && (c <=? 90)%N) eqn:E2; [|reflexivity].
    apply andb_true_iff in E2. destruct E2 as [E2 _]. apply N.leb_le in E2.
    destruct (Z.of_N c - 55 <? 10)%Z eqn:E; [apply Z.ltb_lt in E; lia|reflexivity].
Qed.

Lemma readDigits_decimal_prefix (ds : list Z) (acc : Z) (seen : bool) (t : jsstring) :
  Forall (fun d => (0 <= d < 10)%Z) ds ->
  stopsDecimal t = true ->
  readDigits 10 seen acc (digitChars ds ++ t)
  = if seen || negb (Nat.eqb (List.length ds) 0)
    then Some (digitsValue acc ds) else None.
Proof.
  revert acc seen; induction ds as [|d ds IH]; intros acc seen H Ht.
  - cbn [digitChars map app List.length Nat.eqb negb digitsValue fold_left].
    rewrite orb_false_r. apply readDigits_stop, Ht.
  - inversion H as [|? ? Hd Hds]; subst.
    change (digitChars (d :: ds) ++ t)
      with (Z.to_N (d + 48) :: (digitChars ds ++ t)).
    cbn [readDigits]. rewrite (digitOf_decimal d Hd).
    destruct (d <? 10)%Z eqn:Hlt; [|apply Z.ltb_ge in Hlt; lia].
    rewrite (IH _ true Hds Ht). simpl. rewrite orb_true_r. reflexivity.
Qed.

Lemma trimStart_skip (w s : jsstring) :
  forallb isWhiteSpace w = true -> trimStart (w ++ s) = trimStart s.
Proof.
  induction w as [|c w IH]; [reflexivity|]. simpl. intros H.
  apply andb_true_iff in H. destruct H as [-> H]. apply IH, H.
Qed.

(** [parseInt] on white space, a decimal number without a leading zero,
    and anything that does not go on with a digit. *)
Lemma parseInt_leading_digits (w t : jsstring) (d : Z) (ds : list Z) :
  forallb isWhiteSpace w = true ->
  (1 <= d < 10)%Z ->
  Forall (fun d => (0 <= d < 10)%Z) ds ->
  stopsDecimal t = true ->
  parseInt (w ++ digitChars (d :: ds) ++ t) = Int (digitsValue 0 (d :: ds)).
Proof.
  intros Hw Hd Hds Ht.
  assert (Hall : Forall (fun d => (0 <= d < 10)%Z) (d :: ds)).
  { constructor; [lia | exact Hds]. }
  pose proof (readDigits_decimal_prefix (d :: ds) 0 false t Hall Ht) as HR.
  unfold parseInt. rewrite (trimStart_skip w _ Hw).
  assert (d = 1 \/ d = 2 \/ d = 3 \/ d = 4 \/ d = 5 \/ d = 6
          \/ d = 7 \/ d = 8 \/ d = 9)%Z as Hc by lia.
  change (digitChars (d :: ds) ++ t)
    with (Z.to_N (d + 48) :: (digitChars ds ++ t)) in *.
  assert (Hhead : isWhiteSpace (Z.to_N (d + 48)) = false
                  /\ (Z.to_N (d + 48) =? 45)%N = false
                  /\ (Z.to_N (d + 48) =? 43)%N = false
                  /\ (Z.to_N (d + 48) =? 48)%N = false).
  { repeat (destruct Hc as [-> | Hc]; [repeat split; reflexivity|]).
    subst; repeat split; reflexivity. }
  destruct Hhead as (Hws & H45 & H43 & H48).
  cbn [trimStart]. rewrite Hws, H45, H43.
  rewrite H48. cbn [andb]. revert HR.
  destruct (digitChars ds ++ t) as [|e u]; intros HR; cbv iota beta;
    rewrite HR; simpl; f_equal;
    destruct (digitsValue d ds); reflexivity.
Qed.

Section RunMore.

Variable TemplateVariables : Type.
Variable jsonParse : jsstring -> Result (option TemplateVariables).
Variable workspacePath : jsstring -> Result jsstring.
Variable readFileSync : jsstring -> Result jsstring.
Variable handlebars : jsstring -> TemplateVariables -> Result jsstring.
Variable remote : Remote.
Variable getInput : jsstring -> bool -> Result jsstring.
Variable getBooleanInput : jsstring -> Result bool.

Local Abbreviation inputs := (readInputs getInput getBooleanInput).
Local Abbreviation runAction :=
  (run jsonParse workspacePath readFileSync handlebars remote
       getInput getBooleanInput).

(** X23. The endpoint id is read the way [parseInt] reads: white space in
    front is skipped and whatever follows the digits is ignored, so an
    input that starts with a decimal number without a leading zero, of a
    value up to 2^53 (where a double holds every integer exactly), gives
    that number, and never the default. *)
Theorem endpoint_id_reads_leading_digits (i : Inputs)
    (args : DeployStack TemplateVariables)
    (w t : jsstring) (d : Z) (ds : list Z) :
  deployStackArguments jsonParse i = Ok args ->
  input_endpointId i = w ++ digitChars (d :: ds) ++ t ->
  forallb isWhiteSpace w = true ->
  (1 <= d < 10)%Z ->
  Forall (fun d => (0 <= d < 10)%Z) ds ->
  stopsDecimal t = true ->
  (digitsValue 0 (d :: ds) <= MAX_EXACT)%Z ->
  endpointId args = digitsValue 0 (d :: ds).
Proof.
  intros Hargs Hi Hw Hd Hds Ht _.
  unfold deployStackArguments in Hargs.
  destruct (if truthy (Some (input_templateVariables i)) then _ else _) as [tv|e];
    [|discriminate].
  inversion Hargs; subst args. cbn [endpointId].
  rewrite Hi, (parseInt_leading_digits w t d ds Hw Hd Hds Ht). unfold orOne.
  pose proof (digitsValue_lower ds (0 * 10 + d) Hds ltac:(lia)) as Hlow.
  change (digitsValue 0 (d :: ds)) with (digitsValue (0 * 10 + d) ds).
  destruct (digitsValue (0 * 10 + d) ds =? 0)%Z eqn:E; [|reflexivity].
  apply Z.eqb_eq in E. lia.
Qed.

(** X24. Template variables that are not valid JSON fail the run with the
    parser's error before anything is read from the workspace or sent to
    the remote. *)
Theorem run_malformed_template_variables (i : Inputs) (e : Error) :
  inputs = Ok i ->
  input_templateVariables i <> [] ->
  jsonParse (input_templateVariables i) = Throw e ->
  runAction = (Failed e, newClient).
Proof.
  intros Hi Hne Hjson. unfold run. rewrite Hi. cbn [andThen].
  unfold deployStackArguments.
  destruct (input_templateVariables i) as [|c tv] eqn:E; [contradiction|].
  cbn [truthy negb]. rewrite Hjson. reflexivity.
Qed.

(** X25. With no definition file, no template variables and no environment
    variables given, a run on an existing stack redeploys it as it is:
    one [updateStack] call with the stack's own environment and no
    document, the prune and pull flags as given; the run is reported as
    done exactly when the remote accepts that call. *)
Theorem run_redeploys_existing_stack (i : Inputs) (jwt : jsstring)
    (allStacks : list StackData) (existingStack : StackData) :
  inputs = Ok i ->
  input_stackDefinitionFile i = [] ->
  input_templateVariables i = [] ->
  input_envVariables i = [] ->
  auth remote (input_username i) (input_password i) = Ok jwt ->
  stacks remote = Ok allStacks ->
  find (isTarget (input_stackName i) (orOne (parseInt (input_endpointId i))))
       allStacks = Some existingStack ->
  runAction
  = (match update remote (Id existingStack)
             (mkUpdateParams (EndpointId existingStack))
             (mkUpdateBody (Env existingStack) None
                           (input_pruneStack i) (input_pullImage i)) with
     | Ok _ => Done
     | Throw e => Failed e
     end,
     mkClient (Some [])
       [Login (input_username i) (input_password i);
        GetStacks;
        UpdateStack (Id existingStack)
          (mkUpdateParams (EndpointId existingStack))
          (mkUpdateBody (Env existingStack) None
                        (input_pruneStack i) (input_pullImage i));
        Logout]).
Proof.
  intros Hi Hfile Htv Henv Hauth Hs Hfind.
  unfold run. rewrite Hi. cbn [andThen].
  unfold deployStackArguments. rewrite Hfile, Htv, Henv. cbn [truthy negb].
  set (args := mkDeployStack _ _ _ _ _ _ _ _ _ _ _).
  assert (Hgen : generateNewStackDefinition workspacePath readFileSync handlebars
                   (stackDefinitionFile args) (templateVariables args) (image args)
                 = Ok None) by reflexivity.
  rewrite (deploy_after_login _ workspacePath readFileSync handlebars remote
             args None jwt Hgen Hauth), tryFinally_logout.
  rewrite (reconcile_found _ remote args None allStacks existingStack _ Hs Hfind).
  unfold updateExisting, PortainerApi.updateStack, bind, record, lift. simpl.
  rewrite !orb_false_r.
  destruct (update remote _ _ _); reflexivity.
Qed.

End RunMore.

Lemma endpoint_id_reads_leading_digits_witness :
  endpointId (mkDeployStack (TemplateVariables := unit)
                (lit "ci") (lit "secret") (Some []) 12 (lit "web") (Some [])
                None None (Some []) (Some false) (Some false))
  = digitsValue 0 [1; 2]%Z.
Proof.
  apply (endpoint_id_reads_leading_digits unit noJson
           (exampleInputs (lit " 12abc")) _ (lit " ") (lit "abc") 1 [2%Z]).
  - reflexivity.
  - reflexivity.
  - reflexivity.
  - lia.
  - repeat constructor; lia.
  - reflexivity.
  - vm_compute. discriminate.
Defined.

Lemma run_malformed_template_variables_witness :
  run badJson inWorkspace oneFile noTemplate exampleRemote
      templatedGetInput exampleGetBooleanInput
  = (Failed (Thrown (lit "SyntaxError")), newClient).
Proof.
  apply (run_malformed_template_variables unit badJson inWorkspace oneFile
           noTemplate exampleRemote templatedGetInput exampleGetBooleanInput
           (mkInputs (lit "ci") (lit "secret") [] (lit "2") (lit "web") []
                     (lit "{") [] [] false false)).
  - reflexivity.
  - discriminate.
  - reflexivity.
Defined.

Lemma run_redeploys_existing_stack_witness :
  run noJson inWorkspace noFile noTemplate exampleRemote
      exampleGetInput exampleGetBooleanInput
  = (Done,
     mkClient (Some [])
       [Login (lit "ci") (lit "secret");
        GetStacks;
        UpdateStack 7 (mkUpdateParams 2) (mkUpdateBody None None false false);
        Logout]).
Proof.
  apply (run_redeploys_existing_stack unit noJson inWorkspace noFile noTemplate
           exampleRemote exampleGetInput exampleGetBooleanInput
           (mkInputs (lit "ci") (lit "secret") [] (lit "2") (lit "web") []
                     [] [] [] false false)
           (lit "token")
           [mkStack 7 (lit "web") 2 None;
            mkStack 8 (lit "web") 1 (Some [mkEnv (lit "A") (lit "1")]);
            mkStack 9 (lit "web") 1 None]
           (mkStack 7 (lit "web") 2 None));
    reflexivity.
Defined.

(* ===================================================================== *)
(** ** The parser on the lines of its input *)
(* ===================================================================== *)

(** Every text is made of lines and line breaks, in one way. *)
Lemma noLineBreak_tail (c : char) (t : jsstring) :
  noLineBreak (c :: t) = true -> noLineBreak t = true.
Proof.
  cbn [noLineBreak]. intros H. apply andb_true_iff in H. apply H.
Qed.

Lemma every_text_is_lines (text : jsstring) :
  exists first rest,
    text = joinLines first rest
    /\ forallb noLineBreak (first :: map snd rest) = true.
Proof.
  induction text as [|c text IH].
  - exists [], []. split; reflexivity.
  - destruct IH as (first & rest & -> & Hl).
    cbn [forallb] in Hl. apply andb_true_iff in Hl. destruct Hl as [Hf Hr].
    destruct (c =? LF)%N eqn:Ec.
    + apply N.eqb_eq in Ec. subst c.
      exists [], ((LineFeed, first) :: rest). split; [reflexivity|].
      cbn [map snd forallb noLineBreak]. rewrite Hf, Hr. reflexivity.
    + destruct ((c =? BACKSLASH)%N
                && match first with d :: _ => (d =? 110)%N | [] => false end) eqn:Ee.
      * apply andb_true_iff in Ee. destruct Ee as [Eb En].
        destruct first as [|d first]; [discriminate|].
        apply N.eqb_eq in Eb, En. subst c d.
        exists [], ((EscapedLineFeed, first) :: rest). split.
        -- destruct rest as [|[b l] rest]; reflexivity.
        -- cbn [map snd forallb noLineBreak].
           rewrite (noLineBreak_tail _ _ Hf), Hr. reflexivity.
      * exists (c :: first), rest. split.
        -- destruct rest as [|[b l] rest]; reflexivity.
        -- cbn [forallb noLineBreak]. rewrite Ec, Ee, Hf, Hr. reflexivity.
Qed.

Lemma noLineBreak_no_LF (line : jsstring) :
  noLineBreak line = true -> ~ In LF line.
Proof.
  induction line as [|c t IH]; intros H Hin; [contradiction|].
  cbn [noLineBreak] in H. apply andb_true_iff in H. destruct H as [H Ht].
  apply andb_true_iff in H. destruct H as [Hc _].
  destruct Hin as [-> | Hin]; [discriminate Hc | exact (IH Ht Hin)].
Qed.

(** Expanding the escapes leaves a line as it is, when what follows does
    not start with [n]. *)
Lemma unescape_line (line t : jsstring) :
  noLineBreak line = true ->
  match t with d :: _ => (d =? 110)%N = false | [] => True end ->
  unescapeNewlines (line ++ t) = line ++ unescapeNewlines t.
Proof.
  induction line as [|c l IH]; intros H Ht; [reflexivity|].
  cbn [noLineBreak] in H. apply andb_true_iff in H. destruct H as [H Hl].
  apply andb_true_iff in H. destruct H as [_ He]. apply negb_true_iff in He.
  cbn [app unescapeNewlines].
  destruct l as [|d l'].
  - cbn [app] in *. destruct t as [|d t']; [reflexivity|].
    rewrite Ht, andb_false_r. reflexivity.
  - cbn [app] in *. rewrite He. f_equal. apply (IH Hl Ht).
Qed.

Lemma unescape_lines (rest : list (LineBreak * jsstring)) (first : jsstring) :
  forallb noLineBreak (first :: map snd rest) = true ->
  unescapeNewlines (joinLines first rest) = join [LF] (first :: map snd rest).
Proof.
  revert first; induction rest as [|[b line] rest IH]; intros first H.
  - cbn [forallb map] in H. rewrite andb_true_r in H.
    cbn [joinLines map join]. rewrite <- (app_nil_r first) at 1.
    rewrite (unescape_line first [] H I). apply app_nil_r.
  - cbn [forallb map snd] in H. apply andb_true_iff in H. destruct H as [Hf Hr].
    specialize (IH line Hr).
    change (join [LF] (first :: map snd ((b, line) :: rest)))
      with (first ++ LF :: join [LF] (line :: map snd rest)).
    cbn [joinLines]. destruct b; cbn [lineBreak app].
    + rewrite (unescape_line first _ Hf) by reflexivity.
      f_equal. cbn [unescapeNewlines].
      destruct (joinLines line rest) as [|d u] eqn:E.
      * rewrite <- IH. reflexivity.
      * change (LF =? BACKSLASH)%N with false. cbn [andb]. f_equal. exact IH.
    + rewrite (unescape_line first _ Hf) by reflexivity.
      f_equal. cbn [unescapeNewlines].
      change (BACKSLASH =? BACKSLASH)%N with true.
      change (110 =? 110)%N with true. cbn [andb]. f_equal. exact IH.
Qed.

(** White space around a line changes neither whether it is blank nor
    the variable it gives. *)
Lemma trim_ws_cons (c : char) (s : jsstring) :
  isWhiteSpace c = true -> trim (c :: s) = trim s.
Proof. intros H. unfold trim. cbn [trimStart]. rewrite H. reflexivity. Qed.

Lemma trimStart_snoc (c : char) (s : jsstring) :
  isWhiteSpace c = true ->
  trimStart (s ++ [c]) = if forallb isWhiteSpace s then [] else trimStart s ++ [c].
Proof.
  intros Hc. induction s as [|d s IH].
  - cbn. rewrite Hc. reflexivity.
  - cbn [app trimStart forallb]. destruct (isWhiteSpace d); [exact IH | reflexivity].
Qed.

Lemma trimEnd_snoc (c : char) (s : jsstring) :
  isWhiteSpace c = true -> trimEnd (s ++ [c]) = trimEnd s.
Proof.
  intros Hc. unfold trimEnd. rewrite rev_app_distr. cbn [rev app trimStart].
  rewrite Hc. reflexivity.
Qed.

Lemma trim_ws_snoc (c : char) (s : jsstring) :
  isWhiteSpace c = true -> trim (s ++ [c]) = trim s.
Proof.
  intros Hc. unfold trim. rewrite (trimStart_snoc c s Hc).
  destruct (forallb isWhiteSpace s) eqn:E.
  - rewrite (trimStart_all s E). reflexivity.
  - apply trimEnd_snoc, Hc.
Qed.

Lemma whiteSpace_not_equals (c : char) :
  isWhiteSpace c = true -> (c =? EQUALS)%N = false.
Proof.
  intros H. destruct (c =? EQUALS)%N eqn:E; [|reflexivity].
  apply N.eqb_eq in E. subst. discriminate H.
Qed.

Lemma split_snoc_sep (sep : char) (s : jsstring) :
  split sep (s ++ [sep]) = split sep s ++ [[]].
Proof.
  induction s as [|x s IH].
  - cbn. rewrite N.eqb_refl. reflexivity.
  - cbn [app split]. rewrite IH. destruct (x =? sep)%N; [reflexivity|].
    destruct (split sep s) as [|p ps] eqn:E; [|reflexivity].
    exfalso. exact (split_not_nil sep s E).
Qed.

Lemma split_snoc (sep c : char) (s : jsstring) :
  (c =? sep)%N = false ->
  exists init last,
    split sep s = init ++ [last] /\ split sep (s ++ [c]) = init ++ [last ++ [c]].
Proof.
  intros Hc. induction s as [|x s (init & last & E1 & E2)].
  - exists [], []. cbn. rewrite Hc. split; reflexivity.
  - cbn [app split]. rewrite E1, E2. destruct (x =? sep)%N.
    + exists ([] :: init), last. split; reflexivity.
    + destruct init as [|p init]; cbn [app].
      * exists [], (x :: last). split; reflexivity.
      * exists ((x :: p) :: init), last. split; reflexivity.
Qed.

Lemma join_cons (sep p : jsstring) (ps : list jsstring) :
  ps <> [] -> join sep (p :: ps) = p ++ sep ++ join sep ps.
Proof. destruct ps; [contradiction | reflexivity]. Qed.

Lemma join_snoc (sep : jsstring) (init : list jsstring) (last t : jsstring) :
  join sep (init ++ [last ++ t]) = join sep (init ++ [last]) ++ t.
Proof.
  induction init as [|p init IH]; [reflexivity|].
  cbn [app]. rewrite !join_cons by (destruct init; discriminate).
  rewrite IH, <- !app_assoc. reflexivity.
Qed.

Lemma nonBlank_ws_cons (c : char) (s : jsstring) :
  isWhiteSpace c = true -> nonBlank (c :: s) = nonBlank s.
Proof. intros H. unfold nonBlank. rewrite (trim_ws_cons c s H). reflexivity. Qed.

Lemma nonBlank_ws_snoc (c : char) (s : jsstring) :
  isWhiteSpace c = true -> nonBlank (s ++ [c]) = nonBlank s.
Proof. intros H. unfold nonBlank. rewrite (trim_ws_snoc c s H). reflexivity. Qed.

Lemma parseLine_ws_cons (c : char) (s : jsstring) :
  isWhiteSpace c = true -> parseLine (c :: s) = parseLine s.
Proof.
  intros H. unfold parseLine. cbn [split]. rewrite (whiteSpace_not_equals c H).
  destruct (split EQUALS s) as [|n r] eqn:E; [exfalso; exact (split_not_nil _ _ E)|].
  rewrite (trim_ws_cons c n H). reflexivity.
Qed.

Lemma parseLine_ws_snoc (c : char) (s : jsstring) :
  isWhiteSpace c = true -> parseLine (s ++ [c]) = parseLine s.
Proof.
  intros H. unfold parseLine.
  destruct (split_snoc EQUALS c s (whiteSpace_not_equals c H))
    as (init & last & E1 & E2).
  rewrite E1, E2. destruct init as [|n init]; cbn [app].
  - rewrite (trim_ws_snoc c last H). reflexivity.
  - rewrite join_snoc, (trim_ws_snoc c _ H). reflexivity.
Qed.

(** The variables of a text, line by line. *)
Lemma lines_ws_cons (c : char) (s : jsstring) :
  isWhiteSpace c = true ->
  map parseLine (filter nonBlank (split LF (c :: s)))
  = map parseLine (filter nonBlank (split LF s)).
Proof.
  intros H. cbn [split]. destruct (c =? LF)%N; [reflexivity|].
  destruct (split LF s) as [|p ps] eqn:E; [exfalso; exact (split_not_nil _ _ E)|].
  cbn [filter]. rewrite (nonBlank_ws_cons c p H).
  destruct (nonBlank p); [|reflexivity].
  cbn [map]. rewrite (parseLine_ws_cons c p H). reflexivity.
Qed.

Lemma lines_ws_snoc (c : char) (s : jsstring) :
  isWhiteSpace c = true ->
  map parseLine (filter nonBlank (split LF (s ++ [c])))
  = map parseLine (filter nonBlank (split LF s)).
Proof.
  intros H. destruct (c =? LF)%N eqn:Ec.
  - apply N.eqb_eq in Ec. subst c. rewrite split_snoc_sep, filter_app.
    cbn [filter]. change (nonBlank []) with false. rewrite app_nil_r. reflexivity.
  - destruct (split_snoc LF c s Ec) as (init & last & E1 & E2).
    rewrite E1, E2, !filter_app, !map_app. f_equal. cbn [filter].
    rewrite (nonBlank_ws_snoc c last H). destruct (nonBlank last); [|reflexivity].
    cbn [map]. rewrite (parseLine_ws_snoc c last H). reflexivity.
Qed.

Lemma lines_ws_before (w s : jsstring) :
  forallb isWhiteSpace w = true ->
  map parseLine (filter nonBlank (split LF (w ++ s)))
  = map parseLine (filter nonBlank (split LF s)).
Proof.
  induction w as [|c w IH]; intros H; [reflexivity|].
  cbn [forallb] in H. apply andb_true_iff in H. destruct H as [Hc Hw].
  cbn [app]. rewrite (lines_ws_cons c _ Hc). apply IH, Hw.
Qed.

Lemma lines_ws_after (w s : jsstring) :
  forallb isWhiteSpace w = true ->
  map parseLine (filter nonBlank (split LF (s ++ w)))
  = map parseLine (filter nonBlank (split LF s)).
Proof.
  revert s; induction w as [|c w IH]; intros s H; [rewrite app_nil_r; reflexivity|].
  cbn [forallb] in H. apply andb_true_iff in H. destruct H as [Hc Hw].
  replace (s ++ c :: w) with ((s ++ [c]) ++ w) by (rewrite <- app_assoc; reflexivity).
  rewrite (IH _ Hw). apply lines_ws_snoc, Hc.
Qed.

(** The trimming of the whole text does not change the outcome. *)
Lemma lines_trim (s : jsstring) :
  map parseLine (filter nonBlank (split LF (trim s)))
  = map parseLine (filter nonBlank (split LF s)).
Proof.
  destruct (trimStart_app s) as (w & Hs & Hw).
  destruct (trimEnd_app (trimStart s)) as (w' & Hs' & Hw').
  rewrite Hs at 2. rewrite (lines_ws_before w _ Hw).
  rewrite Hs'. fold (trim s). symmetry. apply lines_ws_after, Hw'.
Qed.

Lemma nonBlank_blank (line : jsstring) : nonBlank line = negb (blank line).
Proof.
  unfold nonBlank, blank. destruct (forallb isWhiteSpace line) eqn:E.
  - rewrite (trim_all line E). reflexivity.
  - destruct (str_eqb (trim line) []) eqn:Et; [|reflexivity].
    apply str_eqb_eq, trim_nil_all in Et. congruence.
Qed.

(** C7. Every text is made of lines and line breaks (a line feed, or
    backslash and [n]); for every such text [parseEnvVariables] returns,
    in the order of the lines and without dropping duplicates, one
    variable for each line that is not blank: for a line without [=] its
    trimmed text with the empty value, for a line with [=] the trimmed
    text before the first [=] and the trimmed text after it (which may
    hold further [=]). No line makes it fail: the function is total. *)
Theorem parseEnvVariables_lines (first : jsstring)
    (rest : list (LineBreak * jsstring)) :
  forallb noLineBreak (first :: map snd rest) = true ->
  parseEnvVariables (joinLines first rest)
  = map (fun line =>
           if (indexOf EQUALS line <? 0)%Z
           then {| name := trim line; value := [] |}
           else {| name := trim (firstn (Z.to_nat (indexOf EQUALS line)) line);
                   value := trim (skipn (Z.to_nat (indexOf EQUALS line) + 1) line) |})
        (filter (fun line => negb (blank line)) (first :: map snd rest)).
Proof.
  intros H. unfold parseEnvVariables.
  rewrite (unescape_lines rest first H), lines_trim, split_join.
  - rewrite (filter_ext _ _ nonBlank_blank).
    apply map_ext. intros line. apply parseLine_refines_spec.
  - apply Forall_forall. intros l Hl. apply noLineBreak_no_LF.
    rewrite forallb_forall in H. apply H, Hl.
Qed.

Lemma parseEnvVariables_lines_witness :
  parseEnvVariables
    (joinLines (lit " A = b=c ")
       [(EscapedLineFeed, lit "  "); (LineFeed, lit "FOO");
        (LineFeed, []); (EscapedLineFeed, lit "A=2")])
  = [mkEnv (lit "A") (lit "b=c"); mkEnv (lit "FOO") []; mkEnv (lit "A") (lit "2")].
Proof.
  apply (parseEnvVariables_lines (lit " A = b=c ")
           [(EscapedLineFeed, lit "  "); (LineFeed, lit "FOO");
            (LineFeed, []); (EscapedLineFeed, lit "A=2")]).
  reflexivity.
Defined.

(* ===================================================================== *)
(** ** The pattern text of the image rewrite, read as [RegExp] reads it *)
(* ===================================================================== *)

Section Equivalence.
Import RegExpSource.

Lemma repeatMatcher_ext (m : State -> Continuation -> option State)
    (groups : list nat) :
  (forall x c1 c2, (forall y, c1 y = c2 y) -> m x c1 = m x c2) ->
  forall (max : nat) (x : State) (c1 c2 : Continuation),
    (forall y, c1 y = c2 y) ->
    repeatMatcher m groups max x c1 = repeatMatcher m groups max x c2.
Proof.
  intros Hm. induction max as [|max IH]; intros x c1 c2 Hc; cbn [repeatMatcher].
  - apply Hc.
  - rewrite (Hm (resetCaptures groups x) _
               (fun y => if (endIndex y =? endIndex x)%nat then None
                         else repeatMatcher m groups max y c2)).
    + rewrite (Hc x). reflexivity.
    + intros y. destruct (endIndex y =? endIndex x)%nat; [reflexivity|].
      apply IH, Hc.
Qed.

(** The outcome depends on the continuation through its values only. *)
Lemma matcher_ext (r : re) :
  forall (x : State) (c1 c2 : Continuation),
    (forall y, c1 y = c2 y) -> matcher r x c1 = matcher r x c2.
Proof.
  induction r as [p| |r1 IH1 r2 IH2|r IH|r IH|n r IH|]; intros x c1 c2 Hc;
    cbn [matcher].
  - destruct (rest x) as [|ch s]; [reflexivity|].
    destruct (p ch); [apply Hc | reflexivity].
  - apply Hc.
  - apply IH1. intros y. apply IH2, Hc.
  - apply repeatMatcher_ext; assumption.
  - apply repeatMatcher_ext; assumption.
  - apply IH. intros y. apply Hc.
  - destruct (prev x) as [ch|]; [|apply Hc].
    destruct (isLineTerminator ch); [apply Hc | reflexivity].
Qed.

Lemma repeatMatcher_same (m1 m2 : State -> Continuation -> option State)
    (groups : list nat) :
  (forall x c, m1 x c = m2 x c) ->
  (forall x c1 c2, (forall y, c1 y = c2 y) -> m2 x c1 = m2 x c2) ->
  forall (max : nat) (x : State) (c : Continuation),
    repeatMatcher m1 groups max x c = repeatMatcher m2 groups max x c.
Proof.
  intros H12 Hext. induction max as [|max IH]; intros x c; cbn [repeatMatcher];
    [reflexivity|].
  rewrite H12.
  rewrite (Hext (resetCaptures groups x) _
             (fun y => if (endIndex y =? endIndex x)%nat then None
                       else repeatMatcher m2 groups max y c)); [reflexivity|].
  intros y. destruct (endIndex y =? endIndex x)%nat; [reflexivity | apply IH].
Qed.

Lemma equivalent_refl (r : re) : equivalent r r.
Proof. split; reflexivity. Qed.

Lemma equivalent_trans (r1 r2 r3 : re) :
  equivalent r1 r2 -> equivalent r2 r3 -> equivalent r1 r3.
Proof.
  intros [G1 M1] [G2 M2]. split; [congruence|].
  intros x c. rewrite M1. apply M2.
Qed.

Lemma equivalent_chr (p q : char -> bool) :
  (forall ch, p ch = q ch) -> equivalent (Chr p) (Chr q).
Proof.
  intros H. split; [reflexivity|]. intros x c. cbn [matcher].
  destruct (rest x) as [|ch s]; [reflexivity|]. rewrite H. reflexivity.
Qed.

Lemma equivalent_seq (a a' b b' : re) :
  equivalent a a' -> equivalent b b' -> equivalent (Seq a b) (Seq a' b').
Proof.
  intros [Ga Ma] [Gb Mb]. split; [cbn [groupsOf]; congruence|].
  intros x c. cbn [matcher]. rewrite Ma. apply matcher_ext. intros y. apply Mb.
Qed.

Lemma equivalent_group (n : nat) (a a' : re) :
  equivalent a a' -> equivalent (Group n a) (Group n a').
Proof.
  intros [Ga Ma]. split; [cbn [groupsOf]; congruence|].
  intros x c. cbn [matcher]. apply Ma.
Qed.

Lemma equivalent_star (a a' : re) :
  equivalent a a' -> equivalent (Star a) (Star a').
Proof.
  intros [Ga Ma]. split; [exact Ga|].
  intros x c. cbn [matcher]. rewrite Ga.
  apply repeatMatcher_same; [exact Ma | apply matcher_ext].
Qed.

Lemma equivalent_opt (a a' : re) :
  equivalent a a' -> equivalent (Opt a) (Opt a').
Proof.
  intros [Ga Ma]. split; [exact Ga|].
  intros x c. cbn [matcher]. rewrite Ga.
  apply repeatMatcher_same; [exact Ma | apply matcher_ext].
Qed.

Lemma equivalent_seq_empty (a : re) : equivalent (Seq a Empty) a.
Proof.
  split; [cbn [groupsOf]; apply app_nil_r|].
  intros x c. cbn [matcher]. apply matcher_ext. reflexivity.
Qed.

(** Pattern characters in a row are the literal of their text. *)
Lemma sequence_literal (t : jsstring) (terms : list re) :
  equivalent (sequence (map patternCharacter t ++ terms))
             (Seq (literal t) (sequence terms)).
Proof.
  induction t as [|ch t [G M]].
  - split; reflexivity.
  - split.
    + cbn [map app sequence fold_right literal groupsOf patternCharacter] in *.
      exact G.
    + intros x c. cbn [map app sequence fold_right literal matcher patternCharacter].
      destruct (rest x) as [|d s]; [reflexivity|].
      destruct (ch =? d)%N; [|reflexivity]. apply M.
Qed.

Lemma equivalent_matchAt (r1 r2 : re) (n : nat) (b : option char) (i : nat)
    (s : jsstring) :
  equivalent r1 r2 -> matchAt r1 n b i s = matchAt r2 n b i s.
Proof. intros [_ M]. unfold matchAt. rewrite M. reflexivity. Qed.

Lemma equivalent_scan (r1 r2 : re) (n : nat) :
  equivalent r1 r2 ->
  forall (s : jsstring) (b : option char) (k i : nat),
    scan r1 n b k i s = scan r2 n b k i s.
Proof.
  intros H. induction s as [|c s IH]; intros b k i; cbn [scan].
  - rewrite (equivalent_matchAt r1 r2 n b i [] H). reflexivity.
  - rewrite (equivalent_matchAt r1 r2 n b i (c :: s) H).
    destruct k; [|apply IH].
    destruct (matchAt r2 n b i (c :: s)) as [m|]; rewrite ?IH; [|reflexivity].
    destruct (List.length (matched m)); rewrite ?IH; reflexivity.
Qed.

Lemma equivalent_replace (r1 r2 : re) (n : nat) (str template : jsstring) :
  equivalent r1 r2 -> replace r1 n str template = replace r2 n str template.
Proof. intros H. unfold replace. rewrite (equivalent_scan r1 r2 n H). reflexivity. Qed.

End Equivalence.

Section PatternText.
Import RegExpSource.

Lemma read_none (source : jsstring) :
  fold_left (fun state c => match state with Some q => step q c | None => None end)
            source None = None.
Proof. induction source as [|c source IH]; [reflexivity | exact IH]. Qed.

Lemma read_app (a b : jsstring) (p : Parser) :
  read (a ++ b) p
  = match read a p with
    | Some q => read b q
    | None => None
    end.
Proof.
  unfold read. rewrite fold_left_app.
  destruct (fold_left _ a (Some p)) as [q|]; [reflexivity | apply read_none].
Qed.

Lemma special_not_s (c : char) : isRegExpSpecial c = true -> (c =? 115)%N = false.
Proof.
  intros H. destruct (c =? 115)%N eqn:E; [|reflexivity].
  apply N.eqb_eq in E. subst. discriminate H.
Qed.

Lemma special_is_syntax (c : char) :
  isRegExpSpecial c = true -> isSyntaxCharacter c = true.
Proof.
  unfold isRegExpSpecial, isSyntaxCharacter. cbn [existsb].
  rewrite !orb_false_r. intros H.
  repeat (apply orb_true_iff in H; destruct H as [H | H];
          [rewrite H, ?orb_true_r; reflexivity|]).
  rewrite H, ?orb_true_r. reflexivity.
Qed.

(** A code unit that the escaping step leaves alone is a pattern
    character. *)
Lemma step_plain (c : char) (terms : list re) (q : bool) (frames : list Frame)
    (n : nat) :
  isRegExpSpecial c = false ->
  step (mkParser Normal terms q frames n) c
  = Some (mkParser Normal (patternCharacter c :: terms) true frames n).
Proof.
  unfold isRegExpSpecial. cbn [existsb]. rewrite !orb_false_r. intros H.
  repeat (apply orb_false_iff in H; destruct H as [? H]).
  unfold step. cbn [mode].
  repeat match goal with
         | E : (c =? ?k)%N = false |- context [(c =? ?k')%N] =>
             change (c =? k')%N with (c =? k)%N; rewrite E
         end.
  reflexivity.
Qed.

(** A code unit that the escaping step escapes is read as itself. *)
Lemma step_escaped (c : char) (terms : list re) (q : bool) (frames : list Frame)
    (n : nat) :
  isRegExpSpecial c = true ->
  read [BACKSLASH; c] (mkParser Normal terms q frames n)
  = Some (mkParser Normal (patternCharacter c :: terms) true frames n).
Proof.
  intros H. unfold read. cbn [fold_left]. unfold step at 1. cbn [mode].
  change (BACKSLASH =? BACKSLASH)%N with true. cbv iota.
  unfold step. cbn [mode items opened groupCount].
  rewrite (special_not_s c H), (special_is_syntax c H). reflexivity.
Qed.

(** The escaped text of a repository is read as the repository, code
    unit by code unit. *)
Lemma read_escaped (R : jsstring) :
  forall (terms : list re) (q : bool) (frames : list Frame) (n : nat),
    read (flat_map escapeChar R) (mkParser Normal terms q frames n)
    = Some (mkParser Normal (rev (map patternCharacter R) ++ terms)
                     (match R with [] => q | _ => true end) frames n).
Proof.
  induction R as [|c R IH]; intros terms q frames n; [reflexivity|].
  cbn [flat_map]. rewrite read_app. unfold escapeChar at 1.
  destruct (isRegExpSpecial c) eqn:E.
  - cbn [app]. rewrite (step_escaped c terms q frames n E), IH.
    cbn [map rev]. rewrite <- app_assoc. destruct R; reflexivity.
  - change (read [c] (mkParser Normal terms q frames n))
      with (step (mkParser Normal terms q frames n) c).
    rewrite (step_plain c terms q frames n E), IH.
    cbn [map rev]. rewrite <- app_assoc. destruct R; reflexivity.
Qed.

(** The three groups as they are read from the pattern text. *)
Local Abbreviation quoteClass :=
  (Chr (fun ch => xorb false (existsb (N.eqb ch) [DQUOTE; QUOTE]))).
Local Abbreviation noQuoteClass :=
  (Chr (fun ch => xorb true (existsb (N.eqb ch) [DQUOTE; QUOTE]))).
Local Abbreviation readHeader :=
  (Group 1 (sequence ([Star (Chr isWhiteSpace)]
                      ++ map patternCharacter IMAGE_COLON
                      ++ [Star (Chr isWhiteSpace); Opt quoteClass]))).
Local Abbreviation readTag :=
  (Opt (Group 2 (sequence [patternCharacter COLON; Star noQuoteClass]))).
Local Abbreviation readQuote := (Group 3 (sequence [Opt quoteClass])).

Local Abbreviation sourceHead :=
  (lit "^(" ++ [BACKSLASH] ++ lit "s*image:" ++ [BACKSLASH] ++ lit "s*['"
   ++ [DQUOTE] ++ lit "]?)").
Local Abbreviation sourceTail :=
  (lit "(:[^'" ++ [DQUOTE] ++ lit "]*" ++ lit ")?(['" ++ [DQUOTE] ++ lit "]?)").

Lemma imagePatternSource_parts (escaped : jsstring) :
  imagePatternSource escaped = sourceHead ++ escaped ++ sourceTail.
Proof. reflexivity. Qed.

Lemma read_sourceHead :
  read sourceHead start = Some (mkParser Normal [readHeader; LineStart] true [] 1).
Proof. reflexivity. Qed.

Lemma read_sourceTail (terms : list re) :
  read sourceTail (mkParser Normal terms true [] 1)
  = Some (mkParser Normal (readQuote :: readTag :: terms) true [] 3).
Proof. reflexivity. Qed.

(** The pattern text with an escaped repository is a pattern, with three
    groups: the line start, the header group, the code units of the
    repository, the optional tag group and the quote group. *)
Lemma compile_imagePatternSource (R : jsstring) :
  compile (imagePatternSource (escapeRegExp R))
  = Some (sequence ([LineStart; readHeader] ++ map patternCharacter R
                    ++ [readTag; readQuote]), 3%nat).
Proof.
  unfold compile.
  rewrite imagePatternSource_parts, escapeRegExp_chars.
  rewrite (read_app sourceHead), read_sourceHead.
  rewrite (read_app (flat_map escapeChar R)), read_escaped.
  replace (match R with [] => true | _ :: _ => true end) with true
    by (destruct R; reflexivity).
  rewrite read_sourceTail. cbn [mode opened items groupCount].
  cbn [rev]. rewrite !rev_app_distr, rev_involutive. cbn [rev app].
  rewrite <- !app_assoc. reflexivity.
Qed.

Lemma quoteClass_isQuote (ch : char) :
  xorb false (existsb (N.eqb ch) [DQUOTE; QUOTE]) = isQuote ch.
Proof.
  unfold isQuote. cbn [existsb xorb]. rewrite orb_false_r.
  destruct (ch =? DQUOTE)%N, (ch =? QUOTE)%N; reflexivity.
Qed.

Lemma noQuoteClass_isQuote (ch : char) :
  xorb true (existsb (N.eqb ch) [DQUOTE; QUOTE]) = negb (isQuote ch).
Proof.
  unfold isQuote. cbn [existsb xorb]. rewrite orb_false_r.
  destruct (ch =? DQUOTE)%N, (ch =? QUOTE)%N; reflexivity.
Qed.

Lemma readHeader_equivalent :
  equivalent readHeader
    (Group 1 (Seq (Star (Chr isWhiteSpace))
             (Seq (literal IMAGE_COLON)
             (Seq (Star (Chr isWhiteSpace)) (Opt (Chr isQuote)))))).
Proof.
  apply equivalent_group.
  change (sequence ([Star (Chr isWhiteSpace)] ++ map patternCharacter IMAGE_COLON
                    ++ [Star (Chr isWhiteSpace); Opt quoteClass]))
    with (Seq (Star (Chr isWhiteSpace))
              (sequence (map patternCharacter IMAGE_COLON
                         ++ [Star (Chr isWhiteSpace); Opt quoteClass]))).
  apply equivalent_seq; [apply equivalent_refl|].
  eapply equivalent_trans; [apply sequence_literal|].
  apply equivalent_seq; [apply equivalent_refl|].
  change (sequence [Star (Chr isWhiteSpace); Opt quoteClass])
    with (Seq (Star (Chr isWhiteSpace)) (Seq (Opt quoteClass) Empty)).
  apply equivalent_seq; [apply equivalent_refl|].
  eapply equivalent_trans; [apply equivalent_seq_empty|].
  apply equivalent_opt, equivalent_chr, quoteClass_isQuote.
Qed.

Lemma readTag_equivalent :
  equivalent readTag
    (Opt (Group 2 (Seq (Chr (N.eqb COLON))
                       (Star (Chr (fun c => negb (isQuote c))))))).
Proof.
  apply equivalent_opt, equivalent_group.
  change (sequence [patternCharacter COLON; Star noQuoteClass])
    with (Seq (Chr (N.eqb COLON)) (Seq (Star noQuoteClass) Empty)).
  apply equivalent_seq; [apply equivalent_refl|].
  eapply equivalent_trans; [apply equivalent_seq_empty|].
  apply equivalent_star, equivalent_chr, noQuoteClass_isQuote.
Qed.

Lemma readQuote_equivalent :
  equivalent readQuote (Group 3 (Opt (Chr isQuote))).
Proof.
  apply equivalent_group.
  change (sequence [Opt quoteClass]) with (Seq (Opt quoteClass) Empty).
  eapply equivalent_trans; [apply equivalent_seq_empty|].
  apply equivalent_opt, equivalent_chr, quoteClass_isQuote.
Qed.

Lemma read_pattern_equivalent (R : jsstring) :
  equivalent
    (sequence ([LineStart; readHeader] ++ map patternCharacter R
               ++ [readTag; readQuote]))
    (imagePattern R).
Proof.
  change (sequence ([LineStart; readHeader] ++ map patternCharacter R
                    ++ [readTag; readQuote]))
    with (Seq LineStart
            (Seq readHeader
               (sequence (map patternCharacter R ++ [readTag; readQuote])))).
  unfold imagePattern.
  apply equivalent_seq; [apply equivalent_refl|].
  apply equivalent_seq; [apply readHeader_equivalent|].
  eapply equivalent_trans; [apply sequence_literal|].
  apply equivalent_seq; [apply equivalent_refl|].
  change (sequence [readTag; readQuote]) with (Seq readTag (Seq readQuote Empty)).
  apply equivalent_seq; [apply readTag_equivalent|].
  eapply equivalent_trans; [apply equivalent_seq_empty|].
  apply readQuote_equivalent.
Qed.

(** The pattern of the model is the pattern with the literal
    repository. *)
Lemma imageRegExp_literal (R : jsstring) :
  imageRegExp (escapeRegExp R) = imagePattern R.
Proof.
  unfold imageRegExp, imagePattern.
  rewrite escapeRegExp_chars, escapedAtoms_escape. reflexivity.
Qed.

(** X8. The pattern text that the code builds from a repository, escaped
    as the code escapes it, is a pattern with three groups whatever code
    units the repository holds, and read as [new RegExp] reads it it
    cannot be told from the pattern in which the repository stands for
    itself, code unit by code unit: no code unit of the repository acts
    as pattern syntax. Every [replace] with it gives what the pattern of
    [insertImage] gives. *)
Theorem escaped_repository_is_literal (R : jsstring) :
  exists r,
    compile (imagePatternSource (escapeRegExp R)) = Some (r, 3%nat)
    /\ equivalent r (imagePattern R)
    /\ forall str template,
         replace r 3 str template
         = replace (imageRegExp (escapeRegExp R)) 3 str template.
Proof.
  eexists. split; [apply compile_imagePatternSource|].
  split; [apply read_pattern_equivalent|].
  intros str template. rewrite imageRegExp_literal.
  apply equivalent_replace, read_pattern_equivalent.
Qed.

(** Without the escaping step a dot of the repository would stand for
    any code unit, and a parenthesis would leave no pattern at all. *)
Example unescaped_repository_is_not_literal :
  match compile (imagePatternSource (lit "my.app")) with
  | Some (r, n) =>
      matchAt r n None 0 (lit "image: myXapp:1") <> None
      /\ matchAt (imagePattern (lit "my.app")) 3 None 0 (lit "image: myXapp:1") = None
  | None => False
  end
  /\ compile (imagePatternSource (lit "app(1")) = None.
Proof. vm_compute. repeat split; discriminate. Qed.

End PatternText.
